(** * Skelbumentations: transform composition and temporal selection

    A shallow embedding of the Python package [skelbumentations]
    (transform.py, select.py, compose.py, occlusion.py, perturbation.py).

    Conventions of the embedding.
    - A numpy array is a nested list; its shape is read off the nesting and
      the arrays of a well-formed record are rectangular.  An array with an
      empty axis holds no extents below that axis.
    - Floating-point numbers are idealised as exact rationals ([Q]) and
      compared exactly.  Where the result of a search depends on how the
      arithmetic rounds (the movement scores of select.py), the arithmetic
      is a parameter of the embedding.
    - The keyword dictionary [**data] is a finite map from field names to
      arrays, together with the optional [force_apply] keyword (it is part
      of the dictionary exactly for the callables whose signature does not
      name it).
    - Exceptions are values of [exn]; a raising computation is [Raise e].
    - The ambient random generator is threaded explicitly; [random.random]
      and the functions of the module [random_utils] are the operations of
      the class [RandomSource]. *)

From Stdlib Require Import QArith Qminmax Qabs Qround Lqa ZArith List Bool Lia.
From stdpp Require Import gmap strings list fin_maps.

(** ** Python-level values *)

Inductive exn : Type :=
| KeyError | IndexError | AssertionError | ValueError | TypeError
| ZeroDivisionError | NotImplementedError
| OutOfFuel (* not a Python exception: a loop still running when the fuel
               of the model is spent *).

Inductive Result (A : Type) : Type :=
| Ok (a : A)
| Raise (e : exn).
Arguments Ok {A} a.
Arguments Raise {A} e.

Definition rbind {A B : Type} (r : Result A) (k : A → Result B) : Result B :=
  match r with
  | Ok a => k a
  | Raise e => Raise e
  end.

Notation "'let?' x := r 'in' k" := (rbind r (fun x => k))
  (at level 10, x name, r at level 100, k at level 200).
Notation "'let?' ' pat := r 'in' k" :=
  (rbind r (fun x => match x with pat => k end))
  (at level 10, pat pattern, r at level 100, k at level 200).

Fixpoint rmapM {A B : Type} (f : A → Result B) (l : list A) : Result (list B) :=
  match l with
  | [] => Ok []
  | x :: l' => let? y := f x in let? ys := rmapM f l' in Ok (y :: ys)
  end.

(** [assert c] of Python. *)
Definition py_assert (c : bool) : Result unit :=
  if c then Ok tt else Raise AssertionError.

Definition Qltb (x y : Q) : bool := negb (Qle_bool y x).

(** One joint position: the [C] coordinates. *)
Abbreviation coords := (list Q).
(** One frame of [keypoints]: [V] joints. *)
Abbreviation kframe := (list (list Q)).
(** One frame of a boolean mask: [V] flags. *)
Abbreviation mframe := (list bool).

(** The arrays that travel in a record: [keypoints] has axes (T, V, C),
    the masks [invalid] and [peturbation] have axes (T, V). *)
Inductive ndarray : Type :=
| FloatArr (a : list kframe)
| BoolArr (a : list mframe).

(** [len(a)]: the extent of the time axis. *)
Definition len (a : ndarray) : nat :=
  match a with
  | FloatArr l => length l
  | BoolArr l => length l
  end.

(** The shape of one frame, and of a whole array, as nested extents. *)
Definition kframe_shape (f : kframe) : list nat := map (@length Q) f.
Definition mframe_shape (f : mframe) : nat := length f.

Inductive shape_t : Type :=
| FloatShape (s : list (list nat))
| BoolShape (s : list nat).

Definition shape (a : ndarray) : shape_t :=
  match a with
  | FloatArr l => FloatShape (map kframe_shape l)
  | BoolArr l => BoolShape (map mframe_shape l)
  end.

(** The named arrays of a record ([**data] once [force_apply] is bound). *)
Abbreviation Arrays := (gmap string ndarray).

(** A keyword dictionary as a callable receives or returns it. *)
Record Kwargs : Type := mkKwargs {
  kw_force : option bool;
  kw_data : Arrays;
}.

(** [**data] without a [force_apply] entry. *)
Definition plain (data : Arrays) : Kwargs := mkKwargs None data.

(** Binding of the parameter [force_apply: bool = False]. *)
Definition force_of (kw : Kwargs) : bool := default false (kw_force kw).

(** [d[key]] on a dictionary. *)
Definition getitem (data : Arrays) (key : string) : Result ndarray :=
  match data !! key with
  | Some a => Ok a
  | None => Raise KeyError
  end.

(** *** Indexing

    [normalize_index n i]: the position an integer index denotes in a
    sequence of length [n] (negative indices count from the end). *)
Definition normalize_index (n : nat) (i : Z) : Result nat :=
  if ((0 <=? i) && (i <? Z.of_nat n))%Z then Ok (Z.to_nat i)
  else if ((- Z.of_nat n <=? i) && (i <? 0))%Z then Ok (Z.to_nat (Z.of_nat n + i))
  else Raise IndexError.

(** [l[i]] *)
Definition py_index {A : Type} (l : list A) (i : Z) : Result A :=
  let? j := normalize_index (length l) i in
  match l !! j with
  | Some x => Ok x
  | None => Raise IndexError
  end.

(** [l[ids]] with a list of integers: a fresh array of the chosen rows. *)
Definition fancy_get {A : Type} (l : list A) (ids : list Z) : Result (list A) :=
  rmapM (py_index l) ids.

(** The writes of [l[ids] = src], in order: a later write to the same row
    replaces an earlier one.  A row whose shape differs from the row it
    replaces is a shape mismatch. *)
Fixpoint assign_rows {A : Type} (same_shape : A → A → bool)
    (l : list A) (writes : list (Z * A)) : Result (list A) :=
  match writes with
  | [] => Ok l
  | (i, x) :: rest =>
      let? j := normalize_index (length l) i in
      match l !! j with
      | Some old =>
          if same_shape old x then assign_rows same_shape (<[j := x]> l) rest
          else Raise ValueError
      | None => Raise IndexError
      end
  end.

(** [l[ids] = src]; numpy's broadcasting of a shorter [src] is not
    modelled: the value must have exactly one row per index. *)
Definition fancy_set {A : Type} (same_shape : A → A → bool)
    (l : list A) (ids : list Z) (src : list A) : Result (list A) :=
  if bool_decide (length src = length ids)
  then assign_rows same_shape l (zip ids src)
  else Raise ValueError.

Definition same_kframe (f1 f2 : kframe) : bool :=
  bool_decide (kframe_shape f1 = kframe_shape f2).
Definition same_mframe (f1 f2 : mframe) : bool :=
  bool_decide (mframe_shape f1 = mframe_shape f2).

(** [d[select_ids]] *)
Definition getitem_ids (d : ndarray) (select_ids : list Z) : Result ndarray :=
  match d with
  | FloatArr l => let? r := fancy_get l select_ids in Ok (FloatArr r)
  | BoolArr l => let? r := fancy_get l select_ids in Ok (BoolArr r)
  end.

(** [d[select_ids] = src] *)
Definition setitem_ids (d : ndarray) (select_ids : list Z) (src : ndarray)
  : Result ndarray :=
  match d, src with
  | FloatArr l, FloatArr s =>
      let? r := fancy_set same_kframe l select_ids s in Ok (FloatArr r)
  | BoolArr l, BoolArr s =>
      let? r := fancy_set same_mframe l select_ids s in Ok (BoolArr r)
  | _, _ => Raise ValueError
  end.

(** [np.arange(start, stop)] *)
Definition arange (start stop : Z) : list Z :=
  map (fun k => (start + Z.of_nat k)%Z) (seq 0 (Z.to_nat (stop - start))).

(** [range(n)] *)
Definition py_range (n : Z) : list nat := seq 0 (Z.to_nat n).

(** The bound of a slice, clamped as Python does. *)
Definition slice_bound (n : nat) (i : Z) : nat :=
  if (i <? 0)%Z then Z.to_nat (Z.max 0 (Z.of_nat n + i))
  else Z.to_nat (Z.min i (Z.of_nat n)).

(** [l[start:stop]], either bound possibly omitted. *)
Definition py_slice {A : Type} (l : list A) (start stop : option Z) : list A :=
  let a := from_option (slice_bound (length l)) 0%nat start in
  let b := from_option (slice_bound (length l)) (length l) stop in
  take (b - a) (drop a l).

(** [for key, d in data.items(): out[key] = f(key, d)] *)
Definition dict_mapM (f : string → ndarray → Result ndarray) (data : Arrays)
  : Result Arrays :=
  map_fold (fun key d acc =>
              let? out := acc in
              let? d' := f key d in
              Ok (<[key := d']> out))
           (Ok ∅) data.

(** [sum(l)] and [np.sum(l)] *)
Definition Qsum (l : list Q) : Q := fold_right Qplus 0%Q l.

(** [np.mean(l)]; the mean of no value is taken to be [0 / 0]. *)
Definition Qmean (l : list Q) : Q := (Qsum l / inject_Z (Z.of_nat (length l)))%Q.

(** [a[t, k]] and [a[t, k] = x] on an array with (at least) two axes. *)
Definition getitem2 {A : Type} (a : list (list A)) (t : nat) (k : Z) : Result A :=
  match a !! t with
  | Some row => py_index row k
  | None => Raise IndexError
  end.

Definition setitem2 {A : Type} (a : list (list A)) (t : nat) (k : Z) (x : A)
  : Result (list (list A)) :=
  match a !! t with
  | Some row =>
      let? j := normalize_index (length row) k in
      Ok (<[t := <[j := x]> row]> a)
  | None => Raise IndexError
  end.

(** [a[:, k]] *)
Definition column {A : Type} (a : list (list A)) (k : Z) : Result (list A) :=
  rmapM (fun row => py_index row k) a.

(** [a[:, k] = col] *)
Fixpoint set_column {A : Type} (a : list (list A)) (k : Z) (col : list A)
  : Result (list (list A)) :=
  match a, col with
  | [], [] => Ok []
  | row :: a', x :: col' =>
      let? j := normalize_index (length row) k in
      let? rest := set_column a' k col' in
      Ok (<[j := x]> row :: rest)
  | _, _ => Raise ValueError
  end.

(** [a[mask]] with a boolean mask along the first axis. *)
Fixpoint compress {A : Type} (l : list A) (mask : list bool) : list A :=
  match l, mask with
  | x :: l', b :: mask' => if b then x :: compress l' mask' else compress l' mask'
  | _, _ => []
  end.

Definition mask_index {A : Type} (l : list A) (mask : list bool) : Result (list A) :=
  if bool_decide (length mask = length l) then Ok (compress l mask)
  else Raise IndexError.

(** The extents (T, V, C) of a rectangular coordinate array. *)
Definition shape3 (keypoints : list kframe) : nat * nat * nat :=
  (length keypoints,
   length (List.hd [] keypoints),
   length (List.hd [] (List.hd [] keypoints))).

(** The extents (T, V) of a rectangular mask. *)
Definition shape2 (mask : list mframe) : nat * nat :=
  (length mask, length (List.hd [] mask)).

Definition as_float (a : ndarray) : Result (list kframe) :=
  match a with
  | FloatArr l => Ok l
  | BoolArr _ => Raise TypeError
  end.

Definition as_bool (a : ndarray) : Result (list mframe) :=
  match a with
  | BoolArr l => Ok l
  | FloatArr _ => Raise TypeError
  end.

(** [data["keypoints"]] and [data["invalid"]] as the arrays the
    transforms expect. *)
Definition get_keypoints (data : Arrays) : Result (list kframe) :=
  rbind (getitem data "keypoints") as_float.
Definition get_invalid (data : Arrays) : Result (list mframe) :=
  rbind (getitem data "invalid") as_bool.

(** ** The ambient random generator *)

Class RandomSource (G : Type) : Type := {
  (** [random.random()] *)
  py_random : G → Q * G;
  (** [random_utils.randint(low, high)] *)
  randint : Z → Z → G → Result (Z * G);
  (** [random_utils.randint(low, high, size)] *)
  randint_n : Z → Z → nat → G → Result (list Z * G);
  (** [random_utils.uniform(low, high)] *)
  uniform : Q → Q → G → Q * G;
  (** [random_utils.normal(loc, scale, shape)], the shape given as (T, V, C) *)
  normal : Q → Q → nat * nat * nat → G → Result (list (list (list Q)) * G);
  (** [random_utils.choice(a, p=p)] *)
  choice1 : nat → list Q → G → Result (Z * G);
  (** [random_utils.choice(a, size=size, replace=replace, p=p)] *)
  choice : nat → Z → bool → option (list Q) → G → Result (list Z * G);
}.

(** Computations that draw from the generator and may raise. *)
Definition M (G A : Type) : Type := G → Result (A * G).

Definition ret {G A : Type} (a : A) : M G A := fun g => Ok (a, g).

Definition bind {G A B : Type} (m : M G A) (k : A → M G B) : M G B :=
  fun g => match m g with
           | Ok (a, g') => k a g'
           | Raise e => Raise e
           end.

Definition raise {G A : Type} (e : exn) : M G A := fun _ => Raise e.

Definition lift {G A : Type} (r : Result A) : M G A :=
  fun g => match r with
           | Ok a => Ok (a, g)
           | Raise e => Raise e
           end.

Definition draw {G A : Type} (f : G → A * G) : M G A := fun g => Ok (f g).

Notation "'let*' x := m 'in' k" := (bind m (fun x => k))
  (at level 10, x name, m at level 100, k at level 200).
Notation "'let*' ' pat := m 'in' k" :=
  (bind m (fun x => match x with pat => k end))
  (at level 10, pat pattern, m at level 100, k at level 200).

(** A callable of the library: [t( **kwargs )]. *)
Definition Callable (G : Type) : Type := Kwargs → M G Kwargs.

(** What a combinator sees of a child: its attribute [p] and its
    [__call__]. *)
Record Operation (G : Type) : Type := mkOperation {
  op_p : Q;
  op_call : Callable G;
}.
Arguments mkOperation {G} op_p op_call.
Arguments op_p {G} o.
Arguments op_call {G} o.

(** [t( **data )] where [data] is a dictionary a previous call returned. *)
Definition call_star {G : Type} (t : Operation G) (data : Kwargs) : M G Kwargs :=
  op_call t data.

(** [t(force_apply=True, **data)]: a second [force_apply] inside [data] is
    a duplicated keyword. *)
Definition call_forced {G : Type} (t : Operation G) (data : Kwargs) : M G Kwargs :=
  match kw_force data with
  | Some _ => raise TypeError
  | None => op_call t (mkKwargs (Some true) (kw_data data))
  end.

(** [for t in transforms: data = t( **data )] *)
Fixpoint run_all {G : Type} (transforms : list (Operation G)) (data : Kwargs)
  : M G Kwargs :=
  match transforms with
  | [] => ret data
  | t :: rest => let* data' := call_star t data in run_all rest data'
  end.

(** ** transform.py *)

Module transform.
Section with_generator.
Context {G : Type} `{RandomSource G}.

Record BaseTransform : Type := mkBaseTransform {
  p : Q;
  always_apply : bool;
  apply : Arrays → M G Arrays;
}.

(** [BaseTransform.__call__(self, force_apply=False, **data)] *)
Definition call (self : BaseTransform) (force_apply : bool) (data : Arrays)
  : M G Arrays :=
  let* u := draw py_random in
  if Qltb u (p self) || always_apply self || force_apply
  then apply self data
  else ret data.

Definition as_operation (self : BaseTransform) : Operation G :=
  mkOperation (p self)
    (fun kw => let* data := call self (force_of kw) (kw_data kw) in ret (plain data)).

(** [data["keypoints"][:, :, 0] = 2 * flip_axis - data["keypoints"][:, :, 0]] *)
Definition flip_coords (flip_axis : Q) (c : coords) : Result coords :=
  match c with
  | [] => Raise IndexError
  | x :: c' => Ok ((2 * flip_axis - x)%Q :: c')
  end.

Definition HorizontalFlip_apply (flip_axis : Q) (data : Arrays) : M G Arrays :=
  lift (let? a := getitem data "keypoints" in
        match a with
        | FloatArr kp =>
            let? kp' := rmapM (rmapM (flip_coords flip_axis)) kp in
            Ok (<["keypoints" := FloatArr kp']> data)
        | BoolArr _ => Raise TypeError
        end).

Definition HorizontalFlip (flip_axis : Q) (always_apply : bool) (p : Q)
  : BaseTransform :=
  mkBaseTransform p always_apply (HorizontalFlip_apply flip_axis).

End with_generator.
Arguments BaseTransform G : clear implicits.
End transform.

(** ** select.py *)

Module select.
Section with_generator.
Context {G : Type} `{RandomSource G}.

(** [BaseSelect]; the abstract method [get_selection] is a field. *)
Record BaseSelect : Type := mkBaseSelect {
  transforms : list (Operation G);
  p : Q;
  get_selection : Arrays → M G (list Z);
}.

(** [not (force_apply or random.random() < self.p)]: the draw is made
    only when [force_apply] is false. *)
Definition gate_fails (p : Q) (force_apply : bool) : M G bool :=
  if force_apply then ret false
  else let* u := draw py_random in ret (negb (Qltb u p)).

(** [select_data[key] = d[select_ids]] for every field. *)
Definition extract (data : Arrays) (select_ids : list Z) : Result Arrays :=
  dict_mapM (fun _ d => getitem_ids d select_ids) data.

(** [d[select_ids] = select_data[key]] for every field. *)
Definition scatter_back (data : Arrays) (select_ids : list Z)
    (select_data : Arrays) : Result Arrays :=
  dict_mapM (fun key d =>
               let? src := getitem select_data key in
               setitem_ids d select_ids src) data.

(** The part of [BaseSelect.__call__] behind the probability gate. *)
Definition select_effect (self : BaseSelect) (data : Arrays) : M G Arrays :=
  let* select_ids := get_selection self data in
  let* select_data := lift (extract data select_ids) in
  let* select_data := run_all (transforms self) (plain select_data) in
  lift (scatter_back data select_ids (kw_data select_data)).

(** [BaseSelect.__call__(self, force_apply=False, **data)] *)
Definition call (self : BaseSelect) (force_apply : bool) (data : Arrays)
  : M G Arrays :=
  let* skip := gate_fails (p self) force_apply in
  if skip then ret data else select_effect self data.

Definition as_operation (self : BaseSelect) : Operation G :=
  mkOperation (p self)
    (fun kw => let* data := call self (force_of kw) (kw_data kw) in
               ret (plain data)).

(** [len(data["keypoints"])] *)
Definition keypoints_len (data : Arrays) : Result nat :=
  let? kp := getitem data "keypoints" in Ok (len kp).

(** *** SelectRandomFrames *)

Definition SelectRandomFrames_get_selection
    (min_num max_num : Z) (contiguous : bool) (data : Arrays) : M G (list Z) :=
  let* length := lift (keypoints_len data) in
  let* size := randint min_num (max_num + 1) in
  if contiguous then
    let* start := randint 0 (Z.of_nat length - size + 1) in
    let end_ := (start + size)%Z in
    ret (arange start end_)
  else
    choice length size false None.

Definition SelectRandomFrames (transforms : list (Operation G)) (p : Q)
    (max_num min_num : Z) (contiguous : bool) : Result BaseSelect :=
  let? _ := py_assert (max_num >=? min_num)%Z in
  Ok (mkBaseSelect transforms p
        (SelectRandomFrames_get_selection min_num max_num contiguous)).

(** *** SelectFrames *)

(** [f in range(length)] *)
Definition in_range (length : nat) (f : Z) : bool :=
  ((0 <=? f) && (f <? Z.of_nat length))%Z.

Definition SelectFrames_get_selection (frames : list Z) (data : Arrays)
  : M G (list Z) :=
  lift (let? length := keypoints_len data in
        let? _ := py_assert (forallb (in_range length) frames) in
        Ok frames).

Definition SelectFrames (transforms : list (Operation G)) (frames : list Z)
    (p : Q) : BaseSelect :=
  mkBaseSelect transforms p (SelectFrames_get_selection frames).

(** *** SelectRandomWithBorder *)

Record SelectRandomWithBorder : Type := mkSelectRandomWithBorder {
  border_base : BaseSelect;
  border_size : Z;
  border_num : Z;
}.

Definition SelectRandomWithBorder_get_selection (size : Z) (data : Arrays)
  : M G (list Z) :=
  let* length := lift (keypoints_len data) in
  let* start := randint 0 (Z.of_nat length - size + 1) in
  let end_ := (start + size)%Z in
  ret (arange start end_).

(** [SelectRandomWithBorder.__init__]: the inner size is drawn here,
    once. *)
Definition SelectRandomWithBorder_init
    (inner_transforms transforms : list (Operation G)) (p : Q)
    (min_num max_num border_num : Z) : M G SelectRandomWithBorder :=
  let* inner_size := randint min_num (max_num + 1) in
  let size := (inner_size + 2 * border_num)%Z in
  let inner_frames := arange border_num (border_num + inner_size) in
  let combined_transforms :=
    as_operation (SelectFrames inner_transforms inner_frames 1) :: transforms in
  ret (mkSelectRandomWithBorder
         (mkBaseSelect combined_transforms p
            (SelectRandomWithBorder_get_selection size))
         size border_num).

(** *** SelectHighMovement *)

Section high_movement.
(** [np.linalg.norm] along the coordinate axis and [np.argsort]. *)
Variable norm : coords → Q.
Variable argsort : list Q → list Z.
(** The rounded arithmetic of the movement scores: the elementwise [-] of
    two arrays, [np.mean] along the joint axis and [np.sum] of a window.
    The comparison [sum > max_sum] of two computed values is exact. *)
Variable minus : Q → Q → Q.
Variable mean : list Q → Q.
Variable sum : list Q → Q.

Record SelectHighMovement : Type := mkSelectHighMovement {
  hm_transforms : list (Operation G);
  hm_p : Q;
  size : Z;
  part : option (list Z);
  contiguous : bool;
}.

Definition SelectHighMovement_init (transforms : list (Operation G))
    (p : Q) (min_num max_num : Z) (part : option (list Z))
    (contiguous : bool) : M G SelectHighMovement :=
  let* size := randint min_num (max_num + 1) in
  ret (mkSelectHighMovement transforms p size part contiguous).

(** [if self.part]: [None] and the empty list are both false. *)
Definition part_given (part : option (list Z)) : option (list Z) :=
  match part with
  | Some (j :: js) => Some (j :: js)
  | _ => None
  end.

(** [a[:, part]] *)
Definition take_joints {A : Type} (a : list (list A)) (part : list Z)
  : Result (list (list A)) :=
  rmapM (fun frame => fancy_get frame part) a.

(** [keypoints[1:] - keypoints[:-1]] *)
Definition coords_sub (a b : coords) : coords := zip_with minus a b.
Definition frame_sub (a b : kframe) : kframe := zip_with coords_sub a b.
Definition differences (keypoints : list kframe) : list kframe :=
  zip_with frame_sub (py_slice keypoints (Some 1%Z) None)
                     (py_slice keypoints None (Some (-1)%Z)).

(** [invalid[f, k]] *)
Definition mask_at (invalid : list mframe) (f k : nat) : Result bool :=
  match invalid !! f with
  | Some row => match row !! k with
                | Some b => Ok b
                | None => Raise IndexError
                end
  | None => Raise IndexError
  end.

(** The loop body [if invalid[f, k] or invalid[f + 1, k]: movement[f, k] = 0.0] *)
Definition mask_entry (invalid : list mframe) (f k : nat) (x : Q) : Result Q :=
  let? a := mask_at invalid f k in
  if a then Ok 0%Q
  else let? b := mask_at invalid (f + 1) k in
       Ok (if b then 0%Q else x).

(** [for k, x in enumerate(row)] with the index carried along. *)
Fixpoint enumerate_from {A : Type} (i : nat) (l : list A) : list (nat * A) :=
  match l with
  | [] => []
  | x :: l' => (i, x) :: enumerate_from (S i) l'
  end.
Definition enumerate {A : Type} (l : list A) : list (nat * A) :=
  enumerate_from 0 l.

Definition mask_movement (invalid : list mframe) (movement : list (list Q))
  : Result (list (list Q)) :=
  rmapM (fun '(f, frame) =>
           rmapM (fun '(k, x) => mask_entry invalid f k x) (enumerate frame))
        (enumerate movement).

(** The movement score of every frame-to-frame gap. *)
Definition movement_scores (keypoints : list kframe) (invalid : list mframe)
  : Result (list Q) :=
  let movement := differences keypoints in
  let movement := map (map norm) movement in
  let? movement := mask_movement invalid movement in
  Ok (map mean movement).

(** One iteration of the window search. *)
Definition window_step (movement : list Q) (size : Z) (best : Q * nat)
    (i : nat) : Q * nat :=
  let sum := sum (py_slice movement (Some (Z.of_nat i))
                                    (Some (Z.of_nat i + size)%Z)) in
  if Qltb (fst best) sum then (sum, i) else best.

(** [max_sum = 0; max_index = 0; for i in range(length - self.size): ...] *)
Definition best_window (movement : list Q) (length : nat) (size : Z) : Q * nat :=
  fold_left (window_step movement size)
            (py_range (Z.of_nat length - size)) (0%Q, 0%nat).

Definition SelectHighMovement_get_selection (self : SelectHighMovement)
    (data : Arrays) : M G (list Z) :=
  lift (let? keypoints := get_keypoints data in
        let? invalid := get_invalid data in
        let length := length keypoints in
        let? sel :=
          match part_given (part self) with
          | Some js =>
              let? kp := take_joints keypoints js in
              let? inv := take_joints invalid js in
              Ok (kp, inv)
          | None => Ok (keypoints, invalid)
          end in
        let? movement := movement_scores (fst sel) (snd sel) in
        if contiguous self then
          let max_index := Z.of_nat (snd (best_window movement length (size self))) in
          Ok (arange max_index (max_index + size self))
        else
          Ok (py_slice (argsort movement) (Some (- size self)%Z) None)).

Definition SelectHighMovement_select (self : SelectHighMovement) : BaseSelect :=
  mkBaseSelect (hm_transforms self) (hm_p self)
               (SelectHighMovement_get_selection self).

End high_movement.

End with_generator.
Arguments BaseSelect G : clear implicits.
Arguments SelectRandomWithBorder G : clear implicits.
Arguments SelectHighMovement G : clear implicits.
End select.

(** ** compose.py *)

Module compose.
Section with_generator.
Context {G : Type} `{RandomSource G}.

(** The constructor argument [transforms]: a sequence, or a single
    operation where a sequence is expected. *)
Inductive transforms_arg : Type :=
| Single (t : Operation G)
| Sequence (ts : list (Operation G)).

Record BaseCompose : Type := mkBaseCompose {
  transforms : list (Operation G);
  p : Q;
}.

(** [BaseCompose.__init__]: a single operation is wrapped into a list. *)
Definition BaseCompose_init (ts : transforms_arg) (p : Q) : BaseCompose :=
  match ts with
  | Single t => mkBaseCompose [t] p
  | Sequence ts => mkBaseCompose ts p
  end.

(** [BaseCompose.__len__] *)
Definition BaseCompose_len (self : BaseCompose) : nat := length (transforms self).

(** *** Compose *)

Record Compose : Type := mkCompose {
  compose_base : BaseCompose;
  set_invalid_to_zero : bool;
}.

Definition Compose_init (ts : transforms_arg) (p : Q)
    (set_invalid_to_zero : bool) : Compose :=
  mkCompose (BaseCompose_init ts p) set_invalid_to_zero.

(** [keypoints.shape[:-1]] as the extents of a mask. *)
Definition mask_shape_of (keypoints : list kframe) : list nat :=
  map (@length coords) keypoints.

(** [np.full(keypoints.shape[:-1], False)] *)
Definition full_false (keypoints : list kframe) : list mframe :=
  map (map (fun _ => false)) keypoints.

(** [assert data[key].shape == data["keypoints"].shape[:-1]] *)
Definition mask_matches (keypoints : list kframe) (a : ndarray) : bool :=
  match a with
  | BoolArr m => bool_decide (map mframe_shape m = mask_shape_of keypoints)
  | FloatArr _ => false
  end.

Definition default_mask (keypoints : list kframe) (key : string)
    (data : Arrays) : Result Arrays :=
  match data !! key with
  | None => Ok (<[key := BoolArr (full_false keypoints)]> data)
  | Some a => let? _ := py_assert (mask_matches keypoints a) in Ok data
  end.

(** [Compose.check_args] *)
Definition check_args (data : Arrays) : Result Arrays :=
  match data !! "keypoints" with
  | None => Raise KeyError
  | Some (BoolArr _) => Raise TypeError (* not a coordinate array: outside the model *)
  | Some (FloatArr keypoints) =>
      let? data := default_mask keypoints "invalid" data in
      default_mask keypoints "peturbation" data
  end.

(** [keypoints[invalid] = 0.0] on one frame and on the whole array. *)
Definition zero_joint (c : coords) (b : bool) : coords :=
  if b then map (fun _ => 0%Q) c else c.
Definition zero_frame (f : kframe) (m : mframe) : kframe := zip_with zero_joint f m.

Definition zero_invalid (keypoints invalid : ndarray) : Result ndarray :=
  match keypoints, invalid with
  | FloatArr kp, BoolArr m =>
      if bool_decide (map mframe_shape m = mask_shape_of kp)
      then Ok (FloatArr (zip_with zero_frame kp m))
      else Raise IndexError
  | _, _ => Raise IndexError
  end.

(** [data["keypoints"][data["invalid"]] = 0.0] *)
Definition finalize (data : Kwargs) : Result Kwargs :=
  let? keypoints := getitem (kw_data data) "keypoints" in
  let? invalid := getitem (kw_data data) "invalid" in
  let? keypoints := zero_invalid keypoints invalid in
  Ok (mkKwargs (kw_force data) (<["keypoints" := keypoints]> (kw_data data))).

(** [Compose.__call__(self, *args, force_apply=False, **data)] *)
Definition Compose_call (self : Compose) (args : list ndarray)
    (force_apply : bool) (data : Arrays) : M G Kwargs :=
  match args with
  | _ :: _ => raise KeyError
  | [] =>
      let* data := lift (check_args data) in
      let transforms := transforms (compose_base self) in
      let* data := run_all transforms (plain data) in
      if set_invalid_to_zero self then lift (finalize data) else ret data
  end.

Definition Compose_op (self : Compose) : Operation G :=
  mkOperation (p (compose_base self))
    (fun kw => Compose_call self [] (force_of kw) (kw_data kw)).

(** *** OneOf and SomeOf *)

(** [t / s] on Python numbers. *)
Definition py_div (t s : Q) : Result Q :=
  if Qeq_bool s 0 then Raise ZeroDivisionError else Ok (t / s)%Q.

(** [s = sum(transforms_ps); [t / s for t in transforms_ps]] *)
Definition normalize (transforms_ps : list Q) : Result (list Q) :=
  let s := Qsum transforms_ps in
  rmapM (fun t => py_div t s) transforms_ps.

Record OneOf : Type := mkOneOf {
  oneof_base : BaseCompose;
  oneof_ps : list Q;
}.

Definition OneOf_init (ts : transforms_arg) (p : Q) : Result OneOf :=
  let base := BaseCompose_init ts p in
  let transforms_ps := map op_p (transforms base) in
  let? transforms_ps := normalize transforms_ps in
  Ok (mkOneOf base transforms_ps).

(** [self.transforms_ps and (force_apply or random.random() < self.p)] *)
Definition pick_gate (transforms_ps : list Q) (p : Q) (force_apply : bool)
  : M G bool :=
  match transforms_ps with
  | [] => ret false
  | _ :: _ =>
      if force_apply then ret true
      else let* u := draw py_random in ret (Qltb u p)
  end.

Definition OneOf_effect (self : OneOf) (data : Arrays) : M G Kwargs :=
  let transforms := transforms (oneof_base self) in
  let* idx := choice1 (length transforms) (oneof_ps self) in
  let* t := lift (py_index transforms idx) in
  call_forced t (plain data).

(** [OneOf.__call__(self, force_apply=False, **data)] *)
Definition OneOf_call (self : OneOf) (force_apply : bool) (data : Arrays)
  : M G Kwargs :=
  let* go := pick_gate (oneof_ps self) (p (oneof_base self)) force_apply in
  if go then OneOf_effect self data else ret (plain data).

Definition OneOf_op (self : OneOf) : Operation G :=
  mkOperation (p (oneof_base self))
    (fun kw => OneOf_call self (force_of kw) (kw_data kw)).

Record SomeOf : Type := mkSomeOf {
  someof_base : BaseCompose;
  n : Z;
  replace : bool;
  someof_ps : list Q;
}.

Definition SomeOf_init (ts : transforms_arg) (n : Z) (replace : bool)
    (p : Q) : Result SomeOf :=
  let base := BaseCompose_init ts p in
  let transforms_ps := map op_p (transforms base) in
  let? transforms_ps := normalize transforms_ps in
  Ok (mkSomeOf base n replace transforms_ps).

(** [for i in idx: t = self.transforms[i]; data = t(force_apply=True, **data)] *)
Fixpoint run_picked (transforms : list (Operation G)) (idx : list Z)
    (data : Kwargs) : M G Kwargs :=
  match idx with
  | [] => ret data
  | i :: rest =>
      let* t := lift (py_index transforms i) in
      let* data := call_forced t data in
      run_picked transforms rest data
  end.

Definition SomeOf_effect (self : SomeOf) (data : Arrays) : M G Kwargs :=
  let transforms := transforms (someof_base self) in
  let* idx := choice (length transforms) (n self) (replace self)
                     (Some (someof_ps self)) in
  run_picked transforms idx (plain data).

(** [SomeOf.__call__(self, force_apply=False, **data)] *)
Definition SomeOf_call (self : SomeOf) (force_apply : bool) (data : Arrays)
  : M G Kwargs :=
  let* go := pick_gate (someof_ps self) (p (someof_base self)) force_apply in
  if go then SomeOf_effect self data else ret (plain data).

Definition SomeOf_op (self : SomeOf) : Operation G :=
  mkOperation (p (someof_base self))
    (fun kw => SomeOf_call self (force_of kw) (kw_data kw)).

(** *** OneOrOther *)

Definition OneOrOther_init (first second : option (Operation G))
    (ts : option transforms_arg) (p : Q) : Result BaseCompose :=
  match ts with
  | Some ts => Ok (BaseCompose_init ts p)
  | None =>
      match first, second with
      | Some a, Some b => Ok (BaseCompose_init (Sequence [a; b]) p)
      | _, _ => Raise ValueError
      end
  end.

(** [OneOrOther.__call__(self, force_apply=False, **data)] *)
Definition OneOrOther_call (self : BaseCompose) (force_apply : bool)
    (data : Arrays) : M G Kwargs :=
  let* u := draw py_random in
  if Qltb u (p self) then
    let* t := lift (py_index (transforms self) 0) in
    call_forced t (plain data)
  else
    let* t := lift (py_index (transforms self) (-1)) in
    call_forced t (plain data).

Definition OneOrOther_op (self : BaseCompose) : Operation G :=
  mkOperation (p self)
    (fun kw => OneOrOther_call self (force_of kw) (kw_data kw)).

(** *** Sequential *)

(** The loop of [Sequential.__call__] behind the probability test. *)
Definition Sequential_effect (self : BaseCompose) (data : Kwargs) : M G Kwargs :=
  run_all (transforms self) data.

(** [Sequential.__call__(self, **data)]: there is no [force_apply]
    parameter, a keyword of that name stays in [data]. *)
Definition Sequential_call (self : BaseCompose) (data : Kwargs) : M G Kwargs :=
  let* u := draw py_random in
  if Qltb u (p self) then Sequential_effect self data else ret data.

Definition Sequential_op (self : BaseCompose) : Operation G :=
  mkOperation (p self) (Sequential_call self).

(** *** NoOp *)

Definition NoOp_init (p : Q) : BaseCompose := BaseCompose_init (Sequence []) p.

(** [NoOp.__call__(self, **data)] *)
Definition NoOp_call (self : BaseCompose) (data : Kwargs) : M G Kwargs := ret data.

Definition NoOp_op (self : BaseCompose) : Operation G :=
  mkOperation (p self) (NoOp_call self).

End with_generator.
Arguments BaseCompose G : clear implicits.
Arguments Compose G : clear implicits.
Arguments OneOf G : clear implicits.
Arguments SomeOf G : clear implicits.
Arguments transforms_arg G : clear implicits.
End compose.

(** ** occlusion.py *)

Module occlusion.
Section with_generator.
Context {G : Type} `{RandomSource G}.

(** [data["invalid"][:, joints] = True] *)
Fixpoint occlude_row (row : mframe) (joints : list Z) : Result mframe :=
  match joints with
  | [] => Ok row
  | j :: rest =>
      let? i := normalize_index (length row) j in
      occlude_row (<[i := true]> row) rest
  end.

Definition occlude_joints (invalid : list mframe) (joints : list Z)
  : Result (list mframe) :=
  rmapM (fun row => occlude_row row joints) invalid.

(** *** RandomOcclusion *)

(** [self.chance if type(self.chance) == float else self.chance[i]] *)
Definition chance_of (chance : Q + list Q) (i : nat) : Result Q :=
  match chance with
  | inl c => Ok c
  | inr cs => py_index cs (Z.of_nat i)
  end.

Fixpoint draw_occluded (chance : Q + list Q) (joints : list nat)
  : M G (list Z) :=
  match joints with
  | [] => ret []
  | i :: rest =>
      let* c := lift (chance_of chance i) in
      let* u := draw (uniform 0 1) in
      let* occluded := draw_occluded chance rest in
      ret (if Qltb u c then Z.of_nat i :: occluded else occluded)
  end.

Definition RandomOcclusion_apply (chance : Q + list Q) (data : Arrays)
  : M G Arrays :=
  let* invalid := lift (get_invalid data) in
  let num_joints := snd (shape2 invalid) in
  let* occluded_joints := draw_occluded chance (seq 0 num_joints) in
  let* invalid := lift (occlude_joints invalid occluded_joints) in
  ret (<["invalid" := BoolArr invalid]> data).

Definition RandomOcclusion (chance : Q + list Q) (always_apply : bool) (p : Q)
  : transform.BaseTransform G :=
  transform.mkBaseTransform p always_apply (RandomOcclusion_apply chance).

(** *** WholeOcclusion *)

(** [data["invalid"][:] = True] *)
Definition WholeOcclusion_apply (data : Arrays) : M G Arrays :=
  let* invalid := lift (get_invalid data) in
  ret (<["invalid" := BoolArr (map (map (fun _ => true)) invalid)]> data).

Definition WholeOcclusion (always_apply : bool) (p : Q)
  : transform.BaseTransform G :=
  transform.mkBaseTransform p always_apply WholeOcclusion_apply.

(** *** SpecificOcclusion *)

Definition SpecificOcclusion_apply (joints : list Z) (data : Arrays)
  : M G Arrays :=
  let* invalid := lift (get_invalid data) in
  let* invalid := lift (occlude_joints invalid joints) in
  ret (<["invalid" := BoolArr invalid]> data).

Definition SpecificOcclusion (joints : list Z) (always_apply : bool) (p : Q)
  : transform.BaseTransform G :=
  transform.mkBaseTransform p always_apply (SpecificOcclusion_apply joints).

(** *** InterpolateOcclusions *)

(** The value at [x] of the line through [(x0, y0)] and [(x1, y1)], as
    scipy computes it: [slope * (x - x0) + y0]. *)
Definition lerp1 (x0 x1 x : nat) (y0 y1 : Q) : Q :=
  ((y1 - y0) / (inject_Z (Z.of_nat x1) - inject_Z (Z.of_nat x0))
   * (inject_Z (Z.of_nat x) - inject_Z (Z.of_nat x0)) + y0)%Q.

Definition lerp (x0 x1 x : nat) (y0 y1 : coords) : coords :=
  zip_with (lerp1 x0 x1 x) y0 y1.

(** [scipy.interpolate.interp1d(xs, ys, axis=0)] evaluated at [x]: linear
    between the two neighbouring knots, an error outside the knots. *)
Fixpoint interp_from (x0 : nat) (y0 : coords) (knots : list (nat * coords))
    (x : nat) : Result coords :=
  match knots with
  | [] => Raise ValueError
  | (x1, y1) :: rest =>
      if (x <=? x1)%nat then Ok (lerp x0 x1 x y0 y1)
      else interp_from x1 y1 rest x
  end.

Definition interp1d (xs : list nat) (ys : list coords) (x : nat) : Result coords :=
  match zip xs ys with
  | [] => Raise ValueError
  | (x0, y0) :: rest =>
      if (x <? x0)%nat then Raise ValueError else interp_from x0 y0 rest x
  end.

(** [np.min] and [np.max] of a vector of indices. *)
Definition index_min (l : list nat) : nat := foldr Nat.min (List.hd 0%nat l) l.
Definition index_max (l : list nat) : nat := foldr Nat.max 0%nat l.

(** [interpolate_map]: a copy of [invalid] cleared before the first and
    from the last valid index on. *)
Definition interpolate_map_of (invalid : list bool) (min_valid_id max_valid_id : nat)
  : list bool :=
  imap (fun t b => b && (min_valid_id <=? t)%nat && (t <? max_valid_id)%nat) invalid.

(** [a[ids, k] = values], entry by entry. *)
Fixpoint assign_entries {A : Type} (a : list (list A)) (k : nat)
    (writes : list (nat * A)) : Result (list (list A)) :=
  match writes with
  | [] => Ok a
  | (t, x) :: rest =>
      let? a' := setitem2 a t (Z.of_nat k) x in
      assign_entries a' k rest
  end.

(** The body of the loop over the joints. *)
Definition interpolate_joint (length : nat) (k : nat)
    (state : list kframe * list mframe) : Result (list kframe * list mframe) :=
  let '(keypoints, invalid_all) := state in
  let? kp := column keypoints (Z.of_nat k) in
  let? invalid := column invalid_all (Z.of_nat k) in
  let valid := map negb invalid in
  let? valid_ids := mask_index (seq 0 length) valid in
  if (List.length valid_ids <? 2)%nat then Ok state
  else
    let? valid_kps := mask_index kp valid in
    let f := interp1d valid_ids valid_kps in
    let min_valid_id := index_min valid_ids in
    let max_valid_id := index_max valid_ids in
    let interpolate_map := interpolate_map_of invalid min_valid_id max_valid_id in
    let? interpolate_ids := mask_index (seq 0 length) interpolate_map in
    let? values := rmapM f interpolate_ids in
    let? keypoints := assign_entries keypoints k (zip interpolate_ids values) in
    let? invalid_all :=
      assign_entries invalid_all k (map (fun t => (t, false)) interpolate_ids) in
    Ok (keypoints, invalid_all).

Fixpoint interpolate_joints (length : nat) (joints : list nat)
    (state : list kframe * list mframe) : Result (list kframe * list mframe) :=
  match joints with
  | [] => Ok state
  | k :: rest =>
      let? state := interpolate_joint length k state in
      interpolate_joints length rest state
  end.

(** [InterpolateOcclusions.apply] *)
Definition InterpolateOcclusions_apply (data : Arrays) : M G Arrays :=
  lift (let? keypoints := get_keypoints data in
        let '(length, num_joints, _) := shape3 keypoints in
        match seq 0 num_joints with
        | [] => Ok data
        | joints =>
            let? invalid := get_invalid data in
            let? state := interpolate_joints length joints (keypoints, invalid) in
            Ok (<["invalid" := BoolArr (snd state)]>
                  (<["keypoints" := FloatArr (fst state)]> data))
        end).

Definition InterpolateOcclusions (always_apply : bool) (p : Q)
  : transform.BaseTransform G :=
  transform.mkBaseTransform p always_apply InterpolateOcclusions_apply.

End with_generator.
End occlusion.

(** ** perturbation.py *)

Module perturbation.
Section with_generator.
Context {G : Type} `{RandomSource G}.

(** *** Jittering *)

Section jittering.
(** [np.deg2rad], [np.cos] and [np.sin]. *)
Variables deg2rad cos sin : Q → Q.

Record Jittering : Type := mkJittering {
  radians : Q * Q;
  distance : Q * Q;
  keypoint : option Z;
  jit_always_apply : bool;
  jit_p : Q;
}.

(** [Jittering.__init__] *)
Definition Jittering_init (angles distance : Q * Q) (keypoint : option Z)
    (always_apply : bool) (p : Q) : Result Jittering :=
  if negb (Qle_bool (fst angles) (snd angles)) then Raise ValueError
  else if negb (Qle_bool (fst distance) (snd distance)) then Raise ValueError
  else Ok (mkJittering (deg2rad (fst angles), deg2rad (snd angles))
                       distance keypoint always_apply p).

(** [np.min(..., where=valid, initial=np.inf)] followed by the
    replacement of [inf] by 0, and the same for [np.max]. *)
Definition masked_extreme (pick : Q → Q → Q) (xs : list Q) (valid : list bool) : Q :=
  match compress xs valid with
  | [] => 0%Q
  | x :: rest => fold_left pick rest x
  end.

(** Coordinate [c] of every joint of a frame. *)
Definition axis_values (frame : kframe) (c : nat) : list Q :=
  map (fun joint => nth c joint 0%Q) frame.

(** [bottom_left_bb[:, i]] and [top_right_bb[:, i]] *)
Definition bottom_left_of (frame : kframe) (invalid : mframe) : coords :=
  map (fun c => masked_extreme Qmin (axis_values frame c) (map negb invalid)) [0; 1]%nat.
Definition top_right_of (frame : kframe) (invalid : mframe) : coords :=
  map (fun c => masked_extreme Qmax (axis_values frame c) (map negb invalid)) [0; 1]%nat.

(** [(a < b).any()] *)
Definition any_lt (a b : coords) : bool :=
  existsb (fun '(x, y) => Qltb x y) (zip a b).

(** [x / d] where a zero [d] has been replaced by [np.inf]. *)
Definition div_or_inf (x d : Q) : Q :=
  if Qeq_bool d 0 then 0%Q else (x / d)%Q.

(** [np.max] of a non-empty vector. *)
Definition maximum (l : list Q) : Q :=
  match l with
  | [] => 0%Q
  | x :: rest => fold_left Qmax rest x
  end.

(** [Jittering._clip_bb] *)
Definition _clip_bb (keypoint bottom_left top_right direction : coords) : coords :=
  if any_lt keypoint bottom_left || any_lt top_right keypoint then
    let db := zip_with Qminus keypoint bottom_left in
    let dt := zip_with Qminus keypoint top_right in
    let db := map (fun x => if Qltb 0 x then 0%Q else x) db in
    let dt := map (fun x => if Qltb x 0 then 0%Q else x) dt in
    let db := zip_with div_or_inf db direction in
    let dt := zip_with div_or_inf dt direction in
    let d := db ++ dt in
    let dm := maximum d in
    zip_with (fun k dir => (k - dm * dir)%Q) keypoint direction
  else keypoint.

(** [Jittering._get_random_direction] *)
Definition _get_random_direction (self : Jittering) : M G coords :=
  let* radian := draw (uniform (fst (radians self)) (snd (radians self))) in
  ret [cos radian; sin radian].

(** [Jittering._get_random_distance] *)
Definition _get_random_distance (self : Jittering) : M G Q :=
  draw (uniform (fst (distance self)) (snd (distance self))).

(** [if self.keypoint]: [None] and [0] are both false. *)
Definition keypoint_given (keypoint : option Z) : option Z :=
  match keypoint with
  | Some k => if (k =? 0)%Z then None else Some k
  | None => None
  end.

(** [keypoint + distance * direction] *)
Definition displace (keypoint : coords) (distance : Q) (direction : coords) : coords :=
  zip_with (fun k dir => (k + distance * dir)%Q) keypoint direction.

(** The body of the loop over the frames. *)
Definition jitter_frame (self : Jittering) (num_joints : nat)
    (invalid : list mframe) (bottom_left_bb top_right_bb : list coords)
    (keypoints : list kframe) (i : nat) : M G (list kframe) :=
  let* keypoint_id :=
    match keypoint_given (keypoint self) with
    | Some k => ret k
    | None => randint 0 (Z.of_nat num_joints)
    end in
  let* skip := lift (getitem2 invalid i keypoint_id) in
  if skip then ret keypoints
  else
    let* keypoint := lift (getitem2 keypoints i keypoint_id) in
    let* direction := _get_random_direction self in
    let* distance := _get_random_distance self in
    let new_kp := displace keypoint distance direction in
    let new_kp := _clip_bb new_kp (nth i bottom_left_bb []) (nth i top_right_bb [])
                           direction in
    lift (setitem2 keypoints i keypoint_id new_kp).

Fixpoint jitter_frames (self : Jittering) (num_joints : nat)
    (invalid : list mframe) (bottom_left_bb top_right_bb : list coords)
    (keypoints : list kframe) (frames : list nat) : M G (list kframe) :=
  match frames with
  | [] => ret keypoints
  | i :: rest =>
      let* keypoints :=
        jitter_frame self num_joints invalid bottom_left_bb top_right_bb keypoints i in
      jitter_frames self num_joints invalid bottom_left_bb top_right_bb keypoints rest
  end.

(** [assert data["keypoints"].shape[2] == 2] *)
Definition two_dimensional (keypoints : list kframe) : bool :=
  forallb (forallb (fun joint => (length joint =? 2)%nat)) keypoints.

(** [Jittering.apply] *)
Definition Jittering_apply (self : Jittering) (data : Arrays) : M G Arrays :=
  let* keypoints := lift (get_keypoints data) in
  let* _ := lift (py_assert (two_dimensional keypoints)) in
  let* invalid := lift (get_invalid data) in
  let* _ := lift (if bool_decide (map mframe_shape invalid = map (@length coords) keypoints)
                  then Ok tt else Raise ValueError) in
  let bottom_left_bb := zip_with bottom_left_of keypoints invalid in
  let top_right_bb := zip_with top_right_of keypoints invalid in
  let '(length, num_joints, _) := shape3 keypoints in
  let* keypoints :=
    jitter_frames self num_joints invalid bottom_left_bb top_right_bb keypoints
                  (seq 0 length) in
  ret (<["keypoints" := FloatArr keypoints]> data).

Definition Jittering_transform (self : Jittering) : transform.BaseTransform G :=
  transform.mkBaseTransform (jit_p self) (jit_always_apply self) (Jittering_apply self).

End jittering.

(** *** MovePerturbation *)

(** [if self.joints]: [None] and the empty list are both false. *)
Definition joints_given (joints : option (list Z)) : option (list Z) :=
  match joints with
  | Some (j :: js) => Some (j :: js)
  | _ => None
  end.

(** [d[mask] = 0.0] for a mask over the first two axes of [d]. *)
Definition zero_where (d : list kframe) (mask : list mframe) : Result (list kframe) :=
  if bool_decide (map mframe_shape mask = map (@length coords) d)
  then Ok (zip_with (zip_with (fun c (b : bool) => if b then map (fun _ => 0%Q) c else c)) d mask)
  else Raise IndexError.

(** [a + d] on arrays of one shape. *)
Definition add_arrays (a d : list kframe) : Result (list kframe) :=
  if bool_decide (map kframe_shape a = map kframe_shape d)
  then Ok (zip_with (zip_with (zip_with Qplus)) a d)
  else Raise ValueError.

(** [a[:, joints]] *)
Definition take_columns {A : Type} (a : list (list A)) (joints : list Z)
  : Result (list (list A)) :=
  rmapM (fun row => fancy_get row joints) a.

(** [a[:, joints] = src] *)
Fixpoint put_columns (a : list kframe) (joints : list Z) (src : list kframe)
  : Result (list kframe) :=
  match a, src with
  | [], [] => Ok []
  | row :: a', s :: src' =>
      let? row' := fancy_set (fun x y : coords => bool_decide (length x = length y))
                             row joints s in
      let? rest := put_columns a' joints src' in
      Ok (row' :: rest)
  | _, _ => Raise ValueError
  end.

Definition MovePerturbation_apply (variance : Q) (joints : option (list Z))
    (data : Arrays) : M G Arrays :=
  let* keypoints := lift (get_keypoints data) in
  let '(T, V, C) := shape3 keypoints in
  match joints_given joints with
  | Some js =>
      let* d := normal 0 variance (T, length js, C) in
      let* invalid := lift (get_invalid data) in
      let* mask := lift (take_columns invalid js) in
      let* d := lift (zero_where d mask) in
      let* sub := lift (take_columns keypoints js) in
      let* sum := lift (add_arrays sub d) in
      let* keypoints := lift (put_columns keypoints js sum) in
      ret (<["keypoints" := FloatArr keypoints]> data)
  | None =>
      let* d := normal 0 variance (T, V, C) in
      let* invalid := lift (get_invalid data) in
      let* d := lift (zero_where d invalid) in
      let* keypoints := lift (add_arrays keypoints d) in
      ret (<["keypoints" := FloatArr keypoints]> data)
  end.

Definition MovePerturbation (variance : Q) (joints : option (list Z))
    (always_apply : bool) (p : Q) : transform.BaseTransform G :=
  transform.mkBaseTransform p always_apply (MovePerturbation_apply variance joints).

(** *** SwapPerturbation *)

(** [temp = a[:, i1].copy(); a[:, i1] = a[:, i2]; a[:, i2] = temp] *)
Definition swap_columns (a : list kframe) (i1 i2 : Z) : Result (list kframe) :=
  let? temp := column a i1 in
  let? other := column a i2 in
  let? a := set_column a i1 other in
  set_column a i2 temp.

(** [while i1 == i2: [i1, i2] = random_utils.randint(0, length, 2)];
    [fuel] bounds the number of iterations of the model. *)
Fixpoint draw_distinct (fuel : nat) (length : nat) : M G (Z * Z) :=
  match fuel with
  | O => raise OutOfFuel
  | S fuel' =>
      let* pair := randint_n 0 (Z.of_nat length) 2 in
      match pair with
      | [i1; i2] => if (i1 =? i2)%Z then draw_distinct fuel' length else ret (i1, i2)
      | _ => raise ValueError
      end
  end.

Definition SwapPerturbation_apply (fuel : nat) (data : Arrays) : M G Arrays :=
  let* keypoints := lift (get_keypoints data) in
  let '(_, length, _) := shape3 keypoints in
  let* '(i1, i2) := draw_distinct fuel length in
  let* keypoints := lift (swap_columns keypoints i1 i2) in
  ret (<["keypoints" := FloatArr keypoints]> data).

Definition SwapPerturbation (fuel : nat) (always_apply : bool) (p : Q)
  : transform.BaseTransform G :=
  transform.mkBaseTransform p always_apply (SwapPerturbation_apply fuel).

(** *** MirrorPerturbation *)

Fixpoint mirror_columns (a : list kframe) (opposite_points : list (Z * Z))
  : Result (list kframe) :=
  match opposite_points with
  | [] => Ok a
  | (p, q) :: rest =>
      let? a := swap_columns a p q in
      mirror_columns a rest
  end.

Definition MirrorPerturbation_apply (opposite_points : list (Z * Z))
    (data : Arrays) : M G Arrays :=
  match opposite_points with
  | [] => ret data
  | _ =>
      let* keypoints := lift (get_keypoints data) in
      let* keypoints := lift (mirror_columns keypoints opposite_points) in
      ret (<["keypoints" := FloatArr keypoints]> data)
  end.

Definition MirrorPerturbation (opposite_points : list (Z * Z))
    (always_apply : bool) (p : Q) : transform.BaseTransform G :=
  transform.mkBaseTransform p always_apply (MirrorPerturbation_apply opposite_points).

End with_generator.
Arguments Jittering : clear implicits.
End perturbation.

(** ** A generator that replays a tape

    The worked examples below run the library on a generator that hands
    out the numbers of a fixed list, in order (and 0 once the list is
    exhausted). *)

Module replay.

Definition next (g : list Q) : Q * list Q :=
  match g with
  | [] => (0%Q, [])
  | u :: g' => (u, g')
  end.

Definition replay_randint (low high : Z) (g : list Q) : Result (Z * list Q) :=
  if (high <=? low)%Z then Raise ValueError
  else let '(u, g') := next g in
       Ok ((low + Qfloor (u * inject_Z (high - low)))%Z, g').

Fixpoint replay_randint_n (low high : Z) (size : nat) (g : list Q)
  : Result (list Z * list Q) :=
  match size with
  | O => Ok ([], g)
  | S size' =>
      let? '(x, g') := replay_randint low high g in
      let? '(xs, g'') := replay_randint_n low high size' g' in
      Ok (x :: xs, g'')
  end.

Definition replay_uniform (low high : Q) (g : list Q) : Q * list Q :=
  let '(u, g') := next g in ((low + (high - low) * u)%Q, g').

(** The replayed [normal] returns its location everywhere. *)
Definition replay_normal (loc scale : Q) (shape : nat * nat * nat) (g : list Q)
  : Result (list (list (list Q)) * list Q) :=
  let '(T, V, C) := shape in
  Ok (repeat (repeat (repeat loc C) V) T, g).

(** The first candidate whose cumulated weight exceeds [target]. *)
Fixpoint pick_weighted (candidates : list (Z * Q)) (target : Q) : option Z :=
  match candidates with
  | [] => None
  | [(i, _)] => Some i
  | (i, w) :: rest =>
      if Qltb target w then Some i else pick_weighted rest (target - w)%Q
  end.

Definition candidates_of (a : nat) (p : option (list Q)) : list (Z * Q) :=
  match p with
  | Some ps => zip (map Z.of_nat (seq 0 a)) ps
  | None => map (fun i => (Z.of_nat i, 1%Q)) (seq 0 a)
  end.

Definition replay_choice1 (a : nat) (p : list Q) (g : list Q) : Result (Z * list Q) :=
  let '(u, g') := next g in
  let candidates := candidates_of a (Some p) in
  match pick_weighted candidates (u * Qsum (map snd candidates))%Q with
  | Some i => Ok (i, g')
  | None => Raise ValueError
  end.

Fixpoint replay_picks (size : nat) (replace : bool) (candidates : list (Z * Q))
    (g : list Q) : Result (list Z * list Q) :=
  match size with
  | O => Ok ([], g)
  | S size' =>
      let '(u, g') := next g in
      match pick_weighted candidates (u * Qsum (map snd candidates))%Q with
      | Some i =>
          let remaining :=
            if replace then candidates
            else filter (fun c => fst c ≠ i) candidates in
          let? '(rest, g'') := replay_picks size' replace remaining g' in
          Ok (i :: rest, g'')
      | None => Raise ValueError
      end
  end.

Definition replay_choice (a : nat) (size : Z) (replace : bool)
    (p : option (list Q)) (g : list Q) : Result (list Z * list Q) :=
  if (size <? 0)%Z then Raise ValueError
  else replay_picks (Z.to_nat size) replace (candidates_of a p) g.

#[global] Instance replay_source : RandomSource (list Q) := {|
  py_random := next;
  randint := replay_randint;
  randint_n := replay_randint_n;
  uniform := replay_uniform;
  normal := replay_normal;
  choice1 := replay_choice1;
  choice := replay_choice;
|}.

End replay.

(** ** A generator that always returns the least value

    The generator without a state whose every draw is the least value of
    the range asked for. *)

Module lowest.

Definition lowest_randint (low high : Z) (g : unit) : Result (Z * unit) :=
  if (high <=? low)%Z then Raise ValueError else Ok (low, g).

Definition lowest_randint_n (low high : Z) (size : nat) (g : unit)
  : Result (list Z * unit) :=
  if (high <=? low)%Z then Raise ValueError else Ok (repeat low size, g).

Definition lowest_normal (loc scale : Q) (shape : nat * nat * nat) (g : unit)
  : Result (list (list (list Q)) * unit) :=
  let '(T, V, C) := shape in
  Ok (repeat (repeat (repeat loc C) V) T, g).

Definition lowest_choice1 (a : nat) (p : list Q) (g : unit) : Result (Z * unit) :=
  if (a =? 0)%nat then Raise ValueError else Ok (0%Z, g).

Definition lowest_choice (a : nat) (size : Z) (replace : bool)
    (p : option (list Q)) (g : unit) : Result (list Z * unit) :=
  if (size <? 0)%Z then Raise ValueError
  else if replace then
    if ((a =? 0)%nat && (0 <? size)%Z) then Raise ValueError
    else Ok (repeat 0%Z (Z.to_nat size), g)
  else if (Z.to_nat size <=? a)%nat then Ok (map Z.of_nat (seq 0 (Z.to_nat size)), g)
  else Raise ValueError.

Definition lowest_source : RandomSource unit := {|
  py_random := fun g => (0%Q, g);
  randint := lowest_randint;
  randint_n := lowest_randint_n;
  uniform := fun low high g => (low, g);
  normal := lowest_normal;
  choice1 := lowest_choice1;
  choice := lowest_choice;
|}.

End lowest.

(** ** Vocabulary of the statements *)

(** One frame of an array of either kind. *)
Inductive frame : Type :=
| KFrame (f : kframe)
| MFrame (f : mframe).

(** Frame [t] of an array, when it has one. *)
Definition frame_at (a : ndarray) (t : nat) : option frame :=
  match a with
  | FloatArr l => KFrame <$> l !! t
  | BoolArr l => MFrame <$> l !! t
  end.

(** The subsequence of an array at the frame indices [ids], in the order
    of [ids]. *)
Definition pick_frames (ids : list Z) (a : ndarray) : ndarray :=
  match a with
  | FloatArr l => FloatArr (omap (fun i => l !! Z.to_nat i) ids)
  | BoolArr l => BoolArr (omap (fun i => l !! Z.to_nat i) ids)
  end.

(** A record all of whose arrays have [T] frames, [keypoints] among them. *)
Definition record_of_length (T : nat) (data : Arrays) : Prop :=
  is_Some (data !! "keypoints") ∧ map_Forall (fun _ a => len a = T) data.

(** The extents of the two arrays every operation must keep. *)
Definition record_shapes (data : Arrays) : option shape_t * option shape_t :=
  (shape <$> data !! "keypoints", shape <$> data !! "invalid").

(** A record with a coordinate array [keypoints] and a mask [invalid]. *)
Definition record_with_mask (data : Arrays) : Prop :=
  ∃ (kp : list kframe) (inv : list mframe),
    data !! "keypoints" = Some (FloatArr kp) ∧ data !! "invalid" = Some (BoolArr inv).

(** *** One joint over time

    [pos] holds the positions of one joint frame by frame, [bad] its
    invalid flags. *)

(** Column [k] of an array with (at least) two axes. *)
Definition joint_column {A : Type} (a : list (list A)) (k : nat) : list A :=
  omap (.!! k) a.

(** Frame [t] holds a valid sample of the joint. *)
Definition valid_frame (bad : list bool) (t : nat) : Prop := bad !! t = Some false.
(** The first and the last valid frame of the joint. *)
Definition first_valid (bad : list bool) (a : nat) : Prop :=
  valid_frame bad a ∧ ∀ u, (u < a)%nat → ¬ valid_frame bad u.
Definition last_valid (bad : list bool) (b : nat) : Prop :=
  valid_frame bad b ∧ ∀ u, (b < u)%nat → ¬ valid_frame bad u.
(** [lo] and [hi] are the valid frames next to the invalid frame [t], with
    the positions [ylo] and [yhi]. *)
Definition bracket (pos : list (list Q)) (bad : list bool) (t lo hi : nat)
    (ylo yhi : list Q) : Prop :=
  (lo < t < hi)%nat ∧ valid_frame bad lo ∧ valid_frame bad hi
  ∧ (∀ u, (lo < u < hi)%nat → bad !! u = Some true)
  ∧ pos !! lo = Some ylo ∧ pos !! hi = Some yhi.
(** Frame [t] keeps its position and its flag. *)
Definition untouched (pos : list (list Q)) (bad : list bool)
    (pos' : list (list Q)) (bad' : list bool) (t : nat) : Prop :=
  pos' !! t = pos !! t ∧ bad' !! t = bad !! t.
(** Frame [t] is marked valid and lies on the segment between its valid
    neighbours. *)
Definition interpolated (pos : list (list Q)) (bad : list bool)
    (pos' : list (list Q)) (bad' : list bool) (t : nat) : Prop :=
  bad' !! t = Some false
  ∧ ∃ (lo hi : nat) (ylo yhi : list Q),
      bracket pos bad t lo hi ylo yhi
      ∧ pos' !! t = Some (occlusion.lerp lo hi t ylo yhi).
(** What the interpolation does to one joint: nothing when no two frames
    are valid; otherwise exactly the invalid frames strictly between the
    first and the last valid frame are interpolated. *)
Definition joint_interpolated (pos : list (list Q)) (bad : list bool)
    (pos' : list (list Q)) (bad' : list bool) : Prop :=
  length pos' = length pos ∧ length bad' = length bad
  ∧ ((∀ a b, valid_frame bad a → valid_frame bad b → a = b) →
     ∀ t, untouched pos bad pos' bad' t)
  ∧ (∀ a b, first_valid bad a → last_valid bad b → (a < b)%nat →
     ∀ t, (bad !! t = Some true → (a < t < b)%nat → interpolated pos bad pos' bad' t)
          ∧ (¬ (bad !! t = Some true ∧ (a < t < b)%nat) → untouched pos bad pos' bad' t)).

(** The position [y] lies at the time [t] on the line through the
    positions [ylo] at the time [lo] and [yhi] at the time [hi]: every
    coordinate is [ylo + (yhi - ylo) * (t - lo) / (hi - lo)]. *)
Definition on_line (lo hi t : nat) (ylo yhi y : list Q) : Prop :=
  Forall2 (fun ends v =>
             (v == fst ends + (snd ends - fst ends)
                              * (inject_Z (Z.of_nat t) - inject_Z (Z.of_nat lo))
                              / (inject_Z (Z.of_nat hi) - inject_Z (Z.of_nat lo)))%Q)
          (zip ylo yhi) y.

(** Frame [t] is marked valid and its position lies on the line through
    the positions of its valid neighbours. *)
Definition interpolated_linearly (pos : list (list Q)) (bad : list bool)
    (pos' : list (list Q)) (bad' : list bool) (t : nat) : Prop :=
  bad' !! t = Some false
  ∧ ∃ (lo hi : nat) (ylo yhi y : list Q),
      bracket pos bad t lo hi ylo yhi
      ∧ pos' !! t = Some y ∧ on_line lo hi t ylo yhi y.

(** What the interpolation does to one joint, with the new positions
    given by the line formula. *)
Definition joint_interpolated_linearly (pos : list (list Q)) (bad : list bool)
    (pos' : list (list Q)) (bad' : list bool) : Prop :=
  length pos' = length pos ∧ length bad' = length bad
  ∧ ((∀ a b, valid_frame bad a → valid_frame bad b → a = b) →
     ∀ t, untouched pos bad pos' bad' t)
  ∧ (∀ a b, first_valid bad a → last_valid bad b → (a < b)%nat →
     ∀ t, (bad !! t = Some true → (a < t < b)%nat →
           interpolated_linearly pos bad pos' bad' t)
          ∧ (¬ (bad !! t = Some true ∧ (a < t < b)%nat) → untouched pos bad pos' bad' t)).


(** *** Movement scores and windows *)

(** The joints [js] of every frame. *)
Definition restrict_joints {A : Type} (js : list Z) (a : list (list A))
  : list (list A) :=
  map (fun row => omap (fun j => row !! Z.to_nat j) js) a.

(** The array the movement is computed on: restricted to [part] when one
    is given. *)
Definition considered {A : Type} (part : option (list Z)) (a : list (list A))
  : list (list A) :=
  match select.part_given part with
  | Some js => restrict_joints js a
  | None => a
  end.

(** The displacement of one joint between two consecutive frames, zeroed
    when the joint is invalid in either.  [norm] and [minus] are the norm
    and the subtraction of the arrays. *)
Definition masked_displacement (norm : list Q → Q) (minus : Q → Q → Q)
    (p0 p1 : list Q) (b0 b1 : bool) : Q :=
  if b0 || b1 then 0%Q else norm (zip_with minus p1 p0).

(** The movement score of the gap between the frames [f0] and [f1], with
    the masks [m0] and [m1]: the mean over the joints. *)
Definition gap_score (norm : list Q → Q) (minus : Q → Q → Q) (mean : list Q → Q)
    (f0 f1 : list (list Q)) (m0 m1 : list bool) : Q :=
  mean (zip_with (fun p b => masked_displacement norm minus (fst p) (snd p) (fst b) (snd b))
                 (zip f0 f1) (zip m0 m1)).

(** The scores of the gaps [j], ..., [j + s - 1]: the last of them is the
    gap between the frames [j + s - 1] and [j + s]. *)
Definition window (scores : list Q) (s j : nat) : list Q :=
  take s (drop j scores).

(** The scores of the gaps between the [s] frames [j], ..., [j + s - 1]:
    the gaps [j], ..., [j + s - 2]. *)
Definition gaps_inside (scores : list Q) (s j : nat) : list Q :=
  take (s - 1) (drop j scores).

(** *** Bounding boxes *)

(** The point lies on or inside the box with the corners [bottom_left]
    and [top_right]. *)
Definition inside_box (point bottom_left top_right : coords) : Prop :=
  Forall2 Qle bottom_left point ∧ Forall2 Qle point top_right.

(** *** Shapes *)

(** The record holds [keypoints] of shape (T, V, C) and [invalid] of shape
    (T, V).  An array without frames holds no extents of its joints, one
    without joints none of its coordinates: the shape fixes [V] when
    [T >= 1], and [C] when moreover [V >= 1]. *)
Definition has_shape (T V C : nat) (data : Arrays) : Prop :=
  record_shapes data
  = (Some (FloatShape (repeat (repeat C V) T)), Some (BoolShape (repeat V T))).

(** An effect function, and a callable, that return a record of the shape
    of the record they receive. *)
Definition effect_keeps_shape {G : Type} (apply : Arrays → M G Arrays) : Prop :=
  ∀ (T V C : nat) (data data' : Arrays) (g g' : G),
    has_shape T V C data → apply data g = Ok (data', g') → has_shape T V C data'.

Definition keeps_shape {G : Type} (call : Callable G) : Prop :=
  ∀ (T V C : nat) (kw kw' : Kwargs) (g g' : G),
    has_shape T V C (kw_data kw) → call kw g = Ok (kw', g') →
    has_shape T V C (kw_data kw').

(** *** The operations of the library

    The transforms of the three transform modules. *)
Section system.
Context {G : Type} `{RandomSource G}.
(** [np.cos] and [np.sin] *)
Variables cos sin : Q → Q.

Inductive system_transform : transform.BaseTransform G → Prop :=
| sys_HorizontalFlip (flip_axis : Q) (always_apply : bool) (p : Q) :
    system_transform (transform.HorizontalFlip flip_axis always_apply p)
| sys_RandomOcclusion (chance : Q + list Q) (always_apply : bool) (p : Q) :
    system_transform (occlusion.RandomOcclusion chance always_apply p)
| sys_WholeOcclusion (always_apply : bool) (p : Q) :
    system_transform (occlusion.WholeOcclusion always_apply p)
| sys_SpecificOcclusion (joints : list Z) (always_apply : bool) (p : Q) :
    system_transform (occlusion.SpecificOcclusion joints always_apply p)
| sys_InterpolateOcclusions (always_apply : bool) (p : Q) :
    system_transform (occlusion.InterpolateOcclusions always_apply p)
| sys_Jittering (self : perturbation.Jittering) :
    system_transform (perturbation.Jittering_transform cos sin self)
| sys_MovePerturbation (variance : Q) (joints : option (list Z))
    (always_apply : bool) (p : Q) :
    system_transform (perturbation.MovePerturbation variance joints always_apply p)
| sys_SwapPerturbation (fuel : nat) (always_apply : bool) (p : Q) :
    system_transform (perturbation.SwapPerturbation fuel always_apply p)
| sys_MirrorPerturbation (opposite_points : list (Z * Z)) (always_apply : bool) (p : Q) :
    system_transform (perturbation.MirrorPerturbation opposite_points always_apply p).

(** The operations: the transforms, the selections (any strategy and any
    children: the selected frames are written back into the arrays of the
    caller) and the combinators over operations of the library. *)
#[warnings="-register-all"]
Inductive system_operation : Operation G → Prop :=
| sys_transform (self : transform.BaseTransform G) :
    system_transform self → system_operation (transform.as_operation self)
| sys_BaseSelect (self : select.BaseSelect G) :
    system_operation (select.as_operation self)
| sys_Compose (self : compose.Compose G) :
    Forall system_operation (compose.transforms (compose.compose_base self)) →
    system_operation (compose.Compose_op self)
| sys_OneOf (self : compose.OneOf G) :
    Forall system_operation (compose.transforms (compose.oneof_base self)) →
    system_operation (compose.OneOf_op self)
| sys_SomeOf (self : compose.SomeOf G) :
    Forall system_operation (compose.transforms (compose.someof_base self)) →
    system_operation (compose.SomeOf_op self)
| sys_OneOrOther (self : compose.BaseCompose G) :
    Forall system_operation (compose.transforms self) →
    system_operation (compose.OneOrOther_op self)
| sys_Sequential (self : compose.BaseCompose G) :
    Forall system_operation (compose.transforms self) →
    system_operation (compose.Sequential_op self)
| sys_NoOp (self : compose.BaseCompose G) :
    system_operation (compose.NoOp_op self).

End system.

(** What [dict_mapM f] returns for a dictionary: field by field, the
    value of [f]. *)
Definition dict_rel (f : string → ndarray → Result ndarray) (data out : Arrays) : Prop :=
  ∀ key : string,
    match data !! key with
    | Some a => ∃ b, f key a = Ok b ∧ out !! key = Some b
    | None => out !! key = None
    end.

(** *** Joints named by a list of indices *)

(** Joint [v] of [V] is denoted by one of the indices [joints] (a negative
    index counts from the last joint). *)
Definition denoted (V : nat) (joints : list Z) (v : nat) : bool :=
  existsb (fun j => match normalize_index V j with
                    | Ok i => (i =? v)%nat
                    | Raise _ => false
                    end) joints.

(** *** Exchanged joints *)

(** The frame [row] with the joints at the indices [i1] and [i2]
    exchanged (a negative index counts from the last joint). *)
Definition swapped {A : Type} (i1 i2 : Z) (row : list A) : option (list A) :=
  match normalize_index (length row) i1, normalize_index (length row) i2 with
  | Ok j1, Ok j2 =>
      match row !! j1, row !! j2 with
      | Some x1, Some x2 => Some (<[j2 := x1]> (<[j1 := x2]> row))
      | _, _ => None
      end
  | _, _ => None
  end.

(** *** A frame after the jittering *)

(** What one frame looks like after the jittering.  Either the frame is as
    it was, or one joint of it was the target: an index [id] that denotes
    the joint [j] of the frame, valid in this frame, and every joint but
    [j] is as it was.  [id] is the configured joint when one is configured,
    and a frame in which the configured joint is invalid is left as it
    was. *)
Definition jittered (keypoint : option Z) (inv : list mframe) (t : nat)
    (row : kframe) (after : option kframe) : Prop :=
  ∃ row' : kframe,
    after = Some row'
    ∧ length row' = length row
    ∧ (row' = row
       ∨ ∃ (id : Z) (j : nat),
           (∀ k, perturbation.keypoint_given keypoint = Some k → id = k)
           ∧ getitem2 inv t id = Ok false
           ∧ normalize_index (length row) id = Ok j
           ∧ ∀ v, v ≠ j → row' !! v = row !! v)
    ∧ (∀ k, perturbation.keypoint_given keypoint = Some k →
            getitem2 inv t k = Ok true → row' = row).

(** *** The children of the root pipeline *)

(** The children a pipeline is constructed with. *)
Definition given_children {G : Type} (ts : compose.transforms_arg G) : list (Operation G) :=
  match ts with
  | compose.Single t => [t]
  | compose.Sequence ts => ts
  end.

(** [children_run ts kw g r]: every child of [ts] is called, one after the
    other, the first on the dictionary [kw] with the generator [g], each
    next one on what the child before it returned; [r] is what the last
    child returned, or the exception of the first child that raised. *)
Inductive children_run {G : Type}
  : list (Operation G) → Kwargs → G → Result (Kwargs * G) → Prop :=
| no_child_left (kw : Kwargs) (g : G) : children_run [] kw g (Ok (kw, g))
| child_returns (t : Operation G) (ts : list (Operation G)) (kw kw1 : Kwargs)
    (g g1 : G) (r : Result (Kwargs * G)) :
    op_call t kw g = Ok (kw1, g1) → children_run ts kw1 g1 r →
    children_run (t :: ts) kw g r
| child_raises (t : Operation G) (ts : list (Operation G)) (kw : Kwargs) (g : G)
    (e : exn) :
    op_call t kw g = Raise e → children_run (t :: ts) kw g (Raise e).

(** ** Records and operations of the worked examples *)

Module examples.
Import replay.

Definition record (keypoints : list kframe) (invalid : list mframe) : Arrays :=
  <["keypoints" := FloatArr keypoints]> (<["invalid" := BoolArr invalid]> ∅).

Definition ones (T V C : nat) : list kframe := repeat (repeat (repeat 1%Q C) V) T.
Definition all_valid (T V : nat) : list mframe := repeat (repeat false V) T.

(** The mock transform of the test of [SelectFrames]: it marks frame 1 of
    what it receives invalid and sets its keypoints to 11. *)
Definition mock_transform : Operation (list Q) :=
  mkOperation 1
    (fun kw =>
       let data := kw_data kw in
       let* kp := lift (get_keypoints data) in
       let* inv := lift (get_invalid data) in
       let kp := alter (map (map (fun _ => 11%Q))) 1%nat kp in
       let inv := alter (map (fun _ => true)) 1%nat inv in
       ret (mkKwargs (kw_force kw)
              (<["invalid" := BoolArr inv]> (<["keypoints" := FloatArr kp]> data)))).

Definition whole_occlusion : Operation (list Q) :=
  transform.as_operation (occlusion.WholeOcclusion false 1).

(** [Sequential([WholeOcclusion()], p=0)] *)
Definition never_sequential : compose.BaseCompose (list Q) :=
  compose.mkBaseCompose [whole_occlusion] 0.

(** The record of the test of [SelectFrames], with 7 frames of 2 joints. *)
Definition base_select_data : Arrays := record (ones 7 2 2) (all_valid 7 2).

(** What [mock_transform] returns for frames 2, 4 and 6 of that record. *)
Definition base_select_out : Kwargs :=
  mkKwargs None
    (record [[[1; 1]; [1; 1]]; [[11; 11]; [11; 11]]; [[1; 1]; [1; 1]]]%Q
            [[false; false]; [true; true]; [false; false]]).

(** [Compose([SpecificOcclusion([0])], set_invalid_to_zero=True)] and a
    record of 2 frames it runs on. *)
Definition occlude_first : Operation (list Q) :=
  transform.as_operation (occlusion.SpecificOcclusion [0%Z] false 1).
Definition zeroing_pipeline : compose.Compose (list Q) :=
  compose.Compose_init (compose.Sequence [occlude_first]) 1 true.
Definition small_data : Arrays := record (ones 2 2 2) (all_valid 2 2).
Definition small_checked : Arrays :=
  <["peturbation" := BoolArr (all_valid 2 2)]> small_data.
Definition small_occluded : Kwargs :=
  mkKwargs None (<["invalid" := BoolArr [[true; false]; [true; false]]]> small_checked).

(** [Compose([SpecificOcclusion([0]), SpecificOcclusion([1])], p=0,
    set_invalid_to_zero=False)] *)
Definition occlude_second : Operation (list Q) :=
  transform.as_operation (occlusion.SpecificOcclusion [1%Z] false 1).
Definition improbable_pipeline : compose.Compose (list Q) :=
  compose.Compose_init (compose.Sequence [occlude_first; occlude_second]) 0 false.

(** A child of weight zero. *)
Definition zero_weight : Operation (list Q) :=
  transform.as_operation (occlusion.WholeOcclusion false 0).

(** One joint, valid at frames 0 and 10 only, with the values 0 and 10,
    over 13 frames. *)
Definition gap_keypoints : list kframe :=
  map (fun t => [[if (t =? 0)%nat then 0%Q
                  else if (t =? 10)%nat then 10%Q else (-1)%Q]]) (seq 0 13).
Definition gap_invalid : list mframe :=
  map (fun t => [negb ((t =? 0)%nat || (t =? 10)%nat)]) (seq 0 13).
Definition gap_data : Arrays := record gap_keypoints gap_invalid.

(** The norm of the worked examples: on a single coordinate the Euclidean
    norm is the absolute value. *)
Definition abs_norm (c : list Q) : Q := Qsum (map Qabs c).

(** The contiguous search does not sort; the examples leave the scores in
    place. *)
Definition identity_argsort (l : list Q) : list Z := map Z.of_nat (seq 0 (length l)).

(** One joint with one coordinate over 5 frames, moving at frame 3 only. *)
Definition spike_keypoints : list kframe := [[[1]]; [[1]]; [[1]]; [[3]]; [[1]]]%Q.
Definition spike_data : Arrays := record spike_keypoints (all_valid 5 1).

(** [SelectHighMovement([], min_num=1, max_num=1)], its size drawn as 1. *)
Definition spike_select : select.SelectHighMovement (list Q) :=
  select.mkSelectHighMovement [] 1 1 None true.

(** One joint with one coordinate over 3 frames, moving between the last
    two frames only, and [SelectHighMovement([], min_num=2, max_num=2)],
    its size drawn as 2. *)
Definition last_gap_keypoints : list kframe := [[[0]]; [[0]]; [[10]]]%Q.
Definition last_gap_data : Arrays := record last_gap_keypoints (all_valid 3 1).
Definition last_gap_select : select.SelectHighMovement (list Q) :=
  select.mkSelectHighMovement [] 1 2 None true.

(** [np.deg2rad] with 355/113 for pi, and the polynomials that stand for
    [np.cos] and [np.sin] in the examples: they are exact at the angle 0,
    the only one the examples evaluate them at. *)
Definition deg2rad (d : Q) : Q := Qred (d * (355 # 113) / 180).
Definition cos_poly (r : Q) : Q := Qred (1 - r * r / 2).
Definition sin_poly (r : Q) : Q := Qred r.

(** One frame with the joints (0, 0) and (1, 1), both valid: its bounding
    box is the unit square. *)
Definition corner_frame : kframe := [[0; 0]; [1; 1]]%Q.
Definition corner_data : Arrays := record [corner_frame] (all_valid 1 2).

(** [Jittering(angles=(0, 0), distance=(-2, -2), keypoint=1)] *)
Definition backward_jittering : perturbation.Jittering :=
  perturbation.mkJittering (0, 0)%Q (-2, -2)%Q (Some 1%Z) false 1.

(** [Compose([OneOf([WholeOcclusion(), InterpolateOcclusions()]),
              SelectFrames([HorizontalFlip(1)], [1]),
              Sequential([MirrorPerturbation([(0, 1)]), Jittering()])])] *)
Definition flip : Operation (list Q) :=
  transform.as_operation (transform.HorizontalFlip 1 false 1).
Definition shape_choice : compose.OneOf (list Q) :=
  compose.mkOneOf
    (compose.mkBaseCompose
       [whole_occlusion; transform.as_operation (occlusion.InterpolateOcclusions false 1)] 1)
    [1 # 2; 1 # 2]%Q.
Definition shape_sequence : compose.BaseCompose (list Q) :=
  compose.mkBaseCompose
    [transform.as_operation (perturbation.MirrorPerturbation [(0, 1)%Z] false 1);
     transform.as_operation
       (perturbation.Jittering_transform cos_poly sin_poly
          (perturbation.mkJittering (0, 0)%Q (0, 1)%Q None false 1))] 1.
Definition shape_pipeline : compose.Compose (list Q) :=
  compose.Compose_init
    (compose.Sequence
       [compose.OneOf_op shape_choice;
        select.as_operation (select.SelectFrames [flip] [1%Z] 1);
        compose.Sequential_op shape_sequence]) 1 true.

(** [SwapPerturbation()], on the tape and on the generator of the least
    values; [Jittering(distance=(0, 1))]; a record of one joint and a record
    with three coordinates. *)
Definition swap : Operation (list Q) :=
  transform.as_operation (perturbation.SwapPerturbation 3 false 1).
Definition lowest_swap (fuel : nat) : Operation unit :=
  @transform.as_operation unit lowest.lowest_source
    (@perturbation.SwapPerturbation unit lowest.lowest_source fuel false 1).
Definition drawn_jittering : perturbation.Jittering :=
  perturbation.mkJittering (0, 0)%Q (0, 1)%Q None false 1.
Definition plane_jittering : Operation (list Q) :=
  transform.as_operation
    (perturbation.Jittering_transform cos_poly sin_poly drawn_jittering).
Definition single_joint_data : Arrays := record (ones 2 1 2) (all_valid 2 1).
Definition three_joints_data : Arrays :=
  record [[[0; 0]; [1; 1]; [2; 0]]]%Q (all_valid 1 3).
Definition spatial_data : Arrays := record (ones 2 2 3) (all_valid 2 2).

(** A record with coordinates only, and one with joint 0 of frame 0
    invalid. *)
Definition keypoints_only : Arrays := <["keypoints" := FloatArr (ones 2 2 2)]> ∅.
Definition half_data : Arrays := record (ones 2 2 2) [[true; false]; [false; false]].

(** [NoOp()], [SomeOf([NoOp(), NoOp()], n=2)] and [OneOf([NoOp()])] *)
Definition noop : Operation (list Q) := compose.NoOp_op (compose.NoOp_init 1).
Definition two_noops : compose.SomeOf (list Q) :=
  compose.mkSomeOf (compose.mkBaseCompose [noop; noop] 1) 2 true [1 # 2; 1 # 2]%Q.
Definition noop_choice : compose.OneOf (list Q) :=
  compose.mkOneOf (compose.mkBaseCompose [noop] 1) [1%Q].

(** [WholeOcclusion(p=0)], [Compose([])] and
    [Compose([WholeOcclusion(always_apply=True, p=0)])] *)
Definition never_occlude : transform.BaseTransform (list Q) :=
  occlusion.WholeOcclusion false 0.
Definition empty_pipeline : compose.Compose (list Q) :=
  compose.Compose_init (compose.Sequence []) 1 true.
Definition occluding_pipeline : compose.Compose (list Q) :=
  compose.Compose_init
    (compose.Sequence [transform.as_operation (occlusion.WholeOcclusion true 0)]) 1 true.

(** [SelectHighMovement([], min_num=7, max_num=7)], its size drawn as 7. *)
Definition long_window : select.SelectHighMovement (list Q) :=
  select.mkSelectHighMovement [] 1 7 None true.

(** The frame of [corner_data] with its two joints exchanged. *)
Definition corner_swapped : Arrays := record [[[1; 1]; [0; 0]]]%Q (all_valid 1 2).

End examples.

(** * Properties *)

(** ** Basic facts about the Python-level helpers *)

Lemma Qltb_lt (x y : Q) : Qltb x y = true ↔ (x < y)%Q.
Proof.
  unfold Qltb. rewrite negb_true_iff. split.
  - intros Hle. apply Qnot_le_lt. intros Hyx.
    apply Qle_bool_iff in Hyx. congruence.
  - intros Hlt. destruct (Qle_bool y x) eqn:E; [|reflexivity].
    apply Qle_bool_iff in E. exfalso. apply (Qlt_not_le _ _ Hlt E).
Qed.

Lemma Qltb_ge (x y : Q) : Qltb x y = false ↔ (y <= x)%Q.
Proof.
  unfold Qltb. rewrite negb_false_iff. apply Qle_bool_iff.
Qed.

Lemma rbind_Ok {A B : Type} (r : Result A) (k : A → Result B) (b : B) :
  rbind r k = Ok b ↔ ∃ a, r = Ok a ∧ k a = Ok b.
Proof.
  destruct r as [a|e]; simpl; split.
  - intros Hk. exists a. split; [reflexivity|exact Hk].
  - intros (a' & Ha & Hk). inversion Ha. subst. exact Hk.
  - intros Hk. discriminate.
  - intros (a' & Ha & _). discriminate.
Qed.

Lemma bind_Ok {G A B : Type} (m : M G A) (k : A → M G B) (g g2 : G) (b : B) :
  bind m k g = Ok (b, g2) ↔ ∃ a g1, m g = Ok (a, g1) ∧ k a g1 = Ok (b, g2).
Proof.
  unfold bind. destruct (m g) as [[a g1]|e]; split.
  - intros Hk. exists a, g1. split; [reflexivity|exact Hk].
  - intros (a' & g1' & Ha & Hk). inversion Ha. subst. exact Hk.
  - intros Hk. discriminate.
  - intros (a' & g1' & Ha & _). discriminate.
Qed.

Lemma lift_Ok {G A : Type} (r : Result A) (g g' : G) (a : A) :
  lift r g = Ok (a, g') ↔ r = Ok a ∧ g' = g.
Proof.
  unfold lift. destruct r as [a0|e]; split.
  - intros Heq. inversion Heq. split; reflexivity.
  - intros [Ha Hg]. inversion Ha. subst. reflexivity.
  - intros Heq. discriminate.
  - intros [Ha _]. discriminate.
Qed.

Lemma ret_Ok {G A : Type} (a b : A) (g g' : G) :
  ret a g = Ok (b, g') ↔ b = a ∧ g' = g.
Proof.
  unfold ret. split.
  - intros Heq. inversion Heq. split; reflexivity.
  - intros [-> ->]. reflexivity.
Qed.

(** ** transform.py: the probability gate of a transform *)

Section transform_properties.
Context {G : Type} `{RandomSource G}.

(** C3.  One call of a transform draws exactly one uniform value [u] from
    the generator.  When [force_apply] is true, or [always_apply] is true,
    or [u < p], the call is the effect function run on the record, started
    on the generator as that single draw left it; in every other case the
    record is returned unmodified, the generator advanced by that single
    draw. *)
Theorem C3_transform_call_contract (t : transform.BaseTransform G)
    (force_apply : bool) (data : Arrays) (g : G) :
  let u := fst (py_random g) in
  let g' := snd (py_random g) in
  (force_apply = true ∨ transform.always_apply t = true ∨ (u < transform.p t)%Q →
   transform.call t force_apply data g = transform.apply t data g')
  ∧ (force_apply = false ∧ transform.always_apply t = false
     ∧ ¬ (u < transform.p t)%Q →
     transform.call t force_apply data g = Ok (data, g')).
Proof.
  intros u g'. unfold transform.call, bind, draw, ret.
  subst u g'. destruct (py_random g) as [u g'] eqn:Hdraw. simpl.
  split.
  - intros [Hf | [Ha | Hu]].
    + subst. rewrite orb_true_r. reflexivity.
    + rewrite Ha. rewrite orb_true_r. reflexivity.
    + apply Qltb_lt in Hu. rewrite Hu. reflexivity.
  - intros (Hf & Ha & Hu). subst. rewrite Ha.
    destruct (Qltb u (transform.p t)) eqn:E.
    + apply Qltb_lt in E. contradiction.
    + reflexivity.
Qed.

End transform_properties.

(** ** compose.py: the root pipeline *)

Lemma zero_joint_length (c : coords) (b : bool) :
  length (compose.zero_joint c b) = length c.
Proof.
  destruct b; simpl; [apply length_map|reflexivity].
Qed.

Lemma zero_frame_shape (f : kframe) (m : mframe) :
  length m = length f →
  kframe_shape (compose.zero_frame f m) = kframe_shape f.
Proof.
  revert m. induction f as [|c f IH]; intros [|b m] Hlen; simpl in *;
    try reflexivity; try discriminate.
  unfold kframe_shape in *. simpl. rewrite zero_joint_length.
  f_equal. apply IH. lia.
Qed.

Lemma zero_frames_shape (kp : list kframe) (inv : list mframe) :
  map mframe_shape inv = compose.mask_shape_of kp →
  map kframe_shape (zip_with compose.zero_frame kp inv) = map kframe_shape kp.
Proof.
  revert inv. induction kp as [|f kp IH]; intros [|m inv] Hshape; simpl in *;
    try reflexivity; try discriminate.
  inversion Hshape as [[Hm Hrest]].
  rewrite zero_frame_shape by exact Hm.
  f_equal. apply IH. exact Hrest.
Qed.

Lemma zero_frame_lookup (f : kframe) (m : mframe) (v : nat) (joint : coords) (b : bool) :
  f !! v = Some joint → m !! v = Some b →
  compose.zero_frame f m !! v = Some (compose.zero_joint joint b).
Proof.
  intros Hf Hm. unfold compose.zero_frame.
  rewrite lookup_zip_with, Hf. simpl. rewrite Hm. reflexivity.
Qed.

Lemma zero_frames_lookup (kp : list kframe) (inv : list mframe) (t v : nat)
    (joint : coords) (b : bool) :
  kp !! t ≫= (.!! v) = Some joint →
  inv !! t ≫= (.!! v) = Some b →
  zip_with compose.zero_frame kp inv !! t ≫= (.!! v)
  = Some (compose.zero_joint joint b).
Proof.
  intros Hkp Hinv. rewrite lookup_zip_with.
  destruct (kp !! t) as [f|] eqn:Hf; simpl in *; [|discriminate].
  destruct (inv !! t) as [m|] eqn:Hm; simpl in *; [|discriminate].
  apply zero_frame_lookup; assumption.
Qed.

Lemma run_all_children_run {G : Type} (ts : list (Operation G)) :
  ∀ (kw : Kwargs) (g : G), children_run ts kw g (run_all ts kw g).
Proof.
  induction ts as [|t ts IH]; intros kw g.
  - apply no_child_left.
  - cbn [run_all]. unfold bind, call_star.
    destruct (op_call t kw g) as [[kw1 g1]|e] eqn:Hcall.
    + apply (child_returns t ts kw kw1 g g1); [exact Hcall|apply IH].
    + apply child_raises. exact Hcall.
Qed.

Section compose_properties.
Context {G : Type} `{RandomSource G}.

(** C4.  With [set_invalid_to_zero] on, and a record coming out of the
    children whose mask has the extents of its keypoints, the root pipeline
    returns that record with the keypoints replaced: wherever
    [invalid[t, v]] is true every coordinate of joint [v] at frame [t] is
    zero, everywhere else the joint is the one the children returned. *)
Theorem C4_invalid_keypoints_zeroed (c : compose.Compose G)
    (force_apply : bool) (data d0 : Arrays) (out : Kwargs) (g g' : G)
    (kp : list kframe) (inv : list mframe) :
  compose.set_invalid_to_zero c = true →
  compose.check_args data = Ok d0 →
  run_all (compose.transforms (compose.compose_base c)) (plain d0) g = Ok (out, g') →
  kw_data out !! "keypoints" = Some (FloatArr kp) →
  kw_data out !! "invalid" = Some (BoolArr inv) →
  map mframe_shape inv = compose.mask_shape_of kp →
  ∃ kp' : list kframe,
    compose.Compose_call c [] force_apply data g
    = Ok (mkKwargs (kw_force out) (<["keypoints" := FloatArr kp']> (kw_data out)), g')
    ∧ shape (FloatArr kp') = shape (FloatArr kp)
    ∧ ∀ (t v : nat) (joint : coords) (b : bool),
        kp !! t ≫= (.!! v) = Some joint →
        inv !! t ≫= (.!! v) = Some b →
        kp' !! t ≫= (.!! v)
        = Some (if b then map (fun _ => 0%Q) joint else joint).
Proof.
  intros Hflag Hcheck Hrun Hkp Hinv Hshape.
  exists (zip_with compose.zero_frame kp inv). split; [|split].
  - unfold compose.Compose_call, bind, lift. rewrite Hcheck, Hrun, Hflag.
    unfold compose.finalize, getitem. rewrite Hkp, Hinv. simpl.
    rewrite bool_decide_eq_true_2 by exact Hshape. reflexivity.
  - simpl. f_equal. apply zero_frames_shape. exact Hshape.
  - intros t v joint b Hj Hb.
    rewrite (zero_frames_lookup kp inv t v joint b Hj Hb).
    destruct b; reflexivity.
Qed.

(** C10.  The call of the root pipeline does not depend on the probability
    stored at construction: two pipelines that differ in [p] only behave
    alike.  Whatever [p] is, once the arguments are checked every child
    given at construction is called, one after the other, each on the
    dictionary and with the generator the child before it left, the first
    on the checked record and the generator untouched; the pipeline
    returns what the last child returned, after the optional zeroing, or
    raises what the first failing child raised. *)
Theorem C10_root_pipeline_never_consults_p (ts : compose.transforms_arg G)
    (p q : Q) (zero : bool) (args : list ndarray) (force_apply : bool)
    (data : Arrays) (g : G) :
  compose.Compose_call (compose.Compose_init ts p zero) args force_apply data g
  = compose.Compose_call (compose.Compose_init ts q zero) args force_apply data g
  ∧ ∀ d0 : Arrays,
      compose.check_args data = Ok d0 →
      ∃ r : Result (Kwargs * G),
        children_run (given_children ts) (plain d0) g r
        ∧ compose.Compose_call (compose.Compose_init ts p zero) [] force_apply data g
          = match r with
            | Ok (out, g') =>
                if zero then lift (compose.finalize out) g' else Ok (out, g')
            | Raise e => Raise e
            end.
Proof.
  split.
  - destruct ts; reflexivity.
  - intros d0 Hcheck.
    exists (run_all (given_children ts) (plain d0) g). split.
    + apply run_all_children_run.
    + unfold compose.Compose_call, bind at 1, lift at 1. rewrite Hcheck.
      assert (Hts : compose.transforms
                      (compose.compose_base (compose.Compose_init ts p zero))
                    = given_children ts) by (destruct ts; reflexivity).
      rewrite Hts. unfold bind.
      destruct (run_all (given_children ts) (plain d0) g) as [[out g']|e];
        [|reflexivity].
      cbn [compose.set_invalid_to_zero compose.Compose_init].
      destruct zero; reflexivity.
Qed.

End compose_properties.

(** ** compose.py: weighted picks *)

Lemma rmapM_raise_head {A B : Type} (f : A → Result B) (x : A) (l : list A) (e : exn) :
  f x = Raise e → rmapM f (x :: l) = Raise e.
Proof.
  intros Hfx. simpl. rewrite Hfx. reflexivity.
Qed.

Lemma normalize_zero_sum (ps : list Q) :
  ps ≠ [] → (Qsum ps == 0)%Q → compose.normalize ps = Raise ZeroDivisionError.
Proof.
  intros Hne Hsum. unfold compose.normalize.
  destruct ps as [|w ws]; [contradiction|].
  apply rmapM_raise_head. unfold compose.py_div.
  apply Qeq_bool_iff in Hsum. rewrite Hsum. reflexivity.
Qed.

Lemma normalize_nil : compose.normalize [] = Ok [].
Proof. reflexivity. Qed.

Section weighted_pick_properties.
Context {G : Type} `{RandomSource G}.

(** C7, as amended.  A weighted-pick combinator (single or multi) given at
    least one child, the weights of its children summing to zero, is
    rejected by its constructor with a division error. *)
Theorem C7_zero_weights_rejected_at_construction (ts : compose.transforms_arg G)
    (p : Q) (n : Z) (replace : bool) :
  compose.transforms (compose.BaseCompose_init ts p) ≠ [] →
  (Qsum (map op_p (compose.transforms (compose.BaseCompose_init ts p))) == 0)%Q →
  compose.OneOf_init ts p = Raise ZeroDivisionError
  ∧ compose.SomeOf_init ts n replace p = Raise ZeroDivisionError.
Proof.
  intros Hne Hsum.
  assert (Hnorm : compose.normalize
                    (map op_p (compose.transforms (compose.BaseCompose_init ts p)))
                  = Raise ZeroDivisionError).
  { apply normalize_zero_sum; [|exact Hsum].
    intros Hnil. apply Hne. apply map_eq_nil in Hnil. exact Hnil. }
  unfold compose.OneOf_init, compose.SomeOf_init.
  rewrite Hnorm. split; reflexivity.
Qed.

(** A pick combinator without weights (no child) passes the record on
    without drawing. *)
Lemma OneOf_call_no_child (base : compose.BaseCompose G) (force_apply : bool)
    (data : Arrays) (g : G) :
  compose.OneOf_call (compose.mkOneOf base []) force_apply data g = Ok (plain data, g).
Proof. reflexivity. Qed.

Lemma SomeOf_call_no_child (base : compose.BaseCompose G) (n : Z) (replace : bool)
    (force_apply : bool) (data : Arrays) (g : G) :
  compose.SomeOf_call (compose.mkSomeOf base n replace []) force_apply data g
  = Ok (plain data, g).
Proof. reflexivity. Qed.

End weighted_pick_properties.

(** ** select.py: extraction and scatter-back *)

Lemma normalize_index_in_range (n : nat) (i : Z) :
  (0 ≤ i < Z.of_nat n)%Z → normalize_index n i = Ok (Z.to_nat i).
Proof.
  intros [Hlo Hhi]. unfold normalize_index.
  destruct (Z.leb_spec 0 i); [|lia].
  destruct (Z.ltb_spec i (Z.of_nat n)); [|lia].
  reflexivity.
Qed.

Lemma py_index_in_range {A : Type} (l : list A) (i : Z) :
  (0 ≤ i < Z.of_nat (length l))%Z →
  ∃ x, l !! Z.to_nat i = Some x ∧ py_index l i = Ok x.
Proof.
  intros Hi. unfold py_index. rewrite normalize_index_in_range by exact Hi. simpl.
  destruct (lookup_lt_is_Some_2 l (Z.to_nat i)) as [x Hx]; [lia|].
  exists x. rewrite Hx. split; reflexivity.
Qed.

Lemma fancy_get_in_range {A : Type} (l : list A) (ids : list Z) :
  Forall (fun i => (0 ≤ i < Z.of_nat (length l))%Z) ids →
  fancy_get l ids = Ok (omap (fun i => l !! Z.to_nat i) ids).
Proof.
  unfold fancy_get. induction 1 as [|i ids Hi _ IH]; [reflexivity|].
  simpl. destruct (py_index_in_range l i Hi) as (x & Hx & Hpy).
  rewrite Hpy, Hx. simpl. rewrite IH. reflexivity.
Qed.

Section assign.
Context {A Sh : Type} `{EqDecision Sh} (sh : A → Sh).

Lemma assign_rows_spec (l0 : list A) (writes : list (Z * A)) :
  Forall (fun w => (0 ≤ fst w < Z.of_nat (length l0))%Z
                   ∧ sh <$> l0 !! Z.to_nat (fst w) = Some (sh (snd w))) writes →
  ∀ l : list A,
    map sh l = map sh l0 →
    ∃ l' : list A,
      assign_rows (fun x y => bool_decide (sh x = sh y)) l writes = Ok l'
      ∧ map sh l' = map sh l0
      ∧ (∀ t : nat, (∀ w, w ∈ writes → fst w ≠ Z.of_nat t) → l' !! t = l !! t)
      ∧ (∀ (j : nat) (w : Z * A),
           writes !! j = Some w →
           (∀ (j' : nat) (w' : Z * A), (j < j')%nat → writes !! j' = Some w' → fst w' ≠ fst w) →
           l' !! Z.to_nat (fst w) = Some (snd w)).
Proof.
  induction 1 as [|[i x] writes [Hi Hsh] _ IH]; intros l Hl.
  - exists l. split; [reflexivity|]. split; [exact Hl|]. split; [reflexivity|].
    intros j w Hw. rewrite lookup_nil in Hw. discriminate.
  - simpl in Hi, Hsh.
    assert (Hlen : length l = length l0).
    { rewrite <- (length_map sh l), Hl. apply length_map. }
    simpl. rewrite Hlen, normalize_index_in_range by exact Hi. simpl.
    destruct (lookup_lt_is_Some_2 l (Z.to_nat i)) as [old Hold]; [lia|].
    rewrite Hold.
    assert (Hold_sh : sh old = sh x).
    { assert (Hm : map sh l !! Z.to_nat i = Some (sh old)).
      { rewrite list_lookup_fmap, Hold. reflexivity. }
      rewrite Hl, list_lookup_fmap, Hsh in Hm. congruence. }
    rewrite bool_decide_eq_true_2 by exact Hold_sh.
    destruct (IH (<[Z.to_nat i := x]> l)) as (l' & Hrun & Hshape & Hother & Hlast).
    { rewrite <- Hl. rewrite list_fmap_insert. rewrite <- Hold_sh.
      apply list_insert_id. rewrite list_lookup_fmap, Hold. reflexivity. }
    exists l'. split; [exact Hrun|]. split; [exact Hshape|]. split.
    + intros t Ht. rewrite Hother.
      * apply list_lookup_insert_ne. intros Heq.
        apply (Ht (i, x)); [left|]. simpl. lia.
      * intros w Hw. apply Ht. right. exact Hw.
    + intros j w Hj Hlater. destruct j as [|j].
      * simpl in Hj. inversion Hj. subst w. simpl.
        rewrite Hother.
        -- apply list_lookup_insert_eq. lia.
        -- intros w' Hw' Heq. apply list_elem_of_lookup in Hw' as [j' Hj'].
           apply (Hlater (S j') w'); [lia|exact Hj'|].
           simpl. lia.
      * simpl in Hj. apply (Hlast j w Hj).
        intros j' w' Hlt Hj'. apply (Hlater (S j') w'); [lia|exact Hj'].
Qed.
End assign.



Lemma dict_mapM_cases (f : string → ndarray → Result ndarray) (data : Arrays) :
  match dict_mapM f data with
  | Ok out => dict_rel f data out
  | Raise e => ∃ key a, data !! key = Some a ∧ f key a = Raise e
  end.
Proof.
  unfold dict_mapM.
  apply (map_fold_weak_ind
           (fun (r : Result Arrays) (m : Arrays) =>
              match r with
              | Ok out => dict_rel f m out
              | Raise e => ∃ key a, m !! key = Some a ∧ f key a = Raise e
              end)).
  - intros key. rewrite !lookup_empty. reflexivity.
  - intros key a m r Hfresh IH. destruct r as [out|e]; simpl.
    + destruct (f key a) as [b|e] eqn:Hf; simpl.
      * intros key'. destruct (decide (key = key')) as [<-|Hne].
        -- rewrite !lookup_insert_eq. exists b. split; [exact Hf|reflexivity].
        -- rewrite !lookup_insert_ne by exact Hne. apply IH.
      * exists key, a. rewrite lookup_insert_eq. split; [reflexivity|exact Hf].
    + destruct IH as (key' & a' & Hk & Hf). exists key', a'. split; [|exact Hf].
      rewrite lookup_insert_ne; [exact Hk|]. intros ->. congruence.
Qed.

Lemma dict_mapM_Ok (f : string → ndarray → Result ndarray) (data out : Arrays) :
  dict_mapM f data = Ok out → dict_rel f data out.
Proof.
  intros Hrun. pose proof (dict_mapM_cases f data) as Hc. rewrite Hrun in Hc. exact Hc.
Qed.

Lemma dict_mapM_total (f : string → ndarray → Result ndarray) (data : Arrays) :
  (∀ key a, data !! key = Some a → ∃ b, f key a = Ok b) →
  ∃ out, dict_mapM f data = Ok out ∧ dict_rel f data out.
Proof.
  intros Hall. pose proof (dict_mapM_cases f data) as Hc.
  destruct (dict_mapM f data) as [out|e].
  - exists out. split; [reflexivity|exact Hc].
  - destruct Hc as (key & a & Hk & Hf). destruct (Hall key a Hk) as [b Hb]. congruence.
Qed.

Lemma dict_mapM_fmap (f : string → ndarray → Result ndarray) (h : ndarray → ndarray)
    (data : Arrays) :
  (∀ key a, data !! key = Some a → f key a = Ok (h a)) →
  dict_mapM f data = Ok (h <$> data).
Proof.
  intros Hall. destruct (dict_mapM_total f data) as (out & Hrun & Hrel).
  { intros key a Hk. exists (h a). apply Hall. exact Hk. }
  rewrite Hrun. f_equal. apply map_eq. intros key. rewrite lookup_fmap.
  specialize (Hrel key). destruct (data !! key) as [a|] eqn:Hk; simpl.
  - destruct Hrel as (b & Hb & Hout). rewrite (Hall key a Hk) in Hb. congruence.
  - exact Hrel.
Qed.


Lemma omap_total_lookup {A B : Type} (f : A → option B) (l : list A) (j : nat) :
  Forall (fun x => is_Some (f x)) l → omap f l !! j = l !! j ≫= f.
Proof.
  intros Hall. revert j. induction Hall as [|x l [y Hy] _ IH]; intros j.
  - reflexivity.
  - simpl. rewrite Hy. destruct j as [|j]; simpl.
    + rewrite Hy. reflexivity.
    + apply IH.
Qed.

Lemma omap_total_length {A B : Type} (f : A → option B) (l : list A) :
  Forall (fun x => is_Some (f x)) l → length (omap f l) = length l.
Proof.
  induction 1 as [|x l [y Hy] _ IH]; [reflexivity|].
  simpl. rewrite Hy. simpl. f_equal. exact IH.
Qed.

Lemma in_range_lookups {A : Type} (l : list A) (ids : list Z) :
  Forall (fun i => (0 ≤ i < Z.of_nat (length l))%Z) ids →
  Forall (fun i => is_Some (l !! Z.to_nat i)) ids.
Proof.
  intros Hrange. eapply Forall_impl; [exact Hrange|].
  intros i Hi. simpl in Hi. apply lookup_lt_is_Some_2. lia.
Qed.

Section fancy_set.
Context {A Sh : Type} `{EqDecision Sh} (sh : A → Sh).

Lemma fancy_set_spec (l : list A) (ids : list Z) (src : list A) :
  Forall (fun i => (0 ≤ i < Z.of_nat (length l))%Z) ids →
  map sh src = map sh (omap (fun i => l !! Z.to_nat i) ids) →
  ∃ l' : list A,
    fancy_set (fun x y => bool_decide (sh x = sh y)) l ids src = Ok l'
    ∧ map sh l' = map sh l
    ∧ (∀ t : nat, Z.of_nat t ∉ ids → l' !! t = l !! t)
    ∧ (∀ (j : nat) (i : Z),
         ids !! j = Some i →
         (∀ j' : nat, (j < j')%nat → ids !! j' ≠ Some i) →
         l' !! Z.to_nat i = src !! j).
Proof.
  intros Hrange Hshape.
  pose proof (in_range_lookups l ids Hrange) as Hsome.
  assert (Hlen : length src = length ids).
  { rewrite <- (length_map sh src), Hshape, length_map.
    apply omap_total_length. exact Hsome. }
  unfold fancy_set. rewrite bool_decide_eq_true_2 by exact Hlen.
  destruct (assign_rows_spec sh l (zip ids src)) with (l := l)
    as (l' & Hrun & Hsh & Hother & Hlast).
  { apply Forall_lookup. intros j [i x] Hj.
    apply lookup_zip_with_Some in Hj as (i' & x' & Heq & Hi & Hx).
    inversion Heq. subst i' x'. simpl. split.
    - apply (Forall_lookup_1 _ _ _ _ Hrange Hi).
    - assert (Hj : map sh src !! j = Some (sh x)).
      { rewrite list_lookup_fmap, Hx. reflexivity. }
      rewrite Hshape, list_lookup_fmap, omap_total_lookup, Hi in Hj by exact Hsome.
      exact Hj. }
  { reflexivity. }
  exists l'. split; [exact Hrun|]. split; [exact Hsh|]. split.
  - intros t Ht. apply Hother. intros [i x] Hw Heq. simpl in Heq. subst i.
    apply Ht. apply elem_of_zip_l in Hw. exact Hw.
  - intros j i Hi Hlater.
    destruct (lookup_lt_is_Some_2 src j) as [x Hx].
    { rewrite Hlen. apply lookup_lt_Some in Hi. exact Hi. }
    rewrite Hx. apply (Hlast j (i, x)).
    + apply lookup_zip_with_Some. exists i, x. auto.
    + intros j' [i' x'] Hlt Hj' Heq. simpl in Heq. subst i'.
      apply lookup_zip_with_Some in Hj' as (i'' & x'' & Heq & Hi' & _).
      inversion Heq. subst. apply (Hlater j' Hlt Hi').
Qed.
End fancy_set.

Lemma getitem_ids_in_range (a : ndarray) (ids : list Z) :
  Forall (fun i => (0 ≤ i < Z.of_nat (len a))%Z) ids →
  getitem_ids a ids = Ok (pick_frames ids a).
Proof.
  intros Hrange. destruct a as [l|l]; simpl in *;
    rewrite fancy_get_in_range by exact Hrange; reflexivity.
Qed.

Lemma setitem_ids_spec (a src : ndarray) (ids : list Z) :
  Forall (fun i => (0 ≤ i < Z.of_nat (len a))%Z) ids →
  shape src = shape (pick_frames ids a) →
  ∃ a' : ndarray,
    setitem_ids a ids src = Ok a'
    ∧ shape a' = shape a
    ∧ (∀ t : nat, Z.of_nat t ∉ ids → frame_at a' t = frame_at a t)
    ∧ (∀ (j : nat) (i : Z),
         ids !! j = Some i →
         (∀ j' : nat, (j < j')%nat → ids !! j' ≠ Some i) →
         frame_at a' (Z.to_nat i) = frame_at src j).
Proof.
  intros Hrange Hshape.
  destruct a as [l|l], src as [s|s]; simpl in Hshape; try discriminate;
    inversion Hshape as [Hsh]; simpl in Hrange.
  - destruct (fancy_set_spec kframe_shape l ids s Hrange Hsh)
      as (l' & Hrun & Hsh' & Hother & Hlast).
    exists (FloatArr l'). simpl. unfold same_kframe. rewrite Hrun. simpl.
    split; [reflexivity|]. split; [rewrite Hsh'; reflexivity|]. split.
    + intros t Ht. rewrite (Hother t Ht). reflexivity.
    + intros j i Hi Hlater. rewrite (Hlast j i Hi Hlater). reflexivity.
  - destruct (fancy_set_spec mframe_shape l ids s Hrange Hsh)
      as (l' & Hrun & Hsh' & Hother & Hlast).
    exists (BoolArr l'). simpl. unfold same_mframe. rewrite Hrun. simpl.
    split; [reflexivity|]. split; [rewrite Hsh'; reflexivity|]. split.
    + intros t Ht. rewrite (Hother t Ht). reflexivity.
    + intros j i Hi Hlater. rewrite (Hlast j i Hi Hlater). reflexivity.
Qed.

Section select_properties.
Context {G : Type} `{RandomSource G}.

Lemma SelectFrames_get_selection_in_range (frames : list Z) (data : Arrays)
    (T : nat) (g : G) :
  record_of_length T data →
  Forall (fun f => (0 ≤ f < Z.of_nat T)%Z) frames →
  select.SelectFrames_get_selection frames data g = Ok (frames, g).
Proof.
  intros [[kp Hkp] Hlen] Hrange.
  unfold select.SelectFrames_get_selection, select.keypoints_len, getitem, lift.
  rewrite Hkp. simpl. rewrite (Hlen _ _ Hkp).
  assert (Hall : forallb (select.in_range T) frames = true).
  { apply forallb_forall. intros f Hf. apply list_elem_of_In in Hf.
    pose proof (proj1 (Forall_forall _ _) Hrange f Hf) as Hin. simpl in Hin.
    unfold select.in_range. apply andb_true_iff. split.
    - apply Z.leb_le. lia.
    - apply Z.ltb_lt. lia. }
  rewrite Hall. reflexivity.
Qed.

Lemma extract_in_range (data : Arrays) (frames : list Z) (T : nat) :
  record_of_length T data →
  Forall (fun f => (0 ≤ f < Z.of_nat T)%Z) frames →
  select.extract data frames = Ok (pick_frames frames <$> data).
Proof.
  intros [_ Hlen] Hrange. unfold select.extract.
  apply dict_mapM_fmap. intros key a Hk.
  apply getitem_ids_in_range. rewrite (Hlen _ _ Hk). exact Hrange.
Qed.

(** C1.  A fixed-frame-list selection over the in-range index list
    [frames], called with [force_apply] true on a record of [T] frames,
    whose child pipeline returns for the extracted subsequence a record
    [out] of the same fields and extents: the call returns the record with
    the same fields and extents, every array unchanged at each frame that
    is not in [frames], and holding at frame [frames[j]] row [j] of the
    child pipeline's result (the last such [j], should an index repeat). *)
Theorem C1_fixed_frames_scatter_back (transforms : list (Operation G))
    (frames : list Z) (p : Q) (data : Arrays) (T : nat) (out : Kwargs) (g g' : G) :
  record_of_length T data →
  Forall (fun f => (0 ≤ f < Z.of_nat T)%Z) frames →
  run_all transforms (plain (pick_frames frames <$> data)) g = Ok (out, g') →
  (∀ (key : string) (a : ndarray),
     data !! key = Some a →
     ∃ o, kw_data out !! key = Some o ∧ shape o = shape (pick_frames frames a)) →
  ∃ data' : Arrays,
    select.call (select.SelectFrames transforms frames p) true data g = Ok (data', g')
    ∧ dom data' = dom data
    ∧ ∀ (key : string) (a : ndarray),
        data !! key = Some a →
        ∃ a' o : ndarray,
          data' !! key = Some a'
          ∧ kw_data out !! key = Some o
          ∧ shape a' = shape a
          ∧ (∀ t : nat, Z.of_nat t ∉ frames → frame_at a' t = frame_at a t)
          ∧ (∀ (j : nat) (f : Z),
               frames !! j = Some f →
               (∀ j' : nat, (j < j')%nat → frames !! j' ≠ Some f) →
               frame_at a' (Z.to_nat f) = frame_at o j).
Proof.
  intros Hrec Hrange Hrun Hout.
  assert (Hset : ∀ key a, data !! key = Some a →
            ∃ o a', kw_data out !! key = Some o
                    ∧ setitem_ids a frames o = Ok a'
                    ∧ shape a' = shape a
                    ∧ (∀ t : nat, Z.of_nat t ∉ frames → frame_at a' t = frame_at a t)
                    ∧ (∀ (j : nat) (f : Z),
                         frames !! j = Some f →
                         (∀ j' : nat, (j < j')%nat → frames !! j' ≠ Some f) →
                         frame_at a' (Z.to_nat f) = frame_at o j)).
  { intros key a Hk. destruct (Hout key a Hk) as (o & Ho & Hshape).
    destruct (setitem_ids_spec a o frames) as (a' & Hrun' & Hspec).
    - rewrite (proj2 Hrec _ _ Hk). exact Hrange.
    - exact Hshape.
    - exists o, a'. split; [exact Ho|]. split; [exact Hrun'|exact Hspec]. }
  destruct (dict_mapM_total
              (fun key d => let? src := getitem (kw_data out) key in
                            setitem_ids d frames src) data)
    as (data' & Hscatter & Hrel).
  { intros key a Hk. destruct (Hset key a Hk) as (o & a' & Ho & Hrun' & _).
    exists a'. unfold getitem. rewrite Ho. exact Hrun'. }
  exists data'. split; [|split].
  - unfold select.call, select.gate_fails, bind at 1, ret at 1.
    unfold select.select_effect. simpl.
    unfold bind at 1.
    rewrite (SelectFrames_get_selection_in_range frames data T g Hrec Hrange).
    unfold bind at 1, lift at 1.
    rewrite (extract_in_range data frames T Hrec Hrange).
    unfold bind. rewrite Hrun. unfold lift, select.scatter_back.
    rewrite Hscatter. reflexivity.
  - apply set_eq. intros key. rewrite !elem_of_dom.
    specialize (Hrel key). destruct (data !! key) as [a|] eqn:Hk.
    + destruct Hrel as (b & _ & Hb). rewrite Hb. split; eauto.
    + rewrite Hrel. reflexivity.
  - intros key a Hk. destruct (Hset key a Hk) as (o & a' & Ho & Hrun' & Hspec).
    exists a', o. split; [|split; [exact Ho|exact Hspec]].
    specialize (Hrel key). rewrite Hk in Hrel.
    destruct Hrel as (b & Hb & Hdata'). unfold getitem in Hb. rewrite Ho in Hb.
    simpl in Hb. rewrite Hrun' in Hb. inversion Hb. subst b. exact Hdata'.
Qed.

End select_properties.

(** ** Worked examples for the selection and the root pipeline *)

Lemma record_of_length_record (kp : list kframe) (inv : list mframe) :
  length inv = length kp → record_of_length (length kp) (examples.record kp inv).
Proof.
  intros Hlen. unfold examples.record. split.
  - exists (FloatArr kp). apply lookup_insert_eq.
  - apply map_Forall_insert_2; [reflexivity|].
    apply map_Forall_insert_2; [exact Hlen|]. apply map_Forall_empty.
Qed.

Lemma C1_witness :
  ∃ data' : Arrays,
    select.call (select.SelectFrames [examples.mock_transform] [2; 4; 6]%Z 1)
                true examples.base_select_data [] = Ok (data', [])
    ∧ ∀ key a,
        examples.base_select_data !! key = Some a →
        ∃ a' o,
          data' !! key = Some a'
          ∧ kw_data examples.base_select_out !! key = Some o
          ∧ frame_at a' 3 = frame_at a 3
          ∧ frame_at a' 5 = frame_at a 5
          ∧ frame_at a' 4 = frame_at o 1.
Proof.
  destruct (C1_fixed_frames_scatter_back
              [examples.mock_transform] [2; 4; 6]%Z 1 examples.base_select_data 7
              examples.base_select_out [] [])
    as (data' & Hcall & _ & Hfields).
  - apply (record_of_length_record (examples.ones 7 2 2) (examples.all_valid 7 2)).
    reflexivity.
  - repeat constructor; lia.
  - vm_compute. reflexivity.
  - intros key a Hk. unfold examples.base_select_data, examples.record in Hk.
    apply lookup_insert_Some in Hk as [[<- <-]|[_ Hk]].
    + eexists. split; [vm_compute; reflexivity|]. vm_compute. reflexivity.
    + apply lookup_insert_Some in Hk as [[<- <-]|[_ Hk]].
      * eexists. split; [vm_compute; reflexivity|]. vm_compute. reflexivity.
      * rewrite lookup_empty in Hk. discriminate.
  - exists data'. split; [exact Hcall|].
    intros key a Hk. destruct (Hfields key a Hk) as (a' & o & Ha' & Ho & _ & Hother & Hin).
    exists a', o. split; [exact Ha'|]. split; [exact Ho|]. split; [|split].
    + apply (Hother 3%nat). intros Hin3.
      repeat (apply elem_of_cons in Hin3 as [Hin3|Hin3]; [discriminate|]).
      apply elem_of_nil in Hin3. exact Hin3.
    + apply (Hother 5%nat). intros Hin5.
      repeat (apply elem_of_cons in Hin5 as [Hin5|Hin5]; [discriminate|]).
      apply elem_of_nil in Hin5. exact Hin5.
    + apply (Hin 1%nat 4%Z); [reflexivity|].
      intros j' Hlt Hj'. destruct j' as [|[|[|j']]]; try lia; simpl in Hj'; discriminate.
Defined.

(** The test of [SelectFrames], evaluated: frame 4 (the second selected
    frame) is marked invalid and set to 11, every other frame is as
    before. *)
Example base_select_evaluated :
  select.call (select.SelectFrames [examples.mock_transform] [2; 4; 6]%Z 1)
              false examples.base_select_data [(1 # 2)%Q]
  = Ok (examples.record
          (<[4%nat := [[11; 11]; [11; 11]]%Q]> (examples.ones 7 2 2))
          (<[4%nat := [true; true]]> (examples.all_valid 7 2)), []).
Proof. vm_compute. reflexivity. Qed.

Lemma C4_witness :
  ∃ kp' : list kframe,
    compose.Compose_call examples.zeroing_pipeline [] false examples.small_data [(1 # 2)%Q]
    = Ok (mkKwargs None (<["keypoints" := FloatArr kp']>
                           (kw_data examples.small_occluded)), [])
    ∧ kp' !! 0%nat ≫= (.!! 0%nat) = Some [0; 0]%Q
    ∧ kp' !! 0%nat ≫= (.!! 1%nat) = Some [1; 1]%Q.
Proof.
  destruct (C4_invalid_keypoints_zeroed
              examples.zeroing_pipeline false examples.small_data
              examples.small_checked examples.small_occluded [(1 # 2)%Q] []
              (examples.ones 2 2 2) [[true; false]; [true; false]])
    as (kp' & Hcall & _ & Hzero).
  - reflexivity.
  - vm_compute. reflexivity.
  - vm_compute. reflexivity.
  - vm_compute. reflexivity.
  - vm_compute. reflexivity.
  - reflexivity.
  - exists kp'. split; [exact Hcall|]. split.
    + apply (Hzero 0%nat 0%nat [1; 1]%Q true); reflexivity.
    + apply (Hzero 0%nat 1%nat [1; 1]%Q false); reflexivity.
Defined.

(** A pipeline constructed with [p = 0]: both children are called, and
    both joints come out occluded. *)
Lemma C10_witness :
  (0 < 1)%Q
  ∧ ∃ r : Result (Kwargs * list Q),
      children_run [examples.occlude_first; examples.occlude_second]
                   (plain examples.small_checked) [] r
      ∧ compose.Compose_call examples.improbable_pipeline [] false examples.small_data []
        = match r with
          | Ok (out, g') => Ok (out, g')
          | Raise e => Raise e
          end
      ∧ compose.Compose_call examples.improbable_pipeline [] false examples.small_data []
        = Ok (mkKwargs None
                (<["invalid" := BoolArr [[true; true]; [true; true]]]>
                   examples.small_checked), []).
Proof.
  split; [reflexivity|].
  destruct (C10_root_pipeline_never_consults_p
              (compose.Sequence [examples.occlude_first; examples.occlude_second])
              0 1 false [] false examples.small_data ([] : list Q))
    as [_ Hruns].
  destruct (Hruns examples.small_checked) as (r & Hrun & Hcall).
  - vm_compute. reflexivity.
  - exists r. split; [exact Hrun|]. split; [exact Hcall|].
    vm_compute. reflexivity.
Defined.

(** ** Worked examples for the weighted picks *)

Lemma C7_witness :
  compose.OneOf_init (compose.Sequence [examples.zero_weight; examples.zero_weight]) 1
  = Raise ZeroDivisionError
  ∧ compose.SomeOf_init (compose.Sequence [examples.zero_weight; examples.zero_weight])
                        1 true 1
    = Raise ZeroDivisionError.
Proof.
  apply (C7_zero_weights_rejected_at_construction
           (compose.Sequence [examples.zero_weight; examples.zero_weight]) 1 1%Z true).
  - simpl. discriminate.
  - vm_compute. reflexivity.
Defined.

(** C7, the statement as given, fails without a child: the weights of no
    child sum to zero, and both constructors return a combinator, whose
    calls hand the record back without a draw. *)
Lemma C7_counterexample :
  (Qsum (map op_p (@nil (Operation (list Q)))) == 0)%Q
  ∧ compose.OneOf_init (compose.Sequence (@nil (Operation (list Q)))) 1
    = Ok (compose.mkOneOf (compose.mkBaseCompose [] 1) [])
  ∧ compose.SomeOf_init (compose.Sequence (@nil (Operation (list Q)))) 2 true 1
    = Ok (compose.mkSomeOf (compose.mkBaseCompose [] 1) 2 true [])
  ∧ compose.OneOf_call (compose.mkOneOf (compose.mkBaseCompose [] 1) [])
                       true examples.small_data [(1 # 2)%Q]
    = Ok (plain examples.small_data, [(1 # 2)%Q]).
Proof.
  split; [reflexivity|]. split; [reflexivity|]. split; reflexivity.
Qed.

(** ** force_apply *)

Section force_apply_properties.
Context {G : Type} `{RandomSource G}.


End force_apply_properties.


(** ** occlusion.py: interpolation of occluded joints *)

Lemma compress_nil_l {A : Type} (mask : list bool) : compress (@nil A) mask = [].
Proof. destruct mask; reflexivity. Qed.

Lemma compress_nil_r {A : Type} (l : list A) : compress l [] = [].
Proof. destruct l; reflexivity. Qed.

Lemma zip_nil_r {A B : Type} (l : list A) : zip l (@nil B) = [].
Proof. destruct l; reflexivity. Qed.

Lemma zip_compress {A B : Type} (l1 : list A) (l2 : list B) (mask : list bool) :
  zip (compress l1 mask) (compress l2 mask) = compress (zip l1 l2) mask.
Proof.
  revert l1 l2. induction mask as [|b mask IH]; intros l1 l2.
  - rewrite !compress_nil_r. reflexivity.
  - destruct l1 as [|x l1]; [rewrite compress_nil_l; reflexivity|].
    destruct l2 as [|y l2].
    + rewrite compress_nil_l, zip_nil_r. reflexivity.
    + simpl. destruct b; simpl; [f_equal|]; apply IH.
Qed.

Lemma compress_sublist {A : Type} (l : list A) (mask : list bool) :
  sublist (compress l mask) l.
Proof.
  revert mask. induction l as [|x l IH]; intros [|b mask]; simpl.
  - constructor.
  - constructor.
  - apply sublist_nil_l.
  - destruct b; [apply sublist_skip|apply sublist_cons]; apply IH.
Qed.

Lemma compress_seq_NoDup (s n : nat) (mask : list bool) :
  NoDup (compress (seq s n) mask).
Proof.
  apply (sublist_NoDup _ (seq s n)); [apply NoDup_seq|apply compress_sublist].
Qed.

(** Membership in the indices a mask keeps. *)
Lemma elem_of_compress_seq (mask : list bool) (s t : nat) :
  t ∈ compress (seq s (length mask)) mask ↔ (s <= t)%nat ∧ mask !! (t - s)%nat = Some true.
Proof.
  revert s. induction mask as [|b mask IH]; intros s; simpl.
  - split; [intros Hin; inversion Hin|intros [_ Hl]; discriminate].
  - destruct b.
    + rewrite elem_of_cons, IH. split.
      * intros [->|[Hle Hl]].
        -- split; [lia|]. replace (s - s)%nat with 0%nat by lia. reflexivity.
        -- split; [lia|]. replace (t - s)%nat with (S (t - S s))%nat by lia. exact Hl.
      * intros [Hle Hl]. destruct (decide (t = s)) as [->|Hne]; [left; reflexivity|].
        right. split; [lia|].
        replace (t - s)%nat with (S (t - S s))%nat in Hl by lia. exact Hl.
    + rewrite IH. split.
      * intros [Hle Hl]. split; [lia|].
        replace (t - s)%nat with (S (t - S s))%nat by lia. exact Hl.
      * intros [Hle Hl]. destruct (decide (t = s)) as [->|Hne].
        -- replace (s - s)%nat with 0%nat in Hl by lia. discriminate.
        -- split; [lia|].
           replace (t - s)%nat with (S (t - S s))%nat in Hl by lia. exact Hl.
Qed.

Lemma elem_of_kept (mask : list bool) (t : nat) :
  t ∈ compress (seq 0 (length mask)) mask ↔ mask !! t = Some true.
Proof.
  rewrite elem_of_compress_seq, Nat.sub_0_r. split; [intros [_ Hl]; exact Hl|].
  intros Hl. split; [lia|exact Hl].
Qed.

Lemma index_min_spec (l : list nat) :
  l ≠ [] → occlusion.index_min l ∈ l ∧ ∀ u, u ∈ l → (occlusion.index_min l <= u)%nat.
Proof.
  unfold occlusion.index_min. destruct l as [|x l]; [contradiction|]. intros _.
  simpl List.hd.
  assert (Hgen : ∀ (d : nat) (k : list nat),
            (foldr Nat.min d k = d ∨ foldr Nat.min d k ∈ k)
            ∧ (foldr Nat.min d k <= d)%nat
            ∧ ∀ u, u ∈ k → (foldr Nat.min d k <= u)%nat).
  { intros d k. induction k as [|y k (IHor & IHd & IHall)]; simpl.
    - split; [left; reflexivity|]. split; [lia|]. intros u Hu. inversion Hu.
    - split; [|split].
      + destruct (Nat.min_spec y (foldr Nat.min d k)) as [[_ ->]|[_ ->]].
        * right. left.
        * destruct IHor as [->|Hin]; [left; reflexivity|right; right; exact Hin].
      + lia.
      + intros u Hu. apply elem_of_cons in Hu as [->|Hu]; [lia|].
        specialize (IHall u Hu). lia. }
  destruct (Hgen x (x :: l)) as (Hor & _ & Hall). split; [|exact Hall].
  destruct Hor as [->|Hin]; [left|exact Hin].
Qed.

Lemma index_max_spec (l : list nat) :
  l ≠ [] → occlusion.index_max l ∈ l ∧ ∀ u, u ∈ l → (u <= occlusion.index_max l)%nat.
Proof.
  unfold occlusion.index_max. induction l as [|x l IH]; [contradiction|]. intros _.
  simpl. destruct l as [|y l].
  - simpl. rewrite Nat.max_0_r. split; [left|].
    intros u Hu. apply elem_of_cons in Hu as [->|Hu]; [lia|inversion Hu].
  - destruct IH as [Hin Hall]; [discriminate|]. split.
    + destruct (Nat.max_spec x (foldr Nat.max 0%nat (y :: l))) as [[_ ->]|[_ ->]].
      * right. exact Hin.
      * left.
    + intros u Hu. apply elem_of_cons in Hu as [->|Hu]; [lia|].
      specialize (Hall u Hu). lia.
Qed.

Lemma rmapM_total {A B : Type} (f : A → Result B) (l : list A) :
  Forall (fun x => ∃ y, f x = Ok y) l →
  ∃ ys, rmapM f l = Ok ys ∧ Forall2 (fun x y => f x = Ok y) l ys.
Proof.
  induction 1 as [|x l [y Hy] _ (ys & Hrun & Hall)].
  - exists []. split; [reflexivity|constructor].
  - exists (y :: ys). simpl. rewrite Hy. simpl. rewrite Hrun. simpl.
    split; [reflexivity|]. constructor; assumption.
Qed.

Lemma rmapM_Ok {A B : Type} (f : A → Result B) (l : list A) (ys : list B) :
  rmapM f l = Ok ys → Forall2 (fun x y => f x = Ok y) l ys.
Proof.
  revert ys. induction l as [|x l IH]; intros ys Hrun; simpl in Hrun.
  - inversion Hrun. constructor.
  - destruct (f x) as [y|e] eqn:Hy; simpl in Hrun; [|discriminate].
    destruct (rmapM f l) as [ys'|e] eqn:Hrest; simpl in Hrun; [|discriminate].
    inversion Hrun. subst. constructor; [exact Hy|]. apply IH. reflexivity.
Qed.

Lemma joint_column_lookup {A : Type} (a : list (list A)) (k V : nat) (t : nat) :
  Forall (fun r => length r = V) a → (k < V)%nat →
  joint_column a k !! t = a !! t ≫= (.!! k).
Proof.
  intros Hrect Hk. unfold joint_column. apply omap_total_lookup.
  eapply Forall_impl; [exact Hrect|]. intros r Hr. simpl in Hr.
  apply lookup_lt_is_Some_2. lia.
Qed.

Lemma joint_column_length {A : Type} (a : list (list A)) (k V : nat) :
  Forall (fun r => length r = V) a → (k < V)%nat →
  length (joint_column a k) = length a.
Proof.
  intros Hrect Hk. unfold joint_column. apply omap_total_length.
  eapply Forall_impl; [exact Hrect|]. intros r Hr. simpl in Hr.
  apply lookup_lt_is_Some_2. lia.
Qed.

Lemma column_rect {A : Type} (a : list (list A)) (k V : nat) :
  Forall (fun r => length r = V) a → (k < V)%nat →
  column a (Z.of_nat k) = Ok (joint_column a k).
Proof.
  intros Hrect Hk. unfold column, joint_column.
  induction Hrect as [|r a Hr _ IH]; [reflexivity|].
  simpl. destruct (py_index_in_range r (Z.of_nat k)) as (x & Hx & Hpy); [lia|].
  rewrite Nat2Z.id in Hx. rewrite Hpy, Hx. simpl. rewrite IH. reflexivity.
Qed.

Lemma joint_column_ext {A : Type} (a a' : list (list A)) (k V : nat) :
  Forall (fun r => length r = V) a → Forall (fun r => length r = V) a' →
  (k < V)%nat → length a' = length a →
  (∀ t, a' !! t ≫= (.!! k) = a !! t ≫= (.!! k)) →
  joint_column a' k = joint_column a k.
Proof.
  intros Hrect Hrect' Hk Hlen Hall. apply list_eq. intros t.
  rewrite (joint_column_lookup a' k V t Hrect' Hk).
  rewrite (joint_column_lookup a k V t Hrect Hk). apply Hall.
Qed.

Lemma setitem2_spec {A : Type} (a : list (list A)) (t0 k V : nat) (x : A) :
  Forall (fun r => length r = V) a → (k < V)%nat → (t0 < length a)%nat →
  ∃ a', setitem2 a t0 (Z.of_nat k) x = Ok a'
        ∧ length a' = length a
        ∧ Forall (fun r => length r = V) a'
        ∧ (∀ t k', (t ≠ t0 ∨ k' ≠ k) → a' !! t ≫= (.!! k') = a !! t ≫= (.!! k'))
        ∧ a' !! t0 ≫= (.!! k) = Some x.
Proof.
  intros Hrect Hk Ht0. unfold setitem2.
  destruct (lookup_lt_is_Some_2 a t0 Ht0) as [row Hrow]. rewrite Hrow.
  assert (Hlen : length row = V).
  { apply (proj1 (Forall_lookup _ _) Hrect t0 row Hrow). }
  rewrite normalize_index_in_range by lia. simpl. rewrite Nat2Z.id.
  eexists. split; [reflexivity|]. split; [apply length_insert|]. split; [|split].
  - apply Forall_insert; [exact Hrect|]. rewrite length_insert. exact Hlen.
  - intros t k' Hne. destruct (decide (t = t0)) as [->|Hnet].
    + rewrite list_lookup_insert_eq by exact Ht0. rewrite Hrow. simpl.
      apply list_lookup_insert_ne. destruct Hne as [Hne|Hne]; [contradiction|].
      intros ->. contradiction.
    + rewrite list_lookup_insert_ne by (intros ->; contradiction). reflexivity.
  - rewrite list_lookup_insert_eq by exact Ht0. simpl.
    apply list_lookup_insert_eq. lia.
Qed.

Lemma assign_entries_spec {A : Type} (k V : nat) (writes : list (nat * A)) :
  ∀ a : list (list A),
    Forall (fun r => length r = V) a → (k < V)%nat →
    Forall (fun w => (fst w < length a)%nat) writes →
    NoDup (map fst writes) →
    ∃ a', occlusion.assign_entries a k writes = Ok a'
          ∧ length a' = length a
          ∧ Forall (fun r => length r = V) a'
          ∧ (∀ t k', k' ≠ k → a' !! t ≫= (.!! k') = a !! t ≫= (.!! k'))
          ∧ (∀ t x, (t, x) ∈ writes → a' !! t ≫= (.!! k) = Some x)
          ∧ (∀ t, t ∉ map fst writes → a' !! t ≫= (.!! k) = a !! t ≫= (.!! k)).
Proof.
  induction writes as [|[t0 x0] writes IH]; intros a Hrect Hk Hrange Hnodup.
  - exists a. split; [reflexivity|]. split; [reflexivity|]. split; [exact Hrect|].
    split; [reflexivity|]. split; [|reflexivity].
    intros t x Hin. inversion Hin.
  - inversion Hrange as [|? ? Ht0 Hrange']. subst. simpl in Ht0.
    simpl in Hnodup. apply NoDup_cons in Hnodup as [Hfresh Hnodup].
    destruct (setitem2_spec a t0 k V x0 Hrect Hk Ht0)
      as (a1 & Hset & Hlen1 & Hrect1 & Hother1 & Hnew1).
    destruct (IH a1 Hrect1 Hk) as (a' & Hrun & Hlen & Hrect' & Hcols & Hin & Hout).
    { rewrite Hlen1. exact Hrange'. }
    { exact Hnodup. }
    exists a'. simpl. rewrite Hset. simpl. split; [exact Hrun|].
    split; [lia|]. split; [exact Hrect'|]. split; [|split].
    + intros t k' Hne. rewrite Hcols by exact Hne. apply Hother1. right. exact Hne.
    + intros t x Hx. apply elem_of_cons in Hx as [Heq|Hx].
      * inversion Heq. subst. rewrite Hout by exact Hfresh. exact Hnew1.
      * apply Hin. exact Hx.
    + intros t Ht. rewrite Hout.
      * apply Hother1. left. intros ->. apply Ht. left.
      * intros Hin'. apply Ht. right. exact Hin'.
Qed.

Section interp.
Variable M : list bool.
Variable Y : list (list Q).

Lemma interp_from_spec (mask : list bool) :
  ∀ (ys : list (list Q)) (s x0 : nat) (y0 : list Q) (x : nat),
    length ys = length mask →
    (∀ i, (i < length mask)%nat → mask !! i = M !! (s + i)%nat) →
    (∀ i, (i < length mask)%nat → ys !! i = Y !! (s + i)%nat) →
    length M = (s + length mask)%nat →
    (x0 < s)%nat → (x0 < x)%nat → M !! x0 = Some true → Y !! x0 = Some y0 →
    (∀ u, (x0 < u < s)%nat → M !! u = Some false) →
    M !! x = Some false →
    (∃ hi, (x < hi)%nat ∧ M !! hi = Some true) →
    ∃ lo hi ylo yhi,
      ((lo < x < hi)%nat ∧ M !! lo = Some true ∧ M !! hi = Some true
       ∧ (∀ u, (lo < u < hi)%nat → M !! u = Some false)
       ∧ Y !! lo = Some ylo ∧ Y !! hi = Some yhi)
      ∧ occlusion.interp_from x0 y0 (compress (zip (seq s (length ys)) ys) mask) x
        = Ok (occlusion.lerp lo hi x ylo yhi).
Proof.
  induction mask as [|b mask IH]; intros ys s x0 y0 x Hlen Hmask Hys HM Hs Hx Hx0 Hy0 Hgap Hinv Hhi.
  - exfalso. destruct Hhi as (hi & Hlt & Hhi). simpl in HM.
    apply lookup_lt_Some in Hhi as Hhi'.
    assert (hi < s)%nat by lia.
    rewrite Hgap in Hhi by lia. discriminate.
  - destruct ys as [|y ys]; [discriminate|]. simpl in Hlen.
    pose proof (Hmask 0%nat ltac:(simpl; lia)) as Hb. simpl in Hb.
    pose proof (Hys 0%nat ltac:(simpl; lia)) as Hy. simpl in Hy.
    rewrite Nat.add_0_r in Hb, Hy.
    assert (Hmask' : ∀ i, (i < length mask)%nat → mask !! i = M !! (S s + i)%nat).
    { intros i Hi. specialize (Hmask (S i) ltac:(simpl; lia)). simpl in Hmask.
      rewrite Hmask. f_equal. lia. }
    assert (Hys' : ∀ i, (i < length mask)%nat → ys !! i = Y !! (S s + i)%nat).
    { intros i Hi. specialize (Hys (S i) ltac:(simpl; lia)). simpl in Hys.
      rewrite Hys. f_equal. lia. }
    assert (HM' : length M = (S s + length mask)%nat) by (simpl in HM; lia).
    simpl. destruct b.
    + simpl. destruct (Nat.leb_spec x s) as [Hle|Hgt].
      * assert (x ≠ s) by (intros ->; rewrite Hinv in Hb; discriminate).
        exists x0, s, y0, y. split; [|reflexivity].
        repeat split; auto; lia.
      * apply (IH ys (S s) s y x); auto; try lia.
    + apply (IH ys (S s) x0 y0 x); auto; try lia.
      intros u Hu. destruct (decide (u = s)) as [->|Hne]; [auto|]. apply Hgap. lia.
Qed.

Lemma interp1d_spec (mask : list bool) :
  ∀ (ys : list (list Q)) (s x : nat),
    length ys = length mask →
    (∀ i, (i < length mask)%nat → mask !! i = M !! (s + i)%nat) →
    (∀ i, (i < length mask)%nat → ys !! i = Y !! (s + i)%nat) →
    length M = (s + length mask)%nat →
    M !! x = Some false →
    (∃ lo, (s <= lo < x)%nat ∧ M !! lo = Some true) →
    (∃ hi, (x < hi)%nat ∧ M !! hi = Some true) →
    ∃ lo hi ylo yhi,
      ((lo < x < hi)%nat ∧ M !! lo = Some true ∧ M !! hi = Some true
       ∧ (∀ u, (lo < u < hi)%nat → M !! u = Some false)
       ∧ Y !! lo = Some ylo ∧ Y !! hi = Some yhi)
      ∧ occlusion.interp1d (compress (seq s (length mask)) mask) (compress ys mask) x
        = Ok (occlusion.lerp lo hi x ylo yhi).
Proof.
  induction mask as [|b mask IH]; intros ys s x Hlen Hmask Hys HM Hinv Hlo Hhi.
  - exfalso. destruct Hlo as (lo & Hlt & Hlo). simpl in HM.
    apply lookup_lt_Some in Hlo. lia.
  - destruct ys as [|y ys]; [discriminate|]. simpl in Hlen.
    pose proof (Hmask 0%nat ltac:(simpl; lia)) as Hb. simpl in Hb.
    pose proof (Hys 0%nat ltac:(simpl; lia)) as Hy. simpl in Hy.
    rewrite Nat.add_0_r in Hb, Hy.
    assert (Hmask' : ∀ i, (i < length mask)%nat → mask !! i = M !! (S s + i)%nat).
    { intros i Hi. specialize (Hmask (S i) ltac:(simpl; lia)). simpl in Hmask.
      rewrite Hmask. f_equal. lia. }
    assert (Hys' : ∀ i, (i < length mask)%nat → ys !! i = Y !! (S s + i)%nat).
    { intros i Hi. specialize (Hys (S i) ltac:(simpl; lia)). simpl in Hys.
      rewrite Hys. f_equal. lia. }
    assert (HM' : length M = (S s + length mask)%nat) by (simpl in HM; lia).
    destruct Hlo as (lo & [Hslo Hlox] & Hlo).
    unfold occlusion.interp1d. rewrite zip_compress. simpl. destruct b.
    + destruct (Nat.ltb_spec x s) as [Hlt|Hge]; [lia|].
      replace (length mask) with (length ys) by lia.
      apply (interp_from_spec mask ys (S s) s y x); auto; try lia.
    + assert (lo ≠ s) by (intros ->; rewrite Hlo in Hb; discriminate).
      specialize (IH ys (S s) x ltac:(lia) Hmask' Hys' HM' Hinv).
      destruct IH as (lo' & hi' & ylo & yhi & Hbr & Hrun).
      * exists lo. split; [lia|exact Hlo].
      * exact Hhi.
      * exists lo', hi', ylo, yhi. split; [exact Hbr|].
        unfold occlusion.interp1d in Hrun. rewrite zip_compress in Hrun. exact Hrun.
Qed.
End interp.

Lemma valid_mask_lookup (bad : list bool) (t : nat) (b : bool) :
  map negb bad !! t = Some b ↔ bad !! t = Some (negb b).
Proof.
  rewrite list_lookup_fmap. destruct (bad !! t) as [c|]; simpl.
  - split; intros Heq; inversion Heq; f_equal; destruct c, b; simpl in *; congruence.
  - split; discriminate.
Qed.

(** The interpolant of a joint at an invalid frame with a valid frame
    before and after it. *)
Lemma interp1d_joint (pos : list (list Q)) (bad : list bool) (t : nat) :
  length pos = length bad →
  bad !! t = Some true →
  (∃ lo, (lo < t)%nat ∧ valid_frame bad lo) →
  (∃ hi, (t < hi)%nat ∧ valid_frame bad hi) →
  ∃ lo hi ylo yhi,
    bracket pos bad t lo hi ylo yhi
    ∧ occlusion.interp1d (compress (seq 0 (length bad)) (map negb bad))
                         (compress pos (map negb bad)) t
      = Ok (occlusion.lerp lo hi t ylo yhi).
Proof.
  intros Hlen Hbad (lo & Hlo & Hvlo) (hi & Hhi & Hvhi).
  destruct (interp1d_spec (map negb bad) pos (map negb bad) pos 0 t)
    as (lo' & hi' & ylo & yhi & (Hlt & Hl & Hh & Hgap & Hyl & Hyh) & Hrun).
  - rewrite length_map. exact Hlen.
  - intros i _. reflexivity.
  - intros i _. reflexivity.
  - reflexivity.
  - apply valid_mask_lookup. exact Hbad.
  - exists lo. split; [lia|]. apply valid_mask_lookup. exact Hvlo.
  - exists hi. split; [lia|]. apply valid_mask_lookup. exact Hvhi.
  - exists lo', hi', ylo, yhi. split.
    + unfold bracket, valid_frame. split; [exact Hlt|].
      split; [apply valid_mask_lookup in Hl; exact Hl|].
      split; [apply valid_mask_lookup in Hh; exact Hh|].
      split; [|split; assumption].
      intros u Hu. specialize (Hgap u Hu). apply valid_mask_lookup in Hgap. exact Hgap.
    + rewrite length_map in Hrun. exact Hrun.
Qed.

Lemma two_distinct {A : Type} (l : list A) :
  NoDup l → (2 <= length l)%nat → ∃ a b, a ∈ l ∧ b ∈ l ∧ a ≠ b.
Proof.
  intros Hnodup Hlen. destruct l as [|x [|y l]]; simpl in Hlen; try lia.
  exists x, y. split; [left|]. split; [right; left|].
  apply NoDup_cons in Hnodup as [Hx _]. intros ->. apply Hx. left.
Qed.

Lemma distinct_two {A : Type} (l : list A) (a b : A) :
  a ∈ l → b ∈ l → a ≠ b → (2 <= length l)%nat.
Proof.
  intros Ha Hb Hne. destruct l as [|x [|y l]]; simpl; try lia.
  - inversion Ha.
  - apply list_elem_of_singleton in Ha, Hb. congruence.
Qed.

Lemma valid_ids_elem (bad : list bool) (t : nat) :
  t ∈ compress (seq 0 (length bad)) (map negb bad) ↔ valid_frame bad t.
Proof.
  pose proof (elem_of_kept (map negb bad) t) as Hk. rewrite length_map in Hk.
  rewrite Hk. unfold valid_frame. apply valid_mask_lookup.
Qed.

Lemma interpolate_ids_elem (bad : list bool) (a0 b0 t : nat) :
  t ∈ compress (seq 0 (length bad)) (occlusion.interpolate_map_of bad a0 b0)
  ↔ bad !! t = Some true ∧ (a0 <= t < b0)%nat.
Proof.
  pose proof (elem_of_kept (occlusion.interpolate_map_of bad a0 b0) t) as Hk.
  unfold occlusion.interpolate_map_of in *. rewrite length_imap in Hk. rewrite Hk.
  rewrite list_lookup_imap. destruct (bad !! t) as [b|]; simpl.
  - split.
    + intros Heq. injection Heq as Hb.
      apply andb_true_iff in Hb as [Hb Hlt]. apply andb_true_iff in Hb as [Hb Hle].
      apply Nat.leb_le in Hle. apply Nat.ltb_lt in Hlt. rewrite Hb.
      split; [reflexivity|lia].
    + intros [Heq [Hle Hlt]]. injection Heq as ->.
      assert (H1 : (a0 <=? t)%nat = true) by (apply Nat.leb_le; lia).
      assert (H2 : (t <? b0)%nat = true) by (apply Nat.ltb_lt; lia).
      rewrite H1, H2. reflexivity.
  - split; [discriminate|intros [Heq _]; discriminate].
Qed.

(** With two valid frames or more, the least and the greatest index the
    code computes are the first and the last valid frame. *)
Lemma valid_extremes (bad : list bool) :
  let valid_ids := compress (seq 0 (length bad)) (map negb bad) in
  (2 <= length valid_ids)%nat →
  first_valid bad (occlusion.index_min valid_ids)
  ∧ last_valid bad (occlusion.index_max valid_ids)
  ∧ (occlusion.index_min valid_ids < occlusion.index_max valid_ids)%nat.
Proof.
  intros valid_ids Hlen.
  assert (Hne : valid_ids ≠ []) by (intros Heq; rewrite Heq in Hlen; simpl in Hlen; lia).
  destruct (index_min_spec valid_ids Hne) as [Hmin_in Hmin].
  destruct (index_max_spec valid_ids Hne) as [Hmax_in Hmax].
  split; [|split].
  - split; [apply valid_ids_elem; exact Hmin_in|].
    intros u Hu Hvalid. apply valid_ids_elem in Hvalid. specialize (Hmin u Hvalid). lia.
  - split; [apply valid_ids_elem; exact Hmax_in|].
    intros u Hu Hvalid. apply valid_ids_elem in Hvalid. specialize (Hmax u Hvalid). lia.
  - destruct (two_distinct valid_ids) as (a & b & Ha & Hb & Hab);
      [apply compress_seq_NoDup|exact Hlen|].
    pose proof (Hmin a Ha). pose proof (Hmin b Hb).
    pose proof (Hmax a Ha). pose proof (Hmax b Hb). lia.
Qed.

Lemma first_valid_unique (bad : list bool) (a a' : nat) :
  first_valid bad a → first_valid bad a' → a = a'.
Proof.
  intros [Ha Hbefore] [Ha' Hbefore'].
  destruct (Nat.lt_trichotomy a a') as [Hlt|[Heq|Hgt]]; [|exact Heq|].
  - exfalso. apply (Hbefore' a Hlt Ha).
  - exfalso. apply (Hbefore a' Hgt Ha').
Qed.

Lemma last_valid_unique (bad : list bool) (b b' : nat) :
  last_valid bad b → last_valid bad b' → b = b'.
Proof.
  intros [Hb Hafter] [Hb' Hafter'].
  destruct (Nat.lt_trichotomy b b') as [Hlt|[Heq|Hgt]]; [|exact Heq|].
  - exfalso. apply (Hafter b' Hlt Hb').
  - exfalso. apply (Hafter' b Hgt Hb).
Qed.

Lemma mask_index_same_length {A : Type} (l : list A) (mask : list bool) :
  length mask = length l → mask_index l mask = Ok (compress l mask).
Proof.
  intros Hlen. unfold mask_index. rewrite bool_decide_eq_true_2 by exact Hlen.
  reflexivity.
Qed.

Lemma joint_interpolated_refl (pos : list (list Q)) (bad : list bool) :
  (length (compress (seq 0 (length bad)) (map negb bad)) < 2)%nat →
  joint_interpolated pos bad pos bad.
Proof.
  intros Hfew. split; [reflexivity|]. split; [reflexivity|]. split.
  - intros _ t. split; reflexivity.
  - intros a b [Ha _] [Hb _] Hab. exfalso.
    apply valid_ids_elem in Ha, Hb.
    pose proof (distinct_two _ a b Ha Hb ltac:(lia)). lia.
Qed.

Lemma interpolate_joint_spec (kp : list kframe) (inv : list mframe) (T V k : nat) :
  length kp = T → length inv = T →
  Forall (fun f => length f = V) kp → Forall (fun r => length r = V) inv →
  (k < V)%nat →
  ∃ (kp' : list kframe) (inv' : list mframe),
    occlusion.interpolate_joint T k (kp, inv) = Ok (kp', inv')
    ∧ length kp' = T ∧ length inv' = T
    ∧ Forall (fun f => length f = V) kp' ∧ Forall (fun r => length r = V) inv'
    ∧ (∀ k', k' ≠ k → (k' < V)%nat →
         joint_column kp' k' = joint_column kp k'
         ∧ joint_column inv' k' = joint_column inv k')
    ∧ joint_interpolated (joint_column kp k) (joint_column inv k)
                         (joint_column kp' k) (joint_column inv' k).
Proof.
  intros HkpT HinvT Hkp Hinv Hk.
  set (pos := joint_column kp k). set (bad := joint_column inv k).
  assert (Hpos_len : length pos = T).
  { unfold pos. rewrite (joint_column_length kp k V Hkp Hk). exact HkpT. }
  assert (Hbad_len : length bad = T).
  { unfold bad. rewrite (joint_column_length inv k V Hinv Hk). exact HinvT. }
  unfold occlusion.interpolate_joint.
  rewrite (column_rect kp k V Hkp Hk), (column_rect inv k V Hinv Hk). simpl.
  fold pos bad.
  rewrite mask_index_same_length by (rewrite length_map, length_seq; lia). simpl.
  rewrite <- Hbad_len.
  set (valid_ids := compress (seq 0 (length bad)) (map negb bad)).
  destruct (Nat.ltb_spec (length valid_ids) 2) as [Hfew|Hmany].
  { exists kp, inv. split; [reflexivity|]. split; [lia|]. split; [lia|].
    split; [exact Hkp|]. split; [exact Hinv|]. split; [intros; split; reflexivity|].
    apply joint_interpolated_refl. exact Hfew. }
  rewrite mask_index_same_length by (rewrite length_map; lia). simpl.
  destruct (valid_extremes bad Hmany) as (Hfirst & Hlast & Hlt).
  fold valid_ids in Hfirst, Hlast, Hlt.
  set (a0 := occlusion.index_min valid_ids) in *.
  set (b0 := occlusion.index_max valid_ids) in *.
  rewrite mask_index_same_length
    by (unfold occlusion.interpolate_map_of; rewrite length_imap, length_seq; reflexivity).
  simpl.
  set (ids := compress (seq 0 (length bad)) (occlusion.interpolate_map_of bad a0 b0)).
  assert (Hids : ∀ t, t ∈ ids ↔ bad !! t = Some true ∧ (a0 <= t < b0)%nat).
  { intros t. apply interpolate_ids_elem. }
  assert (Hinterp : ∀ t, t ∈ ids →
            ∃ lo hi ylo yhi,
              bracket pos bad t lo hi ylo yhi
              ∧ occlusion.interp1d valid_ids (compress pos (map negb bad)) t
                = Ok (occlusion.lerp lo hi t ylo yhi)).
  { intros t Ht. apply Hids in Ht as [Hbad [Hle Hltb]].
    apply interp1d_joint; [lia|exact Hbad| |].
    - exists a0. split; [|apply Hfirst].
      destruct (decide (a0 = t)) as [Heq|Hne]; [|lia].
      exfalso. destruct Hfirst as [Hv _]. unfold valid_frame in Hv.
      rewrite Heq, Hbad in Hv. discriminate.
    - exists b0. split; [lia|apply Hlast]. }
  destruct (rmapM_total (occlusion.interp1d valid_ids (compress pos (map negb bad))) ids)
    as (values & Hvalues & Hall).
  { apply Forall_forall. intros t Ht.
    destruct (Hinterp t Ht) as (lo & hi & ylo & yhi & _ & Hrun). eauto. }
  rewrite Hvalues. simpl.
  assert (Hvlen : length values = length ids).
  { symmetry. apply (Forall2_length _ _ _ Hall). }
  assert (Hids_range : ∀ t, t ∈ ids → (t < T)%nat).
  { intros t Ht. apply Hids in Ht as [Hbad _]. apply lookup_lt_Some in Hbad. lia. }
  assert (Hids_nodup : NoDup ids) by apply compress_seq_NoDup.
  destruct (assign_entries_spec k V (zip ids values) kp Hkp Hk)
    as (kp' & Hrun_kp & Hlen_kp & Hrect_kp & Hcols_kp & Hin_kp & Hout_kp).
  { apply Forall_forall. intros [t y] Hw. simpl.
    apply elem_of_zip_l in Hw. rewrite HkpT. apply Hids_range. exact Hw. }
  { change (NoDup ((zip ids values).*1)). rewrite fst_zip by lia. exact Hids_nodup. }
  rewrite Hrun_kp. simpl.
  destruct (assign_entries_spec k V (map (fun t => (t, false)) ids) inv Hinv Hk)
    as (inv' & Hrun_inv & Hlen_inv & Hrect_inv & Hcols_inv & Hin_inv & Hout_inv).
  { apply Forall_forall. intros [t y] Hw. simpl.
    apply list_elem_of_fmap in Hw as (t' & Heq & Ht'). inversion Heq. subst.
    rewrite HinvT. apply Hids_range. exact Ht'. }
  { rewrite map_map. simpl. rewrite map_id. exact Hids_nodup. }
  rewrite Hrun_inv. simpl.
  exists kp', inv'. split; [reflexivity|]. split; [lia|]. split; [lia|].
  split; [exact Hrect_kp|]. split; [exact Hrect_inv|]. split.
  { intros k' Hne Hk'. split.
    - apply (joint_column_ext kp kp' k' V Hkp Hrect_kp Hk' Hlen_kp).
      intros t. apply Hcols_kp. exact Hne.
    - apply (joint_column_ext inv inv' k' V Hinv Hrect_inv Hk' Hlen_inv).
      intros t. apply Hcols_inv. exact Hne. }
  assert (Hpos' : ∀ t, joint_column kp' k !! t = kp' !! t ≫= (.!! k)).
  { intros t. apply (joint_column_lookup kp' k V t Hrect_kp Hk). }
  assert (Hbad' : ∀ t, joint_column inv' k !! t = inv' !! t ≫= (.!! k)).
  { intros t. apply (joint_column_lookup inv' k V t Hrect_inv Hk). }
  assert (Hpos0 : ∀ t, pos !! t = kp !! t ≫= (.!! k)).
  { intros t. apply (joint_column_lookup kp k V t Hkp Hk). }
  assert (Hbad0 : ∀ t, bad !! t = inv !! t ≫= (.!! k)).
  { intros t. apply (joint_column_lookup inv k V t Hinv Hk). }
  assert (Hkeep : ∀ t, t ∉ ids →
            untouched pos bad (joint_column kp' k) (joint_column inv' k) t).
  { intros t Ht. split.
    - rewrite Hpos', Hpos0. apply Hout_kp.
      change (t ∉ (zip ids values).*1). rewrite fst_zip by lia. exact Ht.
    - rewrite Hbad', Hbad0. apply Hout_inv.
      rewrite map_map. simpl. rewrite map_id. exact Ht. }
  split; [rewrite (joint_column_length kp' k V Hrect_kp Hk); lia|].
  split; [rewrite (joint_column_length inv' k V Hrect_inv Hk); lia|].
  split.
  { intros Hsame. exfalso.
    destruct (two_distinct valid_ids) as (a & b & Ha & Hb & Hab);
      [apply compress_seq_NoDup|exact Hmany|].
    apply Hab. apply Hsame; apply valid_ids_elem; assumption. }
  intros a b Ha Hb Hab t.
  pose proof (first_valid_unique bad a a0 Ha Hfirst) as ->.
  pose proof (last_valid_unique bad b b0 Hb Hlast) as ->.
  split.
  - intros Hbad_t Hbetween.
    assert (Ht : t ∈ ids) by (apply Hids; split; [exact Hbad_t|lia]).
    split.
    + rewrite Hbad'. apply Hin_inv. apply list_elem_of_fmap. exists t. split; [reflexivity|exact Ht].
    + destruct (Hinterp t Ht) as (lo & hi & ylo & yhi & Hbr & Hrun).
      exists lo, hi, ylo, yhi. split; [exact Hbr|].
      rewrite Hpos'. apply Hin_kp.
      apply list_elem_of_lookup in Ht as [j Hj].
      destruct (Forall2_lookup_l _ _ _ _ _ Hall Hj) as (y & Hy & Hfy).
      rewrite Hrun in Hfy. inversion Hfy. subst y.
      apply list_elem_of_lookup. exists j. apply lookup_zip_with_Some.
      eexists _, _. split; [reflexivity|]. split; assumption.
  - intros Hnot. apply Hkeep. intros Ht. apply Hids in Ht as [Hbad_t [Hle Hltb]].
    apply Hnot. split; [exact Hbad_t|]. split; [|lia].
    destruct (decide (a0 = t)) as [Heq|Hne]; [|lia].
    exfalso. destruct Hfirst as [Hv _]. unfold valid_frame in Hv.
    rewrite Heq, Hbad_t in Hv. discriminate.
Qed.

Lemma interpolate_joints_spec (T V : nat) (joints : list nat) :
  NoDup joints → Forall (fun k => (k < V)%nat) joints →
  ∀ (kp : list kframe) (inv : list mframe),
    length kp = T → length inv = T →
    Forall (fun f => length f = V) kp → Forall (fun r => length r = V) inv →
    ∃ (kp' : list kframe) (inv' : list mframe),
      occlusion.interpolate_joints T joints (kp, inv) = Ok (kp', inv')
      ∧ length kp' = T ∧ length inv' = T
      ∧ Forall (fun f => length f = V) kp' ∧ Forall (fun r => length r = V) inv'
      ∧ (∀ k, k ∈ joints →
           joint_interpolated (joint_column kp k) (joint_column inv k)
                              (joint_column kp' k) (joint_column inv' k))
      ∧ (∀ k, k ∉ joints → (k < V)%nat →
           joint_column kp' k = joint_column kp k
           ∧ joint_column inv' k = joint_column inv k).
Proof.
  induction joints as [|k joints IH]; intros Hnodup Hrange kp inv HkpT HinvT Hkp Hinv.
  - exists kp, inv. split; [reflexivity|]. split; [exact HkpT|]. split; [exact HinvT|].
    split; [exact Hkp|]. split; [exact Hinv|]. split.
    + intros k Hk. inversion Hk.
    + intros k _ _. split; reflexivity.
  - apply NoDup_cons in Hnodup as [Hfresh Hnodup].
    apply Forall_cons in Hrange as [Hk Hrange'].
    destruct (interpolate_joint_spec kp inv T V k HkpT HinvT Hkp Hinv Hk)
      as (kp1 & inv1 & Hstep & Hlen1 & Hleni1 & Hrect1 & Hrecti1 & Hothers & Hjoint).
    destruct (IH Hnodup Hrange' kp1 inv1 Hlen1 Hleni1 Hrect1 Hrecti1)
      as (kp' & inv' & Hrun & Hlen' & Hleni' & Hrect' & Hrecti' & Hdone & Hrest).
    exists kp', inv'. split.
    { change (rbind (occlusion.interpolate_joint T k (kp, inv))
                    (fun state => occlusion.interpolate_joints T joints state)
              = Ok (kp', inv')).
      rewrite Hstep. exact Hrun. }
    split; [exact Hlen'|]. split; [exact Hleni'|]. split; [exact Hrect'|].
    split; [exact Hrecti'|]. split.
    + intros k' Hk'. apply elem_of_cons in Hk' as [->|Hk'].
      * destruct (Hrest k Hfresh Hk) as [-> ->]. exact Hjoint.
      * assert (Hne : k' ≠ k) by (intros ->; contradiction).
        assert (Hk'V : (k' < V)%nat).
        { apply (proj1 (Forall_forall _ _) Hrange' k' Hk'). }
        destruct (Hothers k' Hne Hk'V) as [<- <-]. apply Hdone. exact Hk'.
    + intros k' Hk' Hk'V.
      assert (Hne : k' ≠ k) by (intros ->; apply Hk'; left).
      destruct (Hrest k') as [-> ->]; [intros Hin; apply Hk'; right; exact Hin|exact Hk'V|].
      apply Hothers; assumption.
Qed.

Lemma lerp1_on_line (lo hi t : nat) (a b : Q) :
  (lo < hi)%nat →
  (occlusion.lerp1 lo hi t a b
   == a + (b - a) * (inject_Z (Z.of_nat t) - inject_Z (Z.of_nat lo))
                  / (inject_Z (Z.of_nat hi) - inject_Z (Z.of_nat lo)))%Q.
Proof.
  intros Hlt. unfold occlusion.lerp1. field.
  assert (Hlt' : (inject_Z (Z.of_nat lo) < inject_Z (Z.of_nat hi))%Q).
  { rewrite <- Zlt_Qlt. lia. }
  lra.
Qed.

Lemma lerp_on_line (lo hi t : nat) (ylo yhi : list Q) :
  (lo < hi)%nat → on_line lo hi t ylo yhi (occlusion.lerp lo hi t ylo yhi).
Proof.
  intros Hlt. unfold on_line, occlusion.lerp. revert yhi.
  induction ylo as [|a ylo IH]; intros [|b yhi]; simpl; try constructor.
  - apply lerp1_on_line. exact Hlt.
  - apply IH.
Qed.

Lemma interpolated_on_line (pos : list (list Q)) (bad : list bool)
    (pos' : list (list Q)) (bad' : list bool) (t : nat) :
  interpolated pos bad pos' bad' t → interpolated_linearly pos bad pos' bad' t.
Proof.
  intros (Hflag & lo & hi & ylo & yhi & Hbracket & Hpos).
  split; [exact Hflag|].
  exists lo, hi, ylo, yhi, (occlusion.lerp lo hi t ylo yhi).
  split; [exact Hbracket|]. split; [exact Hpos|].
  apply lerp_on_line. destruct Hbracket as (Hbetween & _). lia.
Qed.

Lemma joint_interpolated_on_line (pos : list (list Q)) (bad : list bool)
    (pos' : list (list Q)) (bad' : list bool) :
  joint_interpolated pos bad pos' bad' → joint_interpolated_linearly pos bad pos' bad'.
Proof.
  intros (Hlen & Hlenb & Hfew & Hmany).
  split; [exact Hlen|]. split; [exact Hlenb|]. split; [exact Hfew|].
  intros a b Ha Hb Hab t. destruct (Hmany a b Ha Hb Hab t) as [Hin Hout].
  split; [|exact Hout].
  intros Hbad Hbetween. apply interpolated_on_line. apply Hin; assumption.
Qed.

(** The joint of the worked example is valid at the frames 0 and 10 only. *)
Lemma gap_valid_frames (t : nat) :
  valid_frame (joint_column examples.gap_invalid 0) t → t = 0%nat ∨ t = 10%nat.
Proof.
  unfold valid_frame. intros Ht.
  do 13 (destruct t as [|t]; [first [left; reflexivity | right; reflexivity | discriminate]|]).
  discriminate.
Qed.

Lemma gap_values (kp' : list kframe) (inv' : list mframe) :
  joint_interpolated_linearly (joint_column examples.gap_keypoints 0)
                              (joint_column examples.gap_invalid 0)
                              (joint_column kp' 0) (joint_column inv' 0) →
  ∀ t, (0 < t < 10)%nat →
    joint_column inv' 0 !! t = Some false
    ∧ ∃ v, joint_column kp' 0 !! t = Some [v] ∧ (v == inject_Z (Z.of_nat t))%Q.
Proof.
  intros (_ & _ & _ & Hmany) t Ht.
  destruct (Hmany 0%nat 10%nat) with (t := t) as [Hin _].
  { split; [reflexivity|]. intros u Hu. lia. }
  { split; [reflexivity|]. intros u Hu Hvalid.
    destruct (gap_valid_frames u Hvalid); lia. }
  { lia. }
  destruct Hin as (Hflag & lo & hi & ylo & yhi & y & Hbracket & Hpos & Hline).
  { do 10 (destruct t as [|t]; [first [lia | reflexivity]|]). lia. }
  { lia. }
  split; [exact Hflag|].
  destruct Hbracket as (Hbetween & Hlo & Hhi & _ & Hylo & Hyhi).
  destruct (gap_valid_frames lo Hlo) as [->| ->]; [|lia].
  destruct (gap_valid_frames hi Hhi) as [->| ->]; [lia|].
  vm_compute in Hylo, Hyhi. inversion Hylo. inversion Hyhi. subst ylo yhi.
  unfold on_line in Hline. simpl in Hline.
  inversion Hline as [|ends v rest y' Hv Hrest]. subst.
  inversion Hrest. subst.
  exists v. split; [exact Hpos|].
  rewrite Hv. simpl. field.
Qed.

Section occlusion_properties.
Context {G : Type} `{RandomSource G}.

(** C5.  On a record of [T] frames and [V] joints the interpolation
    returns the record with new keypoints and a new mask of the same
    extents, and treats every joint [k] on its own: with fewer than two
    valid frames the joint is untouched; otherwise the frames that are
    invalid and lie strictly between its first and its last valid frame are
    marked valid and receive, coordinate by coordinate, the value
    [ylo + (yhi - ylo) * (t - lo) / (hi - lo)] of the line through the
    positions [ylo] and [yhi] of their two valid neighbours [lo] and [hi],
    and every other frame keeps its position and its flag. *)
Theorem C5_interpolation_per_joint (data : Arrays) (kp : list kframe)
    (inv : list mframe) (T V : nat) (g : G) :
  data !! "keypoints" = Some (FloatArr kp) →
  data !! "invalid" = Some (BoolArr inv) →
  length kp = T → length inv = T →
  Forall (fun f => length f = V) kp → Forall (fun r => length r = V) inv →
  ∃ (kp' : list kframe) (inv' : list mframe),
    occlusion.InterpolateOcclusions_apply data g
    = Ok (<["invalid" := BoolArr inv']> (<["keypoints" := FloatArr kp']> data), g)
    ∧ length kp' = T ∧ length inv' = T
    ∧ Forall (fun f => length f = V) kp' ∧ Forall (fun r => length r = V) inv'
    ∧ ∀ k, (k < V)%nat →
        joint_interpolated_linearly (joint_column kp k) (joint_column inv k)
                                    (joint_column kp' k) (joint_column inv' k).
Proof.
  intros Hkp_data Hinv_data HkpT HinvT Hkp Hinv.
  unfold occlusion.InterpolateOcclusions_apply, lift, get_keypoints, get_invalid, getitem.
  rewrite Hkp_data. cbn [rbind as_float shape3].
  destruct (seq 0 (length (List.hd [] kp))) as [|j joints] eqn:Hseq.
  - (* no joint to visit *)
    exists kp, inv. split.
    { rewrite (insert_id data "keypoints" (FloatArr kp) Hkp_data).
      rewrite (insert_id data "invalid" (BoolArr inv) Hinv_data). reflexivity. }
    split; [exact HkpT|]. split; [exact HinvT|]. split; [exact Hkp|]. split; [exact Hinv|].
    intros k Hk. destruct kp as [|f kp].
    + simpl in HkpT. subst T. destruct inv; [|discriminate].
      apply joint_interpolated_on_line, joint_interpolated_refl. simpl. lia.
    + exfalso. simpl in Hseq. apply Forall_cons in Hkp as [Hf _].
      rewrite Hf in Hseq. destruct V; [lia|discriminate].
  - rewrite Hinv_data. cbn [rbind as_bool].
    assert (HV : length (List.hd [] kp) = V).
    { destruct kp as [|f kp]; [discriminate|]. apply Forall_cons in Hkp as [Hf _]. exact Hf. }
    rewrite HV in Hseq.
    destruct (interpolate_joints_spec (length kp) V (seq 0 V)) with (kp := kp) (inv := inv)
      as (kp' & inv' & Hrun & Hlen' & Hleni' & Hrect' & Hrecti' & Hdone & _).
    + apply NoDup_seq.
    + apply Forall_forall. intros k Hk. apply elem_of_seq in Hk. lia.
    + reflexivity.
    + lia.
    + exact Hkp.
    + exact Hinv.
    + rewrite Hseq in Hrun. rewrite Hrun. cbn [rbind fst snd].
      exists kp', inv'. split; [reflexivity|]. split; [lia|]. split; [lia|].
      split; [exact Hrect'|]. split; [exact Hrecti'|].
      intros k Hk. apply joint_interpolated_on_line, Hdone. apply elem_of_seq. lia.
Qed.

End occlusion_properties.

Lemma C5_witness :
  ∃ (kp' : list kframe) (inv' : list mframe),
    occlusion.InterpolateOcclusions_apply examples.gap_data ([] : list Q)
    = Ok (<["invalid" := BoolArr inv']>
            (<["keypoints" := FloatArr kp']> examples.gap_data), [])
    ∧ joint_interpolated_linearly (joint_column examples.gap_keypoints 0)
                                  (joint_column examples.gap_invalid 0)
                                  (joint_column kp' 0) (joint_column inv' 0)
    ∧ ∀ t, (0 < t < 10)%nat →
        joint_column inv' 0 !! t = Some false
        ∧ ∃ v, joint_column kp' 0 !! t = Some [v] ∧ (v == inject_Z (Z.of_nat t))%Q.
Proof.
  destruct (C5_interpolation_per_joint
              examples.gap_data examples.gap_keypoints examples.gap_invalid 13 1
              ([] : list Q))
    as (kp' & inv' & Hrun & _ & _ & _ & _ & Hjoints).
  - reflexivity.
  - reflexivity.
  - reflexivity.
  - reflexivity.
  - repeat constructor.
  - repeat constructor.
  - exists kp', inv'. split; [exact Hrun|].
    assert (Hjoint := Hjoints 0%nat ltac:(lia)).
    split; [exact Hjoint|]. apply gap_values. exact Hjoint.
Defined.

(** The example of the specification: frames 1 to 9 receive the values 1
    to 9 and become valid, frames 11 and 12 stay as they are. *)
Example interpolation_evaluated :
  ∃ (kp' : list kframe) (inv' : list mframe),
    occlusion.InterpolateOcclusions_apply examples.gap_data ([] : list Q)
    = Ok (examples.record kp' inv', [])
    ∧ map (map (map Qred)) kp'
      = map (fun t => [[if (t <=? 10)%nat then inject_Z (Z.of_nat t) else (-1)%Q]])
            (seq 0 13)
    ∧ inv' = map (fun t => [(10 <? t)%nat]) (seq 0 13).
Proof.
  eexists _, _. split; [vm_compute; reflexivity|]. split; vm_compute; reflexivity.
Qed.

(** ** select.py: the window of highest movement *)

Lemma py_slice_from_1 {A : Type} (l : list A) : py_slice l (Some 1%Z) None = drop 1 l.
Proof.
  unfold py_slice, slice_bound. cbn [from_option].
  change (1 <? 0)%Z with false. cbv iota.
  destruct l as [|x l]; [reflexivity|].
  replace (Z.to_nat (Z.min 1 (Z.of_nat (length (x :: l))))) with 1%nat
    by (cbn [length]; lia).
  apply take_ge. rewrite length_drop. lia.
Qed.

Lemma py_slice_to_last {A : Type} (l : list A) :
  py_slice l None (Some (-1)%Z) = take (length l - 1) l.
Proof.
  unfold py_slice, slice_bound. cbn [from_option].
  change (-1 <? 0)%Z with true. cbv iota.
  replace (Z.to_nat (Z.max 0 (Z.of_nat (length l) + -1))) with (length l - 1)%nat by lia.
  rewrite Nat.sub_0_r. reflexivity.
Qed.

Lemma py_slice_window {A : Type} (l : list A) (i s : nat) :
  py_slice l (Some (Z.of_nat i)) (Some (Z.of_nat i + Z.of_nat s)%Z) = take s (drop i l).
Proof.
  unfold py_slice, slice_bound. cbn [from_option].
  destruct (Z.ltb_spec (Z.of_nat i) 0); [lia|].
  destruct (Z.ltb_spec (Z.of_nat i + Z.of_nat s) 0); [lia|].
  replace (Z.to_nat (Z.min (Z.of_nat i) (Z.of_nat (length l))))
    with (Nat.min i (length l)) by lia.
  replace (Z.to_nat (Z.min (Z.of_nat i + Z.of_nat s) (Z.of_nat (length l))))
    with (Nat.min (i + s) (length l)) by lia.
  destruct (Nat.le_gt_cases (length l) i) as [Hle|Hgt].
  - rewrite !Nat.min_r by lia. rewrite (drop_ge l (length l)) by lia.
    rewrite (drop_ge l i) by lia. rewrite !take_nil. reflexivity.
  - rewrite (Nat.min_l i) by lia.
    destruct (Nat.le_gt_cases (i + s) (length l)) as [Hfit|Hover].
    + rewrite Nat.min_l by lia. f_equal. lia.
    + rewrite Nat.min_r by lia.
      rewrite (take_ge (drop i l) s) by (rewrite length_drop; lia).
      apply take_ge. rewrite length_drop. lia.
Qed.

Section movement.
Variable norm : list Q → Q.
Variable minus : Q → Q → Q.
Variable mean : list Q → Q.

Lemma differences_lookup (kp : list kframe) (f : nat) (f0 f1 : kframe) :
  kp !! f = Some f0 → kp !! (f + 1)%nat = Some f1 →
  select.differences minus kp !! f = Some (select.frame_sub minus f1 f0).
Proof.
  intros H0 H1. unfold select.differences.
  rewrite py_slice_from_1, py_slice_to_last, lookup_zip_with.
  rewrite lookup_drop. replace (1 + f)%nat with (f + 1)%nat by lia. rewrite H1. simpl.
  rewrite lookup_take_lt by (apply lookup_lt_Some in H1; lia).
  rewrite H0. reflexivity.
Qed.

Lemma differences_length (kp : list kframe) :
  length (select.differences minus kp) = (length kp - 1)%nat.
Proof.
  unfold select.differences.
  rewrite py_slice_from_1, py_slice_to_last, length_zip_with, length_drop, length_take.
  lia.
Qed.

Lemma frame_sub_lookup (f0 f1 : kframe) (k : nat) (p0 p1 : list Q) :
  f0 !! k = Some p0 → f1 !! k = Some p1 →
  select.frame_sub minus f1 f0 !! k = Some (zip_with minus p1 p0).
Proof.
  intros H0 H1. unfold select.frame_sub. rewrite lookup_zip_with, H1. simpl.
  rewrite H0. reflexivity.
Qed.

Lemma frame_sub_length (f0 f1 : kframe) :
  length (select.frame_sub minus f1 f0) = Nat.min (length f1) (length f0).
Proof. unfold select.frame_sub. apply length_zip_with. Qed.

Lemma rmapM_enumerate {A B : Type} (h : nat → A → Result B) (l : list A) :
  ∀ s : nat,
    (∀ i x, l !! i = Some x → ∃ y, h (s + i)%nat x = Ok y) →
    ∃ ys, rmapM (fun '(i, x) => h i x) (select.enumerate_from s l) = Ok ys
          ∧ length ys = length l
          ∧ ∀ i x, l !! i = Some x → ∃ y, ys !! i = Some y ∧ h (s + i)%nat x = Ok y.
Proof.
  induction l as [|x l IH]; intros s Hall.
  - exists []. split; [reflexivity|]. split; [reflexivity|].
    intros i x Hx. rewrite lookup_nil in Hx. discriminate.
  - destruct (Hall 0%nat x eq_refl) as [y Hy]. rewrite Nat.add_0_r in Hy.
    destruct (IH (S s)) as (ys & Hrun & Hlen & Hlook).
    { intros i x' Hx'. destruct (Hall (S i) x' Hx') as [y' Hy'].
      exists y'. rewrite <- Hy'. f_equal. lia. }
    exists (y :: ys). split; [|split].
    + simpl. rewrite Hy. simpl. rewrite Hrun. reflexivity.
    + simpl. rewrite Hlen. reflexivity.
    + intros i x' Hx'. destruct i as [|i].
      * simpl in Hx'. inversion Hx'. subst x'. exists y.
        rewrite Nat.add_0_r. split; [reflexivity|exact Hy].
      * simpl in Hx'. destruct (Hlook i x' Hx') as (y' & Hy' & Hh).
        exists y'. split; [exact Hy'|]. rewrite <- Hh. f_equal. lia.
Qed.

Lemma mask_entry_value (inv : list mframe) (f k : nat) (x : Q) (m0 m1 : mframe)
    (b0 b1 : bool) :
  inv !! f = Some m0 → inv !! (f + 1)%nat = Some m1 →
  m0 !! k = Some b0 → m1 !! k = Some b1 →
  select.mask_entry inv f k x = Ok (if b0 || b1 then 0%Q else x).
Proof.
  intros Hm0 Hm1 Hb0 Hb1. unfold select.mask_entry, select.mask_at.
  rewrite Hm0, Hb0. simpl. destruct b0; [reflexivity|].
  rewrite Hm1, Hb1. simpl. reflexivity.
Qed.

Lemma masked_row (inv : list mframe) (f V : nat) (f0 f1 : kframe) (m0 m1 : mframe) :
  inv !! f = Some m0 → inv !! (f + 1)%nat = Some m1 →
  length f0 = V → length f1 = V → length m0 = V → length m1 = V →
  rmapM (fun '(k, x) => select.mask_entry inv f k x)
        (select.enumerate (map norm (select.frame_sub minus f1 f0)))
  = Ok (zip_with (fun p b => masked_displacement norm minus (fst p) (snd p) (fst b) (snd b))
                 (zip f0 f1) (zip m0 m1)).
Proof.
  intros Hm0 Hm1 Hf0 Hf1 Hl0 Hl1.
  assert (Hentry : ∀ k x, map norm (select.frame_sub minus f1 f0) !! k = Some x →
            ∃ p0 p1 b0 b1,
              f0 !! k = Some p0 ∧ f1 !! k = Some p1 ∧ m0 !! k = Some b0 ∧ m1 !! k = Some b1
              ∧ x = norm (zip_with minus p1 p0)).
  { intros k x Hx. rewrite list_lookup_fmap in Hx.
    assert (Hk : (k < V)%nat).
    { destruct (select.frame_sub minus f1 f0 !! k) as [d|] eqn:Hd; [|discriminate].
      apply lookup_lt_Some in Hd. rewrite frame_sub_length in Hd. lia. }
    destruct (lookup_lt_is_Some_2 f0 k) as [p0 Hp0]; [lia|].
    destruct (lookup_lt_is_Some_2 f1 k) as [p1 Hp1]; [lia|].
    destruct (lookup_lt_is_Some_2 m0 k) as [b0 Hb0]; [lia|].
    destruct (lookup_lt_is_Some_2 m1 k) as [b1 Hb1]; [lia|].
    exists p0, p1, b0, b1. repeat (split; [assumption|]).
    rewrite (frame_sub_lookup f0 f1 k p0 p1 Hp0 Hp1) in Hx. simpl in Hx. congruence. }
  destruct (rmapM_enumerate (fun k x => select.mask_entry inv f k x)
              (map norm (select.frame_sub minus f1 f0)) 0%nat) as (ys & Hrun & Hlen & Hlook).
  { intros k x Hx. destruct (Hentry k x Hx) as (p0 & p1 & b0 & b1 & _ & _ & Hb0 & Hb1 & _).
    eexists. apply (mask_entry_value inv f k x m0 m1 b0 b1); assumption. }
  unfold select.enumerate. rewrite Hrun. f_equal.
  rewrite length_map, frame_sub_length in Hlen.
  apply list_eq. intros k.
  destruct (Nat.lt_ge_cases k V) as [Hk|Hk].
  - destruct (lookup_lt_is_Some_2 (map norm (select.frame_sub minus f1 f0)) k) as [x Hx].
    { rewrite length_map, frame_sub_length. lia. }
    destruct (Hentry k x Hx) as (p0 & p1 & b0 & b1 & Hp0 & Hp1 & Hb0 & Hb1 & ->).
    destruct (Hlook k _ Hx) as (y & Hy & Hval). simpl in Hval.
    rewrite (mask_entry_value inv f k _ m0 m1 b0 b1 Hm0 Hm1 Hb0 Hb1) in Hval.
    inversion Hval. subst y. rewrite Hy.
    rewrite !lookup_zip_with, Hp0. simpl. rewrite Hp1. simpl.
    rewrite Hb0. simpl. rewrite Hb1. reflexivity.
  - rewrite (lookup_ge_None_2 ys) by lia.
    symmetry. apply lookup_ge_None_2. rewrite !length_zip_with. lia.
Qed.

Lemma movement_scores_spec (kp : list kframe) (inv : list mframe) (T V : nat) :
  length kp = T → length inv = T →
  Forall (fun f => length f = V) kp → Forall (fun r => length r = V) inv →
  ∃ scores : list Q,
    select.movement_scores norm minus mean kp inv = Ok scores
    ∧ length scores = (T - 1)%nat
    ∧ ∀ f f0 f1 m0 m1,
        kp !! f = Some f0 → kp !! (f + 1)%nat = Some f1 →
        inv !! f = Some m0 → inv !! (f + 1)%nat = Some m1 →
        scores !! f = Some (gap_score norm minus mean f0 f1 m0 m1).
Proof.
  intros HkpT HinvT Hkp Hinv.
  set (rows := map (map norm) (select.differences minus kp)).
  assert (Hrows : ∀ f row, rows !! f = Some row →
            ∃ f0 f1 m0 m1,
              kp !! f = Some f0 ∧ kp !! (f + 1)%nat = Some f1
              ∧ inv !! f = Some m0 ∧ inv !! (f + 1)%nat = Some m1
              ∧ row = map norm (select.frame_sub minus f1 f0)).
  { intros f row Hrow. unfold rows in Hrow. rewrite list_lookup_fmap in Hrow.
    assert (Hf : (f < T - 1)%nat).
    { destruct (select.differences minus kp !! f) as [d|] eqn:Hd; [|discriminate].
      apply lookup_lt_Some in Hd. rewrite differences_length in Hd. lia. }
    destruct (lookup_lt_is_Some_2 kp f) as [f0 Hf0]; [lia|].
    destruct (lookup_lt_is_Some_2 kp (f + 1)) as [f1 Hf1]; [lia|].
    destruct (lookup_lt_is_Some_2 inv f) as [m0 Hm0]; [lia|].
    destruct (lookup_lt_is_Some_2 inv (f + 1)) as [m1 Hm1]; [lia|].
    exists f0, f1, m0, m1. repeat (split; [assumption|]).
    rewrite (differences_lookup kp f f0 f1 Hf0 Hf1) in Hrow. simpl in Hrow. congruence. }
  assert (Hrow_run : ∀ f f0 f1 m0 m1,
            kp !! f = Some f0 → kp !! (f + 1)%nat = Some f1 →
            inv !! f = Some m0 → inv !! (f + 1)%nat = Some m1 →
            rmapM (fun '(k, x) => select.mask_entry inv f k x)
                  (select.enumerate (map norm (select.frame_sub minus f1 f0)))
            = Ok (zip_with (fun p b => masked_displacement norm minus (fst p) (snd p) (fst b) (snd b))
                           (zip f0 f1) (zip m0 m1))).
  { intros f f0 f1 m0 m1 Hf0 Hf1 Hm0 Hm1.
    apply (masked_row inv f V); try assumption.
    - apply (proj1 (Forall_lookup _ _) Hkp f f0 Hf0).
    - apply (proj1 (Forall_lookup _ _) Hkp _ f1 Hf1).
    - apply (proj1 (Forall_lookup _ _) Hinv f m0 Hm0).
    - apply (proj1 (Forall_lookup _ _) Hinv _ m1 Hm1). }
  destruct (rmapM_enumerate
              (fun f frame => rmapM (fun '(k, x) => select.mask_entry inv f k x)
                                    (select.enumerate frame)) rows 0%nat)
    as (masked & Hrun & Hlen & Hlook).
  { intros f row Hrow.
    destruct (Hrows f row Hrow) as (f0 & f1 & m0 & m1 & Hf0 & Hf1 & Hm0 & Hm1 & ->).
    eexists. apply (Hrow_run f f0 f1 m0 m1); assumption. }
  exists (map mean masked). split; [|split].
  - unfold select.movement_scores, select.mask_movement.
    cbv zeta. fold rows.
    change (select.enumerate rows) with (select.enumerate_from 0 rows).
    rewrite Hrun. reflexivity.
  - rewrite length_map, Hlen. unfold rows. rewrite length_map, differences_length. lia.
  - intros f f0 f1 m0 m1 Hf0 Hf1 Hm0 Hm1.
    assert (Hrow : rows !! f = Some (map norm (select.frame_sub minus f1 f0))).
    { unfold rows. rewrite list_lookup_fmap, (differences_lookup kp f f0 f1 Hf0 Hf1).
      reflexivity. }
    destruct (Hlook f _ Hrow) as (ys & Hys & Hval). simpl in Hval.
    rewrite (Hrow_run f f0 f1 m0 m1 Hf0 Hf1 Hm0 Hm1) in Hval. inversion Hval. subst ys.
    rewrite list_lookup_fmap, Hys. reflexivity.
Qed.
End movement.

(** The state of the window search after the offsets below [n]: either a
    positive sum has been met, and the state holds the first offset of the
    greatest sum so far, or the state is still the initial one. *)
Lemma best_window_invariant (sum : list Q → Q) (scores : list Q) (s n : nat) :
  let best := fold_left (select.window_step sum scores (Z.of_nat s)) (seq 0 n) (0%Q, 0%nat) in
  ((0 < fst best)%Q ∧ (snd best < n)%nat
   ∧ fst best = sum (window scores s (snd best))
   ∧ (∀ j, (j < n)%nat → (sum (window scores s j) <= fst best)%Q)
   ∧ (∀ j, (j < snd best)%nat → (sum (window scores s j) < fst best)%Q))
  ∨ (best = (0%Q, 0%nat) ∧ ∀ j, (j < n)%nat → (sum (window scores s j) <= 0)%Q).
Proof.
  induction n as [|n IH].
  - simpl. right. split; [reflexivity|]. intros j Hj. lia.
  - rewrite seq_S, fold_left_app. simpl.
    set (best := fold_left (select.window_step sum scores (Z.of_nat s)) (seq 0 n)
                           (0%Q, 0%nat)) in *.
    assert (Hstep : select.window_step sum scores (Z.of_nat s) best n
                    = if Qltb (fst best) (sum (window scores s n))
                      then (sum (window scores s n), n) else best).
    { unfold select.window_step. rewrite py_slice_window. reflexivity. }
    rewrite Hstep.
    destruct (Qltb (fst best) (sum (window scores s n))) eqn:E.
    + apply Qltb_lt in E. left. cbn [fst snd].
      destruct IH as [(Hpos & Hlt & Heq & Hall & Hstrict)|[Hinit Hall]].
      * split; [lra|]. split; [lia|]. split; [reflexivity|]. split.
        -- intros j Hj. destruct (decide (j = n)) as [->|Hne]; [apply Qle_refl|].
           specialize (Hall j ltac:(lia)). lra.
        -- intros j Hj. specialize (Hall j Hj). lra.
      * rewrite Hinit in E. cbn [fst] in E.
        split; [exact E|]. split; [lia|]. split; [reflexivity|]. split.
        -- intros j Hj. destruct (decide (j = n)) as [->|Hne]; [apply Qle_refl|].
           specialize (Hall j ltac:(lia)). lra.
        -- intros j Hj. specialize (Hall j Hj). lra.
    + apply Qltb_ge in E.
      destruct IH as [(Hpos & Hlt & Heq & Hall & Hstrict)|[Hinit Hall]].
      * left. split; [exact Hpos|]. split; [lia|]. split; [exact Heq|]. split.
        -- intros j Hj. destruct (decide (j = n)) as [->|Hne]; [exact E|].
           apply Hall. lia.
        -- exact Hstrict.
      * right. split; [exact Hinit|].
        intros j Hj. destruct (decide (j = n)) as [->|Hne].
        -- rewrite Hinit in E. exact E.
        -- apply Hall. lia.
Qed.

Lemma best_window_spec (sum : list Q → Q) (scores : list Q) (T s : nat) :
  let m := snd (select.best_window sum scores T (Z.of_nat s)) in
  ((0 < sum (window scores s m))%Q ∧ (m < T - s)%nat
   ∧ (∀ j, (j < T - s)%nat → (sum (window scores s j) <= sum (window scores s m))%Q)
   ∧ (∀ j, (j < m)%nat → (sum (window scores s j) < sum (window scores s m))%Q))
  ∨ (m = 0%nat ∧ ∀ j, (j < T - s)%nat → (sum (window scores s j) <= 0)%Q).
Proof.
  unfold select.best_window, py_range.
  replace (Z.to_nat (Z.of_nat T - Z.of_nat s)) with (T - s)%nat by lia.
  destruct (best_window_invariant sum scores s (T - s))
    as [(Hpos & Hlt & Heq & Hall & Hstrict)|[Hinit Hall]].
  - left. cbv zeta. rewrite <- Heq. repeat split; assumption.
  - right. cbv zeta. rewrite Hinit. split; [reflexivity|exact Hall].
Qed.

Lemma window_length (scores : list Q) (T s j : nat) :
  length scores = (T - 1)%nat → (j < T - s)%nat → length (window scores s j) = s.
Proof.
  intros Hlen Hj. unfold window. rewrite length_take, length_drop. lia.
Qed.

Lemma rmapM_map {A B : Type} (f : A → Result B) (h : A → B) (l : list A) :
  Forall (fun x => f x = Ok (h x)) l → rmapM f l = Ok (map h l).
Proof.
  induction 1 as [|x l Hx _ IH]; [reflexivity|].
  simpl. rewrite Hx. simpl. rewrite IH. reflexivity.
Qed.

Lemma take_joints_in_range {A : Type} (a : list (list A)) (js : list Z) (V : nat) :
  Forall (fun row => length row = V) a →
  Forall (fun j => (0 ≤ j < Z.of_nat V)%Z) js →
  select.take_joints a js = Ok (restrict_joints js a).
Proof.
  intros Hrect Hrange. unfold select.take_joints, restrict_joints.
  apply rmapM_map. eapply Forall_impl; [exact Hrect|].
  intros row Hrow. simpl in Hrow. apply fancy_get_in_range. rewrite Hrow. exact Hrange.
Qed.

Lemma restrict_joints_rect {A : Type} (a : list (list A)) (js : list Z) (V : nat) :
  Forall (fun row => length row = V) a →
  Forall (fun j => (0 ≤ j < Z.of_nat V)%Z) js →
  length (restrict_joints js a) = length a
  ∧ Forall (fun row => length row = length js) (restrict_joints js a).
Proof.
  intros Hrect Hrange. unfold restrict_joints. split; [apply length_map|].
  apply Forall_fmap. eapply Forall_impl; [exact Hrect|].
  intros row Hrow. simpl in *. apply omap_total_length.
  apply in_range_lookups. rewrite Hrow. exact Hrange.
Qed.

Lemma arange_nat (m s : nat) :
  arange (Z.of_nat m) (Z.of_nat m + Z.of_nat s) = map Z.of_nat (seq m s).
Proof.
  unfold arange.
  replace (Z.to_nat (Z.of_nat m + Z.of_nat s - Z.of_nat m)) with s by lia.
  assert (Hgen : ∀ o : nat,
            map (fun k => (Z.of_nat m + Z.of_nat k)%Z) (seq o s)
            = map Z.of_nat (seq (m + o) s)).
  { induction s as [|s IH]; intros o; [reflexivity|].
    cbn [seq map]. f_equal; [lia|]. rewrite IH. f_equal. f_equal. lia. }
  rewrite Hgen, Nat.add_0_r. reflexivity.
Qed.

Lemma considered_rect {A : Type} (part : option (list Z)) (a : list (list A)) (V : nat) :
  Forall (fun row => length row = V) a →
  (∀ js, select.part_given part = Some js → Forall (fun j => (0 ≤ j < Z.of_nat V)%Z) js) →
  length (considered part a) = length a
  ∧ ∃ V', Forall (fun row => length row = V') (considered part a).
Proof.
  intros Hrect Hpart. unfold considered.
  destruct (select.part_given part) as [js|] eqn:Hgiven.
  - destruct (restrict_joints_rect a js V Hrect (Hpart js eq_refl)) as [Hlen Hrows].
    split; [exact Hlen|]. exists (length js). exact Hrows.
  - split; [reflexivity|]. exists V. exact Hrect.
Qed.

Section high_movement_properties.
Context {G : Type} `{RandomSource G}.
Variable norm : list Q → Q.
Variable argsort : list Q → list Z.
Variable minus : Q → Q → Q.
Variable mean : list Q → Q.
Variable sum : list Q → Q.

(** C2.  On a record of [T] frames with a pre-sampled window size [s], the
    contiguous highest-movement selection computes one score per
    frame-to-frame gap, the mean over the joints of the displacement norms
    zeroed where either frame has the joint invalid, and returns the [s]
    frames from a start offset [m].  The search evaluates the start offsets
    below [T - s] only, at each of them the sum of the [s] scores from it
    on; the offset [T - s] is neither evaluated nor returned.  When an
    evaluated sum is positive, [m] is the first offset of the greatest
    evaluated sum: no evaluated sum is greater and every earlier one is
    strictly smaller.  Otherwise [m] is 0.  The norm, the subtraction, the
    mean and the sum are those of the arrays, whatever their rounding. *)
Theorem C2_highest_movement_window (self : select.SelectHighMovement G)
    (data : Arrays) (kp : list kframe) (inv : list mframe) (T V s : nat) (g : G) :
  data !! "keypoints" = Some (FloatArr kp) →
  data !! "invalid" = Some (BoolArr inv) →
  length kp = T → length inv = T →
  Forall (fun f => length f = V) kp → Forall (fun r => length r = V) inv →
  select.contiguous self = true →
  select.size self = Z.of_nat s →
  (∀ js, select.part_given (select.part self) = Some js →
         Forall (fun j => (0 ≤ j < Z.of_nat V)%Z) js) →
  ∃ (scores : list Q) (m : nat),
    select.movement_scores norm minus mean (considered (select.part self) kp)
                           (considered (select.part self) inv) = Ok scores
    ∧ length scores = (T - 1)%nat
    ∧ (∀ f f0 f1 m0 m1,
         considered (select.part self) kp !! f = Some f0 →
         considered (select.part self) kp !! (f + 1)%nat = Some f1 →
         considered (select.part self) inv !! f = Some m0 →
         considered (select.part self) inv !! (f + 1)%nat = Some m1 →
         scores !! f = Some (gap_score norm minus mean f0 f1 m0 m1))
    ∧ select.SelectHighMovement_get_selection norm argsort minus mean sum self data g
      = Ok (map Z.of_nat (seq m s), g)
    ∧ (∀ j, (j < T - s)%nat → length (window scores s j) = s)
    ∧ ((s < T)%nat → (m < T - s)%nat)
    ∧ (((0 < sum (window scores s m))%Q ∧ (m < T - s)%nat
        ∧ (∀ j, (j < T - s)%nat →
                (sum (window scores s j) <= sum (window scores s m))%Q)
        ∧ (∀ j, (j < m)%nat →
                (sum (window scores s j) < sum (window scores s m))%Q))
       ∨ (m = 0%nat ∧ ∀ j, (j < T - s)%nat → (sum (window scores s j) <= 0)%Q)).
Proof.
  intros Hkp_data Hinv_data HkpT HinvT Hkp Hinv Hcont Hsize Hpart.
  destruct (considered_rect (select.part self) kp V Hkp Hpart) as [Hlen_kp [Vk Hrect_kp]].
  destruct (considered_rect (select.part self) inv V Hinv Hpart) as [Hlen_inv [Vi Hrect_inv]].
  assert (HV : length (considered (select.part self) kp) = 0%nat ∨ Vk = Vi).
  { unfold considered in *. destruct (select.part_given (select.part self)) as [js|] eqn:Hg.
    - destruct (restrict_joints_rect kp js V Hkp (Hpart js eq_refl)) as [_ Hk].
      destruct (restrict_joints_rect inv js V Hinv (Hpart js eq_refl)) as [_ Hi].
      destruct (restrict_joints js kp) as [|f0 r0] eqn:Er; [left; reflexivity|right].
      destruct (restrict_joints js inv) as [|m0 r1] eqn:Ei.
      + simpl in Hlen_kp, Hlen_inv. lia.
      + apply Forall_cons in Hk as [Hk _], Hi as [Hi _].
        apply Forall_cons in Hrect_kp as [Hk' _], Hrect_inv as [Hi' _]. lia.
    - destruct kp as [|f0 r0]; [left; reflexivity|right].
      destruct inv as [|m0 r1]; [simpl in *; lia|].
      apply Forall_cons in Hkp as [Hk _], Hinv as [Hi _].
      apply Forall_cons in Hrect_kp as [Hk' _], Hrect_inv as [Hi' _]. lia. }
  assert (Hrect_inv' : Forall (fun r => length r = Vk) (considered (select.part self) inv)).
  { destruct HV as [Hempty| ->]; [|exact Hrect_inv].
    destruct (considered (select.part self) inv); [constructor|].
    simpl in *. lia. }
  destruct (movement_scores_spec norm minus mean (considered (select.part self) kp)
              (considered (select.part self) inv) T Vk)
    as (scores & Hscores & Hlen & Hgap); try lia; try assumption.
  pose proof (best_window_spec sum scores T s) as Hbest. cbv zeta in Hbest.
  exists scores, (snd (select.best_window sum scores T (Z.of_nat s))).
  split; [exact Hscores|]. split; [exact Hlen|]. split; [exact Hgap|].
  split; [|split; [|split; [|exact Hbest]]].
  - unfold select.SelectHighMovement_get_selection, lift, get_keypoints, get_invalid, getitem.
    rewrite Hkp_data, Hinv_data. cbn [rbind as_float as_bool].
    assert (Hsel : (match select.part_given (select.part self) with
                    | Some js =>
                        let? kp0 := select.take_joints kp js in
                        let? inv0 := select.take_joints inv js in Ok (kp0, inv0)
                    | None => Ok (kp, inv)
                    end)
                   = Ok (considered (select.part self) kp, considered (select.part self) inv)).
    { unfold considered. destruct (select.part_given (select.part self)) as [js|] eqn:Hg.
      - rewrite (take_joints_in_range kp js V Hkp (Hpart js eq_refl)).
        rewrite (take_joints_in_range inv js V Hinv (Hpart js eq_refl)). reflexivity.
      - reflexivity. }
    rewrite Hsel. cbn [rbind fst snd]. rewrite Hscores. cbn [rbind].
    rewrite Hcont, Hsize, HkpT. rewrite arange_nat. reflexivity.
  - intros j Hj. apply (window_length scores T s j Hlen Hj).
  - intros Hroom. destruct Hbest as [(_ & Hm & _)|[Hm _]]; [exact Hm|].
    rewrite Hm. lia.
Qed.

End high_movement_properties.

Lemma C2_witness :
  ∃ (scores : list Q) (m : nat),
    select.movement_scores examples.abs_norm Qminus Qmean examples.spike_keypoints
                           (examples.all_valid 5 1) = Ok scores
    ∧ select.SelectHighMovement_get_selection examples.abs_norm
        examples.identity_argsort Qminus Qmean Qsum examples.spike_select
        examples.spike_data ([] : list Q) = Ok (map Z.of_nat (seq m 1), [])
    ∧ m = 2%nat
    ∧ (m < 5 - 1)%nat
    ∧ (0 < Qsum (window scores 1 m))%Q
    ∧ (∀ j, (j < 5 - 1)%nat → (Qsum (window scores 1 j) <= Qsum (window scores 1 m))%Q)
    ∧ (∀ j, (j < m)%nat → (Qsum (window scores 1 j) < Qsum (window scores 1 m))%Q).
Proof.
  destruct (C2_highest_movement_window
              examples.abs_norm examples.identity_argsort Qminus Qmean Qsum
              examples.spike_select examples.spike_data examples.spike_keypoints
              (examples.all_valid 5 1) 5 1 1 ([] : list Q))
    as (scores & m & Hscores & _ & _ & Hsel & _ & Hbound & Hcase).
  - reflexivity.
  - reflexivity.
  - reflexivity.
  - reflexivity.
  - repeat constructor.
  - repeat constructor.
  - reflexivity.
  - reflexivity.
  - intros js Hjs. discriminate.
  - assert (Hm : m = 2%nat).
    { assert (Hrun : select.SelectHighMovement_get_selection examples.abs_norm
                       examples.identity_argsort Qminus Qmean Qsum examples.spike_select
                       examples.spike_data ([] : list Q) = Ok ([2%Z], []))
        by (vm_compute; reflexivity).
      pose proof Hsel as Hm. rewrite Hrun in Hm. cbn [seq map] in Hm.
      assert (Hz : Z.of_nat m = 2%Z) by congruence. lia. }
    exists scores, m. split; [exact Hscores|]. split; [exact Hsel|].
    split; [exact Hm|]. split; [apply Hbound; lia|].
    destruct Hcase as [(Hpos & _ & Hmax & Hfirst)|[Hzero _]]; [|lia].
    split; [exact Hpos|]. split; [exact Hmax|exact Hfirst].
Defined.

(** The spike lies between frames 2 and 3 and between frames 3 and 4: the
    two gaps tie, and the earlier window, frame 2, is returned. *)
Example high_movement_evaluated :
  select.SelectHighMovement_get_selection examples.abs_norm
    examples.identity_argsort Qminus Qmean Qsum examples.spike_select
    examples.spike_data ([] : list Q)
  = Ok ([2%Z], []).
Proof. vm_compute. reflexivity. Qed.

(** C2, the claim as worded: the start offsets run through [T - s]
    inclusive and the frames of the greatest movement are returned.  On
    three frames of one joint at the positions 0, 0 and 10, with the window
    size 2, the gap scores are 0 and 10 and the start offset [1 = T - s] is
    that of the frames 1 and 2, the ones the joint moves between.  The
    search evaluates the offset 0 only and returns the frames 0 and 1,
    between which nothing moves. *)
Lemma C2_counterexample :
  select.movement_scores examples.abs_norm Qminus Qmean examples.last_gap_keypoints
                         (examples.all_valid 3 1) = Ok [0; 10]%Q
  ∧ select.SelectHighMovement_get_selection examples.abs_norm
      examples.identity_argsort Qminus Qmean Qsum examples.last_gap_select
      examples.last_gap_data ([] : list Q) = Ok ([0; 1]%Z, [])
  ∧ py_range (Z.of_nat 3 - select.size examples.last_gap_select) = [0%nat]
  ∧ (1 <= 3 - 2)%nat
  ∧ gaps_inside [0; 10]%Q 2 0 = [0]%Q
  ∧ gaps_inside [0; 10]%Q 2 1 = [10]%Q
  ∧ (Qsum (gaps_inside [0; 10]%Q 2 0) < Qsum (gaps_inside [0; 10]%Q 2 1))%Q.
Proof.
  split; [vm_compute; reflexivity|]. split; [vm_compute; reflexivity|].
  split; [reflexivity|]. split; [lia|]. split; [reflexivity|].
  split; [reflexivity|]. vm_compute. reflexivity.
Qed.

(** ** perturbation.py: the clipping of a jittered joint *)

Section clipping.
Open Scope Q_scope.

Lemma div_or_inf_zero (x d : Q) : d == 0 → perturbation.div_or_inf x d = 0.
Proof.
  intros Hd. unfold perturbation.div_or_inf.
  destruct (Qeq_bool d 0) eqn:Hz; [reflexivity|].
  apply Qeq_bool_neq in Hz. contradiction.
Qed.

Lemma div_or_inf_quotient (x d : Q) :
  ¬ d == 0 → perturbation.div_or_inf x d * d == x.
Proof.
  intros Hd. unfold perturbation.div_or_inf.
  destruct (Qeq_bool d 0) eqn:Hz.
  - apply Qeq_bool_iff in Hz. contradiction.
  - field. exact Hd.
Qed.

End clipping.

Section clipped_point.
Open Scope Q_scope.

Lemma fold_left_Qmin_le (rest : list Q) :
  ∀ x0 y, y ∈ x0 :: rest → fold_left Qmin rest x0 <= y.
Proof.
  induction rest as [|r rest IH]; intros x0 y Hy; simpl.
  - apply list_elem_of_singleton in Hy as ->. apply Qle_refl.
  - apply elem_of_cons in Hy as [->|Hy].
    + eapply Qle_trans; [apply IH; left|apply Q.le_min_l].
    + apply elem_of_cons in Hy as [->|Hy].
      * eapply Qle_trans; [apply IH; left|apply Q.le_min_r].
      * apply IH. right. exact Hy.
Qed.

Lemma fold_left_Qmax_ge (rest : list Q) :
  ∀ x0 y, y ∈ x0 :: rest → y <= fold_left Qmax rest x0.
Proof.
  induction rest as [|r rest IH]; intros x0 y Hy; simpl.
  - apply list_elem_of_singleton in Hy as ->. apply Qle_refl.
  - apply elem_of_cons in Hy as [->|Hy].
    + eapply Qle_trans; [apply Q.le_max_l|apply IH; left].
    + apply elem_of_cons in Hy as [->|Hy].
      * eapply Qle_trans; [apply Q.le_max_r|apply IH; left].
      * apply IH. right. exact Hy.
Qed.

Lemma elem_of_compress {A : Type} (x : A) :
  ∀ (l : list A) (mask : list bool) (k : nat),
    l !! k = Some x → mask !! k = Some true → x ∈ compress l mask.
Proof.
  induction l as [|y l IH]; intros [|b mask] [|k] Hl Hm; simpl in *; try discriminate.
  - injection Hl as ->. injection Hm as ->. left.
  - destruct b; [right|]; apply (IH mask k); assumption.
Qed.

Lemma masked_min_le (xs : list Q) (valid : list bool) (k : nat) (x : Q) :
  xs !! k = Some x → valid !! k = Some true →
  perturbation.masked_extreme Qmin xs valid <= x.
Proof.
  intros Hx Hv. pose proof (elem_of_compress x xs valid k Hx Hv) as Hin.
  unfold perturbation.masked_extreme.
  destruct (compress xs valid) as [|x0 rest]; [inversion Hin|].
  apply fold_left_Qmin_le. exact Hin.
Qed.

Lemma masked_max_ge (xs : list Q) (valid : list bool) (k : nat) (x : Q) :
  xs !! k = Some x → valid !! k = Some true →
  x <= perturbation.masked_extreme Qmax xs valid.
Proof.
  intros Hx Hv. pose proof (elem_of_compress x xs valid k Hx Hv) as Hin.
  unfold perturbation.masked_extreme.
  destruct (compress xs valid) as [|x0 rest]; [inversion Hin|].
  apply fold_left_Qmax_ge. exact Hin.
Qed.

(** A joint that is valid in a frame lies inside the bounding box of the
    valid joints of the frame. *)
Lemma valid_joint_inside_box (frame : kframe) (invalid : mframe) (k : nat) (x y : Q) :
  frame !! k = Some [x; y] → invalid !! k = Some false →
  inside_box [x; y] (perturbation.bottom_left_of frame invalid)
             (perturbation.top_right_of frame invalid).
Proof.
  intros Hk Hv.
  assert (Hvalid : map negb invalid !! k = Some true).
  { change (map negb invalid) with (negb <$> invalid).
    rewrite list_lookup_fmap, Hv. reflexivity. }
  assert (Haxis : ∀ c, perturbation.axis_values frame c !! k = Some (nth c [x; y] 0)).
  { intros c. unfold perturbation.axis_values.
    change (map ?f frame) with (f <$> frame).
    rewrite list_lookup_fmap, Hk. reflexivity. }
  unfold perturbation.bottom_left_of, perturbation.top_right_of. cbn [map].
  split; repeat constructor.
  - exact (masked_min_le _ _ k x (Haxis 0%nat) Hvalid).
  - exact (masked_min_le _ _ k y (Haxis 1%nat) Hvalid).
  - exact (masked_max_ge _ _ k x (Haxis 0%nat) Hvalid).
  - exact (masked_max_ge _ _ k y (Haxis 1%nat) Hvalid).
Qed.

End clipped_point.

Section backward_distance.
Open Scope Q_scope.

(** One axis under a negative distance: neither backward distance is
    positive and one of them is zero. *)
Lemma axis_not_clipped (k bl tr d dist : Q) :
  bl <= k → k <= tr → dist < 0 →
  let k' := k + dist * d in
  let eb := perturbation.div_or_inf (if Qltb 0 (k' - bl) then 0 else k' - bl) d in
  let et := perturbation.div_or_inf (if Qltb (k' - tr) 0 then 0 else k' - tr) d in
  eb <= 0 ∧ et <= 0 ∧ (eb == 0 ∨ et == 0).
Proof.
  intros Hbl Htr Hdist k' eb et.
  destruct (Qeq_dec d 0) as [Hd|Hd].
  - assert (Heb : eb = 0) by (apply div_or_inf_zero; exact Hd).
    assert (Het : et = 0) by (apply div_or_inf_zero; exact Hd).
    rewrite Heb, Het. repeat split; lra.
  - assert (Heb : eb * d == (if Qltb 0 (k' - bl) then 0 else k' - bl))
      by (apply div_or_inf_quotient; exact Hd).
    assert (Het : et * d == (if Qltb (k' - tr) 0 then 0 else k' - tr))
      by (apply div_or_inf_quotient; exact Hd).
    clearbody eb et.
    assert (Hk' : k' == k + dist * d) by reflexivity. clearbody k'.
    destruct (Qlt_le_dec 0 d) as [Hpos|Hneg].
    + assert (Het0 : et == 0).
      { destruct (Qltb (k' - tr) 0) eqn:Ht.
        - nra.
        - apply Qltb_ge in Ht. nra. }
      split; [|split; [lra|right; exact Het0]].
      destruct (Qltb 0 (k' - bl)) eqn:Hb.
      * nra.
      * apply Qltb_ge in Hb. nra.
    + assert (Hneg' : d < 0) by (destruct (Qle_lt_or_eq _ _ Hneg); [assumption|contradiction]).
      assert (Heb0 : eb == 0).
      { destruct (Qltb 0 (k' - bl)) eqn:Hb.
        - nra.
        - apply Qltb_ge in Hb. nra. }
      split; [lra|split; [|left; exact Heb0]].
      destruct (Qltb (k' - tr) 0) eqn:Ht.
      * nra.
      * apply Qltb_ge in Ht. nra.
Qed.

(** Under a negative distance the clipping never moves the displaced
    point, wherever it lies. *)
Lemma clip_idle_for_negative_distance (kx ky blx bly trx try dx dy dist : Q) :
  inside_box [kx; ky] [blx; bly] [trx; try] → dist < 0 →
  Forall2 Qeq
    (perturbation._clip_bb (perturbation.displace [kx; ky] dist [dx; dy])
       [blx; bly] [trx; try] [dx; dy])
    (perturbation.displace [kx; ky] dist [dx; dy]).
Proof.
  intros [Hlow Hhigh] Hdist.
  apply Forall2_cons in Hlow as [Hblx Hlow]. apply Forall2_cons in Hlow as [Hbly _].
  apply Forall2_cons in Hhigh as [Htrx Hhigh]. apply Forall2_cons in Hhigh as [Htry _].
  pose proof (axis_not_clipped kx blx trx dx dist Hblx Htrx Hdist) as Hx.
  pose proof (axis_not_clipped ky bly try dy dist Hbly Htry Hdist) as Hy.
  cbv zeta in Hx, Hy.
  destruct Hx as (Hebx & Hetx & Hx0). destruct Hy as (Heby & Hety & Hy0).
  unfold perturbation._clip_bb, perturbation.displace.
  cbn [zip_with map app perturbation.maximum fold_left perturbation.any_lt zip existsb].
  set (k'x := kx + dist * dx) in *. set (k'y := ky + dist * dy) in *.
  destruct (Qltb k'x blx || (Qltb k'y bly || false)
            || (Qltb trx k'x || (Qltb try k'y || false))).
  - set (ebx := perturbation.div_or_inf (if Qltb 0 (k'x - blx) then 0 else k'x - blx) dx) in *.
    set (eby := perturbation.div_or_inf (if Qltb 0 (k'y - bly) then 0 else k'y - bly) dy) in *.
    set (etx := perturbation.div_or_inf (if Qltb (k'x - trx) 0 then 0 else k'x - trx) dx) in *.
    set (ety := perturbation.div_or_inf (if Qltb (k'y - try) 0 then 0 else k'y - try) dy) in *.
    set (dm := Qmax (Qmax (Qmax ebx eby) etx) ety).
    assert (H1 : Qmax ebx eby <= Qmax (Qmax ebx eby) etx) by apply Q.le_max_l.
    assert (H2 : Qmax (Qmax ebx eby) etx <= dm) by apply Q.le_max_l.
    assert (Hbx : ebx <= dm).
    { eapply Qle_trans; [apply Q.le_max_l|]. eapply Qle_trans; [exact H1|exact H2]. }
    assert (Htx : etx <= dm).
    { eapply Qle_trans; [apply Q.le_max_r|exact H2]. }
    assert (Hdm : dm <= 0).
    { unfold dm. repeat apply Q.max_lub; assumption. }
    assert (Hdm0 : dm == 0).
    { apply Qle_antisym; [exact Hdm|]. destruct Hx0 as [Hz|Hz]; rewrite <- Hz; assumption. }
    repeat constructor; rewrite Hdm0; ring.
  - repeat constructor; reflexivity.
Qed.

End backward_distance.

(** C6 (clipping within the bounding box), on a distance range below
    zero, which the constructor accepts.
    [Jittering(angles=(0, 0), distance=(-2, -2), keypoint=1)] is
    constructed; on one frame with the valid joints (0, 0) and (1, 1),
    whose bounding box is the unit square, it moves joint 1 to (-1, 1) and
    the clipping leaves it there: the final point lies outside the
    bounding box. *)
Theorem C6_negative_distance_leaves_box :
  perturbation.Jittering_init examples.deg2rad (0, 0)%Q (-2, -2)%Q (Some 1%Z) false 1
  = Ok examples.backward_jittering
  ∧ examples.corner_frame !! 1%nat = Some [1; 1]%Q
  ∧ perturbation.bottom_left_of examples.corner_frame [false; false] = [0; 0]%Q
  ∧ perturbation.top_right_of examples.corner_frame [false; false] = [1; 1]%Q
  ∧ perturbation.Jittering_apply examples.cos_poly examples.sin_poly
      examples.backward_jittering examples.corner_data []
    = Ok (examples.record [[[0; 0]; [-1; 1]]]%Q (examples.all_valid 1 2), [])
  ∧ ¬ inside_box [-1; 1]%Q [0; 0]%Q [1; 1]%Q.
Proof.
  repeat split; try (vm_compute; reflexivity).
  intros [Hlow _]. apply Forall2_cons in Hlow as [Hle _].
  revert Hle. apply Qlt_not_le. reflexivity.
Qed.

Lemma clip_idle_for_negative_distance_witness :
  Forall2 Qeq
    (perturbation._clip_bb (perturbation.displace [1; 1]%Q (-2) [1; 0]%Q)
       [0; 0]%Q [1; 1]%Q [1; 0]%Q)
    (perturbation.displace [1; 1]%Q (-2) [1; 0]%Q).
Proof.
  apply (clip_idle_for_negative_distance 1 1 0 0 1 1 1 0 (-2)).
  - split; repeat constructor; discriminate.
  - reflexivity.
Defined.

Lemma valid_joint_inside_box_witness :
  inside_box [1; 1]%Q
    (perturbation.bottom_left_of examples.corner_frame [false; false])
    (perturbation.top_right_of examples.corner_frame [false; false]).
Proof.
  apply (valid_joint_inside_box examples.corner_frame [false; false] 1 1 1);
    reflexivity.
Defined.

(** ** Every operation keeps the shapes *)

Lemma map_eq_repeat {A B : Type} (h : A → B) (l : list A) (x : B) (n : nat) :
  map h l = repeat x n ↔ length l = n ∧ Forall (fun y => h y = x) l.
Proof.
  revert n. induction l as [|y l IH]; intros [|n]; simpl.
  - split; [intros _; split; [reflexivity|constructor]|reflexivity].
  - split; [discriminate|intros [Hn _]; discriminate].
  - split; [discriminate|intros [Hn _]; discriminate].
  - rewrite Forall_cons. split.
    + intros Heq. injection Heq as Hy Hl. apply IH in Hl as [Hlen Hall].
      split; [lia|]. split; assumption.
    + intros [Hlen [Hy Hall]]. f_equal; [exact Hy|]. apply IH. split; [lia|exact Hall].
Qed.

Lemma has_shape_inv (T V C : nat) (data : Arrays) :
  has_shape T V C data ↔
  ∃ (kp : list kframe) (inv : list mframe),
    data !! "keypoints" = Some (FloatArr kp) ∧ data !! "invalid" = Some (BoolArr inv)
    ∧ map kframe_shape kp = repeat (repeat C V) T
    ∧ map mframe_shape inv = repeat V T.
Proof.
  unfold has_shape, record_shapes. split.
  - intros Heq. injection Heq as Hk Hi.
    destruct (data !! "keypoints") as [[kp|m]|]; simpl in Hk; try discriminate.
    destruct (data !! "invalid") as [[kp'|inv]|]; simpl in Hi; try discriminate.
    exists kp, inv. injection Hk as Hk. injection Hi as Hi. auto.
  - intros (kp & inv & -> & -> & Hk & Hi). simpl. rewrite Hk, Hi. reflexivity.
Qed.

Lemma has_shape_set_keypoints (T V C : nat) (data : Arrays) (kp' : list kframe) :
  has_shape T V C data → map kframe_shape kp' = repeat (repeat C V) T →
  has_shape T V C (<["keypoints" := FloatArr kp']> data).
Proof.
  intros Hshape Hkp'. apply has_shape_inv in Hshape as (kp & inv & Hk & Hi & _ & Hinv).
  apply has_shape_inv. exists kp', inv. rewrite lookup_insert_eq.
  rewrite lookup_insert_ne by discriminate. auto.
Qed.

Lemma has_shape_set_invalid (T V C : nat) (data : Arrays) (inv' : list mframe) :
  has_shape T V C data → map mframe_shape inv' = repeat V T →
  has_shape T V C (<["invalid" := BoolArr inv']> data).
Proof.
  intros Hshape Hinv'. apply has_shape_inv in Hshape as (kp & inv & Hk & Hi & Hkp & _).
  apply has_shape_inv. exists kp, inv'. rewrite lookup_insert_eq.
  rewrite lookup_insert_ne by discriminate. auto.
Qed.

Lemma has_shape_same_arrays (T V C : nat) (data data' : Arrays) :
  data' !! "keypoints" = data !! "keypoints" → data' !! "invalid" = data !! "invalid" →
  has_shape T V C data → has_shape T V C data'.
Proof.
  unfold has_shape, record_shapes. intros -> ->. auto.
Qed.

Lemma get_keypoints_Ok (data : Arrays) (kp : list kframe) :
  get_keypoints data = Ok kp ↔ data !! "keypoints" = Some (FloatArr kp).
Proof.
  unfold get_keypoints, getitem. destruct (data !! "keypoints") as [[l|l]|]; simpl;
    split; intros Heq; try discriminate; congruence.
Qed.

Lemma get_invalid_Ok (data : Arrays) (inv : list mframe) :
  get_invalid data = Ok inv ↔ data !! "invalid" = Some (BoolArr inv).
Proof.
  unfold get_invalid, getitem. destruct (data !! "invalid") as [[l|l]|]; simpl;
    split; intros Heq; try discriminate; congruence.
Qed.

Lemma rmapM_shape {A B X : Type} (f : A → Result B) (sa : A → X) (sb : B → X)
    (l : list A) (l' : list B) :
  (∀ x y, f x = Ok y → sb y = sa x) →
  rmapM f l = Ok l' → map sb l' = map sa l.
Proof.
  intros Hf Hrun. apply rmapM_Ok in Hrun.
  induction Hrun as [|x y l l' Hxy _ IH]; [reflexivity|].
  simpl. rewrite (Hf x y Hxy), IH. reflexivity.
Qed.

(** *** transform.py and occlusion.py *)

Section simple_effects.
Context {G : Type} `{RandomSource G}.

Lemma HorizontalFlip_keeps_shape (flip_axis : Q) :
  effect_keeps_shape (transform.HorizontalFlip_apply (G := G) flip_axis).
Proof.
  intros T V C data data' g g' Hshape Hrun.
  unfold transform.HorizontalFlip_apply in Hrun. apply lift_Ok in Hrun as [Hrun ->].
  apply rbind_Ok in Hrun as (a & Ha & Hrun).
  destruct a as [kp|m]; [|discriminate].
  apply rbind_Ok in Hrun as (kp' & Hflip & Hret). injection Hret as <-.
  apply has_shape_inv in Hshape as Hinv. destruct Hinv as (kp0 & inv & Hk & _ & Hkp & _).
  unfold getitem in Ha. rewrite Hk in Ha. injection Ha as <-.
  apply has_shape_set_keypoints; [exact Hshape|]. rewrite <- Hkp.
  eapply (rmapM_shape _ kframe_shape kframe_shape); [|exact Hflip].
  intros f f' Hf. unfold kframe_shape.
  eapply (rmapM_shape _ (@length Q) (@length Q)); [|exact Hf].
  intros c c' Hc. destruct c as [|x c]; simpl in Hc; [discriminate|].
  injection Hc as <-. reflexivity.
Qed.

Lemma occlude_row_length (joints : list Z) :
  ∀ row row', occlusion.occlude_row row joints = Ok row' → length row' = length row.
Proof.
  induction joints as [|j joints IH]; intros row row' Hrun; simpl in Hrun.
  - injection Hrun as <-. reflexivity.
  - apply rbind_Ok in Hrun as (i & _ & Hrun). apply IH in Hrun.
    rewrite Hrun. apply length_insert.
Qed.

Lemma occlude_joints_shape (inv inv' : list mframe) (joints : list Z) :
  occlusion.occlude_joints inv joints = Ok inv' →
  map mframe_shape inv' = map mframe_shape inv.
Proof.
  apply rmapM_shape. intros row row'. apply occlude_row_length.
Qed.

Lemma WholeOcclusion_keeps_shape :
  effect_keeps_shape (occlusion.WholeOcclusion_apply (G := G)).
Proof.
  intros T V C data data' g g' Hshape Hrun.
  unfold occlusion.WholeOcclusion_apply in Hrun.
  apply bind_Ok in Hrun as (inv & g1 & Hinv & Hret).
  apply lift_Ok in Hinv as [Hinv ->]. apply ret_Ok in Hret as [-> ->].
  apply get_invalid_Ok in Hinv.
  apply has_shape_inv in Hshape as Hparts. destruct Hparts as (kp & inv0 & _ & Hi & _ & Hshape_inv).
  rewrite Hinv in Hi. injection Hi as <-.
  apply has_shape_set_invalid; [exact Hshape|]. rewrite <- Hshape_inv.
  rewrite map_map. apply map_ext. intros row. unfold mframe_shape. apply length_map.
Qed.

Lemma SpecificOcclusion_keeps_shape (joints : list Z) :
  effect_keeps_shape (occlusion.SpecificOcclusion_apply (G := G) joints).
Proof.
  intros T V C data data' g g' Hshape Hrun.
  unfold occlusion.SpecificOcclusion_apply in Hrun.
  apply bind_Ok in Hrun as (inv & g1 & Hinv & Hrun).
  apply lift_Ok in Hinv as [Hinv ->].
  apply bind_Ok in Hrun as (inv' & g2 & Hocc & Hret).
  apply lift_Ok in Hocc as [Hocc ->]. apply ret_Ok in Hret as [-> ->].
  apply get_invalid_Ok in Hinv.
  apply has_shape_inv in Hshape as Hparts. destruct Hparts as (kp & inv0 & _ & Hi & _ & Hshape_inv).
  rewrite Hinv in Hi. injection Hi as <-.
  apply has_shape_set_invalid; [exact Hshape|]. rewrite <- Hshape_inv.
  apply (occlude_joints_shape inv inv' joints Hocc).
Qed.

Lemma RandomOcclusion_keeps_shape (chance : Q + list Q) :
  effect_keeps_shape (occlusion.RandomOcclusion_apply (G := G) chance).
Proof.
  intros T V C data data' g g' Hshape Hrun.
  unfold occlusion.RandomOcclusion_apply in Hrun.
  apply bind_Ok in Hrun as (inv & g1 & Hinv & Hrun).
  apply lift_Ok in Hinv as [Hinv ->].
  apply bind_Ok in Hrun as (joints & g2 & _ & Hrun).
  apply bind_Ok in Hrun as (inv' & g3 & Hocc & Hret).
  apply lift_Ok in Hocc as [Hocc ->]. apply ret_Ok in Hret as [-> ->].
  apply get_invalid_Ok in Hinv.
  apply has_shape_inv in Hshape as Hparts. destruct Hparts as (kp & inv0 & _ & Hi & _ & Hshape_inv).
  rewrite Hinv in Hi. injection Hi as <-.
  apply has_shape_set_invalid; [exact Hshape|]. rewrite <- Hshape_inv.
  apply (occlude_joints_shape inv inv' joints Hocc).
Qed.

End simple_effects.

(** *** Arrays whose coordinate vectors all have [C] entries *)

Lemma rect_uniform (T V C : nat) (a : list kframe) :
  map kframe_shape a = repeat (repeat C V) T →
  Forall (Forall (fun c : coords => length c = C)) a.
Proof.
  intros Hshape. apply map_eq_repeat in Hshape as [_ Hrows].
  eapply Forall_impl; [exact Hrows|]. intros f Hf. simpl in Hf.
  unfold kframe_shape in Hf. apply map_eq_repeat in Hf as [_ Hf]. exact Hf.
Qed.

Lemma map_insert_same {A X : Type} (sh : A → X) (x old : A) :
  ∀ (l : list A) (j : nat),
    l !! j = Some old → sh x = sh old → map sh (<[j := x]> l) = map sh l.
Proof.
  induction l as [|y l IH]; intros [|j] Hj Hsh; simpl in *; try discriminate.
  - injection Hj as ->. rewrite Hsh. reflexivity.
  - f_equal. apply IH; assumption.
Qed.

Lemma normalize_index_lt (n : nat) (i : Z) (j : nat) :
  normalize_index n i = Ok j → (j < n)%nat.
Proof.
  unfold normalize_index.
  destruct ((0 <=? i) && (i <? Z.of_nat n))%Z eqn:Hin.
  - intros Heq. injection Heq as <-. apply andb_prop in Hin as [H1 H2]. lia.
  - destruct ((- Z.of_nat n <=? i) && (i <? 0))%Z eqn:Hneg; [|discriminate].
    intros Heq. injection Heq as <-. apply andb_prop in Hneg as [H1 H2]. lia.
Qed.

Lemma py_index_elem {A : Type} (l : list A) (i : Z) (x : A) :
  py_index l i = Ok x → x ∈ l.
Proof.
  unfold py_index. intros Hrun. apply rbind_Ok in Hrun as (j & _ & Hrun).
  destruct (l !! j) as [y|] eqn:Hj; [|discriminate]. injection Hrun as <-.
  eapply list_elem_of_lookup_2. exact Hj.
Qed.

Lemma insert_uniform (C : nat) (row : kframe) (j : nat) (x : coords) :
  Forall (fun c : coords => length c = C) row → length x = C →
  kframe_shape (<[j := x]> row) = kframe_shape row.
Proof.
  intros Hrow Hx. unfold kframe_shape.
  destruct (row !! j) as [old|] eqn:Hj.
  - apply (map_insert_same _ x old); [exact Hj|].
    rewrite Hx. symmetry. exact (proj1 (Forall_lookup _ _) Hrow j old Hj).
  - rewrite list_insert_ge; [reflexivity|]. apply lookup_ge_None. exact Hj.
Qed.

Lemma uniform_of_shape (C : nat) (a a' : list kframe) :
  map kframe_shape a' = map kframe_shape a →
  Forall (Forall (fun c : coords => length c = C)) a →
  Forall (Forall (fun c : coords => length c = C)) a'.
Proof.
  revert a'. induction a as [|f a IH]; intros [|f' a'] Hshape Hall; simpl in Hshape;
    try discriminate; [constructor|].
  injection Hshape as Hf Hrest. apply Forall_cons in Hall as [Hf0 Hall].
  constructor; [|apply IH; assumption].
  unfold kframe_shape in Hf. clear -Hf Hf0.
  revert f' Hf. induction f as [|c f IHf]; intros [|c' f'] Hf; simpl in Hf;
    try discriminate; [constructor|].
  injection Hf as Hc Hrest. apply Forall_cons in Hf0 as [Hc0 Hf0].
  constructor; [congruence|apply IHf; assumption].
Qed.

Lemma column_uniform (C : nat) (a : list kframe) (k : Z) (col : list coords) :
  Forall (Forall (fun c : coords => length c = C)) a →
  column a k = Ok col → Forall (fun c : coords => length c = C) col.
Proof.
  intros Hall Hcol. unfold column in Hcol. apply rmapM_Ok in Hcol.
  induction Hcol as [|row x a col Hx _ IH]; [constructor|].
  apply Forall_cons in Hall as [Hrow Hall]. constructor; [|apply IH; exact Hall].
  apply py_index_elem in Hx. exact (proj1 (Forall_forall _ _) Hrow x Hx).
Qed.

Lemma set_column_shape (C : nat) (k : Z) :
  ∀ (a a' : list kframe) (col : list coords),
    Forall (Forall (fun c : coords => length c = C)) a →
    Forall (fun c : coords => length c = C) col →
    set_column a k col = Ok a' → map kframe_shape a' = map kframe_shape a.
Proof.
  induction a as [|row a IH]; intros a' [|x col] Hall Hcol Hrun; simpl in Hrun;
    try discriminate.
  - injection Hrun as <-. reflexivity.
  - apply rbind_Ok in Hrun as (j & _ & Hrun).
    apply rbind_Ok in Hrun as (rest & Hrest & Hret). injection Hret as <-.
    apply Forall_cons in Hall as [Hrow Hall]. apply Forall_cons in Hcol as [Hx Hcol].
    simpl. f_equal; [apply (insert_uniform C); assumption|].
    apply (IH rest col); assumption.
Qed.

Lemma setitem2_shape (C : nat) (a a' : list kframe) (t : nat) (k : Z) (x : coords) :
  Forall (Forall (fun c : coords => length c = C)) a → length x = C →
  setitem2 a t k x = Ok a' → map kframe_shape a' = map kframe_shape a.
Proof.
  intros Hall Hx Hrun. unfold setitem2 in Hrun.
  destruct (a !! t) as [row|] eqn:Ht; [|discriminate].
  apply rbind_Ok in Hrun as (j & _ & Hret). injection Hret as <-.
  apply (map_insert_same _ _ row); [exact Ht|].
  apply (insert_uniform C); [|exact Hx].
  exact (proj1 (Forall_lookup _ _) Hall t row Ht).
Qed.

Lemma setitem2_lengths {A : Type} (a a' : list (list A)) (t : nat) (k : Z) (x : A) :
  setitem2 a t k x = Ok a' → map (@length A) a' = map (@length A) a.
Proof.
  intros Hrun. unfold setitem2 in Hrun.
  destruct (a !! t) as [row|] eqn:Ht; [|discriminate].
  apply rbind_Ok in Hrun as (j & _ & Hret). injection Hret as <-.
  apply (map_insert_same _ _ row); [exact Ht|]. apply length_insert.
Qed.

Lemma getitem2_uniform (C : nat) (a : list kframe) (t : nat) (k : Z) (x : coords) :
  Forall (Forall (fun c : coords => length c = C)) a →
  getitem2 a t k = Ok x → length x = C.
Proof.
  intros Hall Hrun. unfold getitem2 in Hrun.
  destruct (a !! t) as [row|] eqn:Ht; [|discriminate].
  apply py_index_elem in Hrun.
  pose proof (proj1 (Forall_lookup _ _) Hall t row Ht) as Hrow.
  exact (proj1 (Forall_forall _ _) Hrow x Hrun).
Qed.

(** *** Writes of rows *)

Lemma assign_rows_shape {A X : Type} (same : A → A → bool) (sh : A → X) :
  (∀ old x, same old x = true → sh x = sh old) →
  ∀ (writes : list (Z * A)) (l l' : list A),
    assign_rows same l writes = Ok l' → map sh l' = map sh l.
Proof.
  intros Hsame. induction writes as [|[i x] writes IH]; intros l l' Hrun; simpl in Hrun.
  - injection Hrun as <-. reflexivity.
  - apply rbind_Ok in Hrun as (j & _ & Hrun).
    destruct (l !! j) as [old|] eqn:Hj; [|discriminate].
    destruct (same old x) eqn:Hs; [|discriminate].
    apply IH in Hrun. rewrite Hrun.
    apply (map_insert_same _ _ old); [exact Hj|]. apply Hsame. exact Hs.
Qed.

Lemma fancy_set_shape {A X : Type} (same : A → A → bool) (sh : A → X)
    (l l' : list A) (ids : list Z) (src : list A) :
  (∀ old x, same old x = true → sh x = sh old) →
  fancy_set same l ids src = Ok l' → map sh l' = map sh l.
Proof.
  intros Hsame Hrun. unfold fancy_set in Hrun.
  destruct (bool_decide (length src = length ids)); [|discriminate].
  apply (assign_rows_shape same sh Hsame) in Hrun. exact Hrun.
Qed.

Lemma setitem_ids_shape (d d' src : ndarray) (ids : list Z) :
  setitem_ids d ids src = Ok d' → shape d' = shape d.
Proof.
  destruct d as [l|l], src as [s|s]; simpl; try discriminate; intros Hrun;
    apply rbind_Ok in Hrun as (r & Hset & Hret); injection Hret as <-; simpl; f_equal.
  - apply (fancy_set_shape same_kframe kframe_shape _ _ _ _) in Hset; [exact Hset|].
    intros old x Hs. unfold same_kframe in Hs. apply bool_decide_eq_true in Hs. congruence.
  - apply (fancy_set_shape same_mframe mframe_shape _ _ _ _) in Hset; [exact Hset|].
    intros old x Hs. unfold same_mframe in Hs. apply bool_decide_eq_true in Hs. congruence.
Qed.

(** *** perturbation.py *)

Lemma zip_with_shape {A B C X : Type} (h : A → B → C) (sa : A → X) (sb : B → X)
    (sc : C → X) :
  (∀ x y, sa x = sb y → sc (h x y) = sa x) →
  ∀ (l : list A) (k : list B),
    map sa l = map sb k → map sc (zip_with h l k) = map sa l.
Proof.
  intros Hh. induction l as [|x l IH]; intros [|y k] Heq; simpl in Heq;
    try discriminate; [reflexivity|].
  injection Heq as Hxy Hrest. simpl. f_equal; [apply Hh; exact Hxy|apply IH; exact Hrest].
Qed.

Lemma add_arrays_shape (a d r : list kframe) :
  perturbation.add_arrays a d = Ok r → map kframe_shape r = map kframe_shape a.
Proof.
  unfold perturbation.add_arrays.
  destruct (bool_decide (map kframe_shape a = map kframe_shape d)) eqn:Hsame; [|discriminate].
  apply bool_decide_eq_true in Hsame. intros Heq. injection Heq as <-.
  apply (zip_with_shape _ kframe_shape kframe_shape kframe_shape); [|exact Hsame].
  intros f f' Hf. unfold kframe_shape in *.
  apply (zip_with_shape _ (@length Q) (@length Q) (@length Q)); [|exact Hf].
  intros c c' Hc. rewrite length_zip_with. lia.
Qed.

Lemma put_columns_shape (joints : list Z) :
  ∀ a src a' : list kframe,
    perturbation.put_columns a joints src = Ok a' →
    map kframe_shape a' = map kframe_shape a.
Proof.
  induction a as [|row a IH]; intros [|s src] a' Hrun; simpl in Hrun; try discriminate.
  - injection Hrun as <-. reflexivity.
  - apply rbind_Ok in Hrun as (row' & Hrow & Hrun).
    apply rbind_Ok in Hrun as (rest & Hrest & Hret). injection Hret as <-.
    simpl. f_equal; [|apply (IH src); exact Hrest].
    unfold kframe_shape.
    apply (fancy_set_shape _ (@length Q) _ _ _ _) in Hrow; [exact Hrow|].
    intros old x Hs. apply bool_decide_eq_true in Hs. congruence.
Qed.

Lemma swap_columns_shape (C : nat) (a a' : list kframe) (i1 i2 : Z) :
  Forall (Forall (fun c : coords => length c = C)) a →
  perturbation.swap_columns a i1 i2 = Ok a' →
  map kframe_shape a' = map kframe_shape a.
Proof.
  intros Hall Hrun. unfold perturbation.swap_columns in Hrun.
  apply rbind_Ok in Hrun as (temp & Htemp & Hrun).
  apply rbind_Ok in Hrun as (other & Hother & Hrun).
  apply rbind_Ok in Hrun as (a1 & Ha1 & Hrun).
  apply (column_uniform C) in Htemp; [|exact Hall].
  apply (column_uniform C) in Hother; [|exact Hall].
  apply (set_column_shape C) in Ha1; [|exact Hall|exact Hother].
  apply (set_column_shape C) in Hrun; [|apply (uniform_of_shape C a); assumption|exact Htemp].
  congruence.
Qed.

Lemma mirror_columns_shape (C : nat) (opposite_points : list (Z * Z)) :
  ∀ a a' : list kframe,
    Forall (Forall (fun c : coords => length c = C)) a →
    perturbation.mirror_columns a opposite_points = Ok a' →
    map kframe_shape a' = map kframe_shape a.
Proof.
  induction opposite_points as [|[p q] rest IH]; intros a a' Hall Hrun; simpl in Hrun.
  - injection Hrun as <-. reflexivity.
  - apply rbind_Ok in Hrun as (a1 & Hswap & Hrun).
    apply (swap_columns_shape C) in Hswap; [|exact Hall].
    apply IH in Hrun; [|apply (uniform_of_shape C a); assumption].
    congruence.
Qed.

Section perturbation_effects.
Context {G : Type} `{RandomSource G}.

(** A transform that replaces [keypoints] by an array of the same shape. *)
Lemma keypoints_replaced (T V C : nat) (data : Arrays) (kp kp' : list kframe) :
  has_shape T V C data → get_keypoints data = Ok kp →
  map kframe_shape kp' = map kframe_shape kp →
  has_shape T V C (<["keypoints" := FloatArr kp']> data).
Proof.
  intros Hshape Hkp Hsame. apply get_keypoints_Ok in Hkp.
  apply has_shape_set_keypoints; [exact Hshape|].
  apply has_shape_inv in Hshape as (kp0 & inv & Hk & _ & Hkp0 & _).
  rewrite Hkp in Hk. injection Hk as <-. congruence.
Qed.

Lemma keypoints_uniform (T V C : nat) (data : Arrays) (kp : list kframe) :
  has_shape T V C data → get_keypoints data = Ok kp →
  Forall (Forall (fun c : coords => length c = C)) kp.
Proof.
  intros Hshape Hkp. apply get_keypoints_Ok in Hkp.
  apply has_shape_inv in Hshape as (kp0 & inv & Hk & _ & Hkp0 & _).
  rewrite Hkp in Hk. injection Hk as <-. apply (rect_uniform T V C). exact Hkp0.
Qed.

Lemma MovePerturbation_keeps_shape (variance : Q) (joints : option (list Z)) :
  effect_keeps_shape (perturbation.MovePerturbation_apply (G := G) variance joints).
Proof.
  intros T V C data data' g g' Hshape Hrun.
  unfold perturbation.MovePerturbation_apply in Hrun.
  apply bind_Ok in Hrun as (kp & g1 & Hkp & Hrun). apply lift_Ok in Hkp as [Hkp ->].
  destruct (shape3 kp) as [[T0 V0] C0].
  destruct (perturbation.joints_given joints) as [js|].
  - apply bind_Ok in Hrun as (d & g2 & _ & Hrun).
    apply bind_Ok in Hrun as (inv & g3 & _ & Hrun).
    apply bind_Ok in Hrun as (mask & g4 & _ & Hrun).
    apply bind_Ok in Hrun as (d' & g5 & _ & Hrun).
    apply bind_Ok in Hrun as (sub & g6 & _ & Hrun).
    apply bind_Ok in Hrun as (sum & g7 & _ & Hrun).
    apply bind_Ok in Hrun as (kp' & g8 & Hput & Hret).
    apply lift_Ok in Hput as [Hput _]. apply ret_Ok in Hret as [-> _].
    apply (keypoints_replaced T V C data kp); [exact Hshape|exact Hkp|].
    apply (put_columns_shape js kp sum). exact Hput.
  - apply bind_Ok in Hrun as (d & g2 & _ & Hrun).
    apply bind_Ok in Hrun as (inv & g3 & _ & Hrun).
    apply bind_Ok in Hrun as (d' & g4 & _ & Hrun).
    apply bind_Ok in Hrun as (kp' & g5 & Hadd & Hret).
    apply lift_Ok in Hadd as [Hadd _]. apply ret_Ok in Hret as [-> _].
    apply (keypoints_replaced T V C data kp); [exact Hshape|exact Hkp|].
    apply (add_arrays_shape kp d'). exact Hadd.
Qed.

Lemma SwapPerturbation_keeps_shape (fuel : nat) :
  effect_keeps_shape (perturbation.SwapPerturbation_apply (G := G) fuel).
Proof.
  intros T V C data data' g g' Hshape Hrun.
  unfold perturbation.SwapPerturbation_apply in Hrun.
  apply bind_Ok in Hrun as (kp & g1 & Hkp & Hrun). apply lift_Ok in Hkp as [Hkp ->].
  destruct (shape3 kp) as [[T0 V0] C0].
  apply bind_Ok in Hrun as ([i1 i2] & g2 & _ & Hrun).
  apply bind_Ok in Hrun as (kp' & g3 & Hswap & Hret).
  apply lift_Ok in Hswap as [Hswap _]. apply ret_Ok in Hret as [-> _].
  apply (keypoints_replaced T V C data kp); [exact Hshape|exact Hkp|].
  apply (swap_columns_shape C kp kp' i1 i2); [|exact Hswap].
  apply (keypoints_uniform T V C data); assumption.
Qed.

Lemma MirrorPerturbation_keeps_shape (opposite_points : list (Z * Z)) :
  effect_keeps_shape (perturbation.MirrorPerturbation_apply (G := G) opposite_points).
Proof.
  intros T V C data data' g g' Hshape Hrun.
  unfold perturbation.MirrorPerturbation_apply in Hrun.
  destruct opposite_points as [|pq rest].
  - apply ret_Ok in Hrun as [-> _]. exact Hshape.
  - apply bind_Ok in Hrun as (kp & g1 & Hkp & Hrun). apply lift_Ok in Hkp as [Hkp ->].
    apply bind_Ok in Hrun as (kp' & g2 & Hmirror & Hret).
    apply lift_Ok in Hmirror as [Hmirror _]. apply ret_Ok in Hret as [-> _].
    apply (keypoints_replaced T V C data kp); [exact Hshape|exact Hkp|].
    apply (mirror_columns_shape C (pq :: rest) kp kp'); [|exact Hmirror].
    apply (keypoints_uniform T V C data); assumption.
Qed.

Section jittering_effect.
Variables deg2rad cos sin : Q → Q.

Lemma _clip_bb_length (keypoint bottom_left top_right direction : coords) :
  length keypoint = 2%nat → length direction = 2%nat →
  length (perturbation._clip_bb keypoint bottom_left top_right direction) = 2%nat.
Proof.
  intros Hk Hd. unfold perturbation._clip_bb.
  destruct (perturbation.any_lt keypoint bottom_left
            || perturbation.any_lt top_right keypoint); [|exact Hk].
  rewrite length_zip_with. lia.
Qed.

Lemma jitter_frame_shape (self : perturbation.Jittering) (num_joints : nat)
    (invalid : list mframe) (bottom_left_bb top_right_bb : list coords)
    (keypoints keypoints' : list kframe) (i : nat) (g g' : G) :
  Forall (Forall (fun c : coords => length c = 2%nat)) keypoints →
  perturbation.jitter_frame cos sin self num_joints invalid bottom_left_bb top_right_bb
    keypoints i g = Ok (keypoints', g') →
  map kframe_shape keypoints' = map kframe_shape keypoints.
Proof.
  intros Hall Hrun. unfold perturbation.jitter_frame in Hrun.
  apply bind_Ok in Hrun as (keypoint_id & g1 & _ & Hrun).
  apply bind_Ok in Hrun as (skip & g2 & _ & Hrun).
  destruct skip.
  - apply ret_Ok in Hrun as [-> _]. reflexivity.
  - apply bind_Ok in Hrun as (keypoint & g3 & Hget & Hrun).
    apply lift_Ok in Hget as [Hget _].
    apply bind_Ok in Hrun as (direction & g4 & Hdir & Hrun).
    apply bind_Ok in Hrun as (distance & g5 & _ & Hrun).
    apply lift_Ok in Hrun as [Hset _].
    unfold perturbation._get_random_direction in Hdir.
    apply bind_Ok in Hdir as (radian & g6 & _ & Hdir). apply ret_Ok in Hdir as [-> _].
    apply (setitem2_shape 2) in Hset; [exact Hset|exact Hall|].
    apply _clip_bb_length; [|reflexivity].
    unfold perturbation.displace. rewrite length_zip_with.
    rewrite (getitem2_uniform 2 keypoints i keypoint_id keypoint Hall Hget). reflexivity.
Qed.

Lemma jitter_frames_shape (self : perturbation.Jittering) (num_joints : nat)
    (invalid : list mframe) (bottom_left_bb top_right_bb : list coords)
    (frames : list nat) :
  ∀ (keypoints keypoints' : list kframe) (g g' : G),
    Forall (Forall (fun c : coords => length c = 2%nat)) keypoints →
    perturbation.jitter_frames cos sin self num_joints invalid bottom_left_bb top_right_bb
      keypoints frames g = Ok (keypoints', g') →
    map kframe_shape keypoints' = map kframe_shape keypoints.
Proof.
  induction frames as [|i rest IH]; intros keypoints keypoints' g g' Hall Hrun;
    simpl in Hrun.
  - apply ret_Ok in Hrun as [-> _]. reflexivity.
  - apply bind_Ok in Hrun as (kp1 & g1 & Hframe & Hrun).
    apply jitter_frame_shape in Hframe; [|exact Hall].
    apply IH in Hrun; [|apply (uniform_of_shape 2 keypoints); assumption].
    congruence.
Qed.

Lemma two_dimensional_uniform (keypoints : list kframe) :
  perturbation.two_dimensional keypoints = true →
  Forall (Forall (fun c : coords => length c = 2%nat)) keypoints.
Proof.
  unfold perturbation.two_dimensional. intros Hall.
  apply Forall_forall. intros f Hf. apply Forall_forall. intros c Hc.
  rewrite forallb_forall in Hall. apply list_elem_of_In in Hf, Hc.
  specialize (Hall f Hf). rewrite forallb_forall in Hall.
  specialize (Hall c Hc). apply Nat.eqb_eq. exact Hall.
Qed.

Lemma Jittering_keeps_shape (self : perturbation.Jittering) :
  effect_keeps_shape (perturbation.Jittering_apply (G := G) cos sin self).
Proof.
  intros T V C data data' g g' Hshape Hrun.
  unfold perturbation.Jittering_apply in Hrun.
  apply bind_Ok in Hrun as (kp & g1 & Hkp & Hrun). apply lift_Ok in Hkp as [Hkp ->].
  apply bind_Ok in Hrun as (u & g2 & Hassert & Hrun).
  apply lift_Ok in Hassert as [Hassert ->].
  apply bind_Ok in Hrun as (inv & g3 & _ & Hrun).
  apply bind_Ok in Hrun as (u' & g4 & _ & Hrun).
  destruct (shape3 kp) as [[T0 V0] C0].
  apply bind_Ok in Hrun as (kp' & g5 & Hjit & Hret). apply ret_Ok in Hret as [-> _].
  apply (keypoints_replaced T V C data kp); [exact Hshape|exact Hkp|].
  apply jitter_frames_shape in Hjit; [exact Hjit|].
  apply two_dimensional_uniform. unfold py_assert in Hassert.
  destruct (perturbation.two_dimensional kp); [reflexivity|discriminate].
Qed.

End jittering_effect.
End perturbation_effects.

(** *** InterpolateOcclusions *)

Lemma compress_Forall {A : Type} (P : A → Prop) :
  ∀ (l : list A) (mask : list bool), Forall P l → Forall P (compress l mask).
Proof.
  induction l as [|x l IH]; intros [|b mask] Hall; simpl; try constructor.
  apply Forall_cons in Hall as [Hx Hall]. destruct b.
  - constructor; [exact Hx|apply IH; exact Hall].
  - apply IH; exact Hall.
Qed.

Lemma interp_from_length (C : nat) (x : nat) :
  ∀ (knots : list (nat * coords)) (x0 : nat) (y0 y : coords),
    length y0 = C → Forall (fun kn => length (snd kn) = C) knots →
    occlusion.interp_from x0 y0 knots x = Ok y → length y = C.
Proof.
  induction knots as [|[x1 y1] knots IH]; intros x0 y0 y Hy0 Hall Hrun; simpl in Hrun;
    [discriminate|].
  apply Forall_cons in Hall as [Hy1 Hall]. simpl in Hy1.
  destruct (x <=? x1)%nat.
  - injection Hrun as <-. unfold occlusion.lerp. rewrite length_zip_with. lia.
  - apply (IH x1 y1 y); assumption.
Qed.

Lemma zip_snd_Forall {A B : Type} (P : B → Prop) :
  ∀ (xs : list A) (ys : list B),
    Forall P ys → Forall (fun kn => P (snd kn)) (zip xs ys).
Proof.
  induction xs as [|x xs IH]; intros [|y ys] Hall; simpl; try constructor.
  - apply Forall_cons in Hall as [Hy _]. exact Hy.
  - apply Forall_cons in Hall as [_ Hall]. apply IH. exact Hall.
Qed.

Lemma interp1d_length (C : nat) (xs : list nat) (ys : list coords) (x : nat) (y : coords) :
  Forall (fun c : coords => length c = C) ys →
  occlusion.interp1d xs ys x = Ok y → length y = C.
Proof.
  intros Hall Hrun. unfold occlusion.interp1d in Hrun.
  pose proof (zip_snd_Forall (fun c : coords => length c = C) xs ys Hall) as Hknots.
  destruct (zip xs ys) as [|[x0 y0] rest]; [discriminate|].
  apply Forall_cons in Hknots as [Hy0 Hrest]. simpl in Hy0.
  destruct (x <? x0)%nat; [discriminate|].
  apply (interp_from_length C x rest x0 y0 y); assumption.
Qed.

Lemma assign_entries_shape (C k : nat) :
  ∀ (writes : list (nat * coords)) (a a' : list kframe),
    Forall (Forall (fun c : coords => length c = C)) a →
    Forall (fun w => length (snd w) = C) writes →
    occlusion.assign_entries a k writes = Ok a' →
    map kframe_shape a' = map kframe_shape a.
Proof.
  induction writes as [|[t x] writes IH]; intros a a' Hall Hwrites Hrun; simpl in Hrun.
  - injection Hrun as <-. reflexivity.
  - apply Forall_cons in Hwrites as [Hx Hwrites]. simpl in Hx.
    apply rbind_Ok in Hrun as (a1 & Hset & Hrun).
    apply (setitem2_shape C) in Hset; [|exact Hall|exact Hx].
    apply IH in Hrun; [|apply (uniform_of_shape C a); assumption|exact Hwrites].
    congruence.
Qed.

Lemma assign_entries_lengths {A : Type} (k : nat) :
  ∀ (writes : list (nat * A)) (a a' : list (list A)),
    occlusion.assign_entries a k writes = Ok a' →
    map (@length A) a' = map (@length A) a.
Proof.
  induction writes as [|[t x] writes IH]; intros a a' Hrun; simpl in Hrun.
  - injection Hrun as <-. reflexivity.
  - apply rbind_Ok in Hrun as (a1 & Hset & Hrun).
    apply setitem2_lengths in Hset. apply IH in Hrun. congruence.
Qed.

Lemma interpolate_joint_shape (C T k : nat) (kp kp' : list kframe) (inv inv' : list mframe) :
  Forall (Forall (fun c : coords => length c = C)) kp →
  occlusion.interpolate_joint T k (kp, inv) = Ok (kp', inv') →
  map kframe_shape kp' = map kframe_shape kp
  ∧ map mframe_shape inv' = map mframe_shape inv.
Proof.
  intros Hall Hrun. unfold occlusion.interpolate_joint in Hrun.
  apply rbind_Ok in Hrun as (col & Hcol & Hrun).
  apply rbind_Ok in Hrun as (bad & Hbad & Hrun).
  apply rbind_Ok in Hrun as (valid_ids & Hids & Hrun).
  destruct (length valid_ids <? 2)%nat.
  - injection Hrun as <- <-. split; reflexivity.
  - apply rbind_Ok in Hrun as (valid_kps & Hkps & Hrun).
    apply rbind_Ok in Hrun as (interpolate_ids & Hmap & Hrun).
    apply rbind_Ok in Hrun as (values & Hvalues & Hrun).
    apply rbind_Ok in Hrun as (kp1 & Hkp1 & Hrun).
    apply rbind_Ok in Hrun as (inv1 & Hinv1 & Hret).
    injection Hret as <- <-.
    apply (column_uniform C) in Hcol; [|exact Hall].
    unfold mask_index in Hkps.
    destruct (bool_decide (length (map negb bad) = length col)); [|discriminate].
    injection Hkps as <-.
    split.
    + apply (assign_entries_shape C k _ kp kp1) in Hkp1; [exact Hkp1|exact Hall|].
      apply (zip_snd_Forall (fun c : coords => length c = C)). apply rmapM_Ok in Hvalues.
      clear -Hvalues Hcol. induction Hvalues as [|x y ids values Hxy _ IH]; constructor;
        [|exact IH].
      apply (interp1d_length C) in Hxy; [exact Hxy|].
      apply compress_Forall. exact Hcol.
    + apply assign_entries_lengths in Hinv1. exact Hinv1.
Qed.

Lemma interpolate_joints_shape (C T : nat) (joints : list nat) :
  ∀ (kp kp' : list kframe) (inv inv' : list mframe),
    Forall (Forall (fun c : coords => length c = C)) kp →
    occlusion.interpolate_joints T joints (kp, inv) = Ok (kp', inv') →
    map kframe_shape kp' = map kframe_shape kp
    ∧ map mframe_shape inv' = map mframe_shape inv.
Proof.
  induction joints as [|k rest IH]; intros kp kp' inv inv' Hall Hrun; simpl in Hrun.
  - injection Hrun as <- <-. split; reflexivity.
  - apply rbind_Ok in Hrun as ([kp1 inv1] & Hjoint & Hrun).
    apply (interpolate_joint_shape C) in Hjoint as [Hk1 Hi1]; [|exact Hall].
    apply IH in Hrun as [Hk2 Hi2]; [|apply (uniform_of_shape C kp); assumption].
    split; congruence.
Qed.

Section interpolation_effect.
Context {G : Type} `{RandomSource G}.

Lemma InterpolateOcclusions_keeps_shape :
  effect_keeps_shape (occlusion.InterpolateOcclusions_apply (G := G)).
Proof.
  intros T V C data data' g g' Hshape Hrun.
  unfold occlusion.InterpolateOcclusions_apply in Hrun.
  apply lift_Ok in Hrun as [Hrun _].
  apply rbind_Ok in Hrun as (kp & Hkp & Hrun).
  destruct (shape3 kp) as [[T0 V0] C0].
  destruct (seq 0 V0) as [|k0 joints] eqn:Hjoints.
  - injection Hrun as <-. exact Hshape.
  - apply rbind_Ok in Hrun as (inv & Hinv & Hrun).
    apply rbind_Ok in Hrun as ([kp' inv'] & Hloop & Hret). injection Hret as <-.
    apply (interpolate_joints_shape C) in Hloop as [Hk Hi];
      [|apply (keypoints_uniform T V C data); assumption].
    simpl. apply has_shape_set_invalid.
    + apply (keypoints_replaced T V C data kp); assumption.
    + apply get_invalid_Ok in Hinv.
      apply has_shape_inv in Hshape as (kp0 & inv0 & _ & Hi0 & _ & Hinv0).
      rewrite Hinv in Hi0. injection Hi0 as <-. congruence.
Qed.

End interpolation_effect.

(** *** The calls of the classes *)

Section calls_keep_shape.
Context {G : Type} `{RandomSource G}.

Lemma transform_call_keeps_shape (t : transform.BaseTransform G) :
  effect_keeps_shape (transform.apply t) →
  keeps_shape (op_call (transform.as_operation t)).
Proof.
  intros Heffect T V C kw kw' g g' Hshape Hrun. simpl in Hrun.
  apply bind_Ok in Hrun as (data' & g1 & Hcall & Hret).
  apply ret_Ok in Hret as [-> _]. simpl.
  unfold transform.call in Hcall.
  apply bind_Ok in Hcall as (u & g2 & _ & Hcall).
  destruct (Qltb u (transform.p t) || transform.always_apply t || force_of kw).
  - exact (Heffect T V C _ _ _ _ Hshape Hcall).
  - apply ret_Ok in Hcall as [-> _]. exact Hshape.
Qed.

Lemma scatter_back_shapes (data select_data data' : Arrays) (select_ids : list Z) :
  select.scatter_back data select_ids select_data = Ok data' →
  record_shapes data' = record_shapes data.
Proof.
  intros Hrun. unfold select.scatter_back in Hrun. apply dict_mapM_Ok in Hrun.
  assert (Hkey : ∀ key, shape <$> data' !! key = shape <$> data !! key).
  { intros key. specialize (Hrun key). destruct (data !! key) as [a|].
    - destruct Hrun as (b & Hb & ->). simpl. f_equal.
      apply rbind_Ok in Hb as (src & _ & Hset).
      exact (setitem_ids_shape a b src select_ids Hset).
    - rewrite Hrun. reflexivity. }
  unfold record_shapes. rewrite !Hkey. reflexivity.
Qed.

Lemma select_call_keeps_shape (self : select.BaseSelect G) :
  keeps_shape (op_call (select.as_operation self)).
Proof.
  intros T V C kw kw' g g' Hshape Hrun. simpl in Hrun.
  apply bind_Ok in Hrun as (data' & g1 & Hcall & Hret).
  apply ret_Ok in Hret as [-> _]. simpl.
  unfold select.call in Hcall.
  apply bind_Ok in Hcall as (skip & g2 & _ & Hcall).
  destruct skip.
  - apply ret_Ok in Hcall as [-> _]. exact Hshape.
  - unfold select.select_effect in Hcall.
    apply bind_Ok in Hcall as (ids & g3 & _ & Hcall).
    apply bind_Ok in Hcall as (sd & g4 & _ & Hcall).
    apply bind_Ok in Hcall as (sd' & g5 & _ & Hcall).
    apply lift_Ok in Hcall as [Hscatter _].
    apply scatter_back_shapes in Hscatter.
    unfold has_shape in *. rewrite Hscatter. exact Hshape.
Qed.

Lemma call_forced_keeps_shape (t : Operation G) :
  keeps_shape (op_call t) → keeps_shape (call_forced t).
Proof.
  intros Ht T V C kw kw' g g' Hshape Hrun. unfold call_forced in Hrun.
  destruct (kw_force kw); [discriminate|].
  exact (Ht T V C (mkKwargs (Some true) (kw_data kw)) _ _ _ Hshape Hrun).
Qed.

Lemma run_all_keeps_shape (ts : list (Operation G)) :
  Forall (fun t => keeps_shape (op_call t)) ts → keeps_shape (run_all ts).
Proof.
  induction ts as [|t ts IH]; intros Hall T V C kw kw' g g' Hshape Hrun; simpl in Hrun.
  - apply ret_Ok in Hrun as [-> _]. exact Hshape.
  - apply Forall_cons in Hall as [Ht Hall].
    apply bind_Ok in Hrun as (kw1 & g1 & Hfirst & Hrun).
    apply (IH Hall T V C kw1 kw' g1 g'); [|exact Hrun].
    exact (Ht T V C _ _ _ _ Hshape Hfirst).
Qed.

Lemma run_picked_keeps_shape (ts : list (Operation G)) (idx : list Z) :
  Forall (fun t => keeps_shape (op_call t)) ts →
  keeps_shape (compose.run_picked ts idx).
Proof.
  intros Hall. induction idx as [|i idx IH]; intros T V C kw kw' g g' Hshape Hrun;
    simpl in Hrun.
  - apply ret_Ok in Hrun as [-> _]. exact Hshape.
  - apply bind_Ok in Hrun as (t & g1 & Ht & Hrun). apply lift_Ok in Ht as [Ht ->].
    apply bind_Ok in Hrun as (kw1 & g2 & Hcall & Hrun).
    apply (IH T V C kw1 kw' g2 g'); [|exact Hrun].
    apply py_index_elem in Ht.
    apply (call_forced_keeps_shape t (proj1 (Forall_forall _ _) Hall t Ht) T V C
             _ _ _ _ Hshape Hcall).
Qed.

Lemma check_args_arrays (T V C : nat) (data data' : Arrays) :
  has_shape T V C data → compose.check_args data = Ok data' → has_shape T V C data'.
Proof.
  intros Hshape Hrun. apply has_shape_inv in Hshape as Hparts.
  destruct Hparts as (kp & inv & Hk & Hi & _ & _).
  unfold compose.check_args in Hrun. rewrite Hk in Hrun.
  apply rbind_Ok in Hrun as (data1 & Hfirst & Hsecond).
  unfold compose.default_mask in Hfirst. rewrite Hi in Hfirst.
  apply rbind_Ok in Hfirst as (u & _ & Hret). injection Hret as <-.
  unfold compose.default_mask in Hsecond.
  destruct (data !! "peturbation") as [a|].
  - apply rbind_Ok in Hsecond as (u' & _ & Hret). injection Hret as <-. exact Hshape.
  - injection Hsecond as <-.
    apply (has_shape_same_arrays T V C data); [| |exact Hshape];
      apply lookup_insert_ne; discriminate.
Qed.

Lemma finalize_keeps_shape (T V C : nat) (kw kw' : Kwargs) :
  has_shape T V C (kw_data kw) → compose.finalize kw = Ok kw' →
  has_shape T V C (kw_data kw').
Proof.
  intros Hshape Hrun. apply has_shape_inv in Hshape as Hparts.
  destruct Hparts as (kp & inv & Hk & Hi & Hkp & _).
  unfold compose.finalize, getitem in Hrun. rewrite Hk, Hi in Hrun. simpl in Hrun.
  destruct (bool_decide (map mframe_shape inv = compose.mask_shape_of kp)) eqn:Hfits;
    [|discriminate].
  apply bool_decide_eq_true in Hfits. injection Hrun as <-. simpl.
  apply has_shape_set_keypoints; [exact Hshape|].
  rewrite (zero_frames_shape kp inv Hfits). exact Hkp.
Qed.

Lemma Compose_keeps_shape (self : compose.Compose G) :
  Forall (fun t => keeps_shape (op_call t)) (compose.transforms (compose.compose_base self)) →
  keeps_shape (op_call (compose.Compose_op self)).
Proof.
  intros Hall T V C kw kw' g g' Hshape Hrun. simpl in Hrun.
  unfold compose.Compose_call in Hrun.
  apply bind_Ok in Hrun as (data1 & g1 & Hcheck & Hrun).
  apply lift_Ok in Hcheck as [Hcheck ->].
  apply bind_Ok in Hrun as (kw1 & g2 & Hchildren & Hrun).
  apply (check_args_arrays T V C) in Hcheck; [|exact Hshape].
  apply (run_all_keeps_shape _ Hall T V C) in Hchildren; [|exact Hcheck].
  destruct (compose.set_invalid_to_zero self).
  - apply lift_Ok in Hrun as [Hrun _].
    exact (finalize_keeps_shape T V C kw1 kw' Hchildren Hrun).
  - apply ret_Ok in Hrun as [-> _]. exact Hchildren.
Qed.

Lemma OneOf_keeps_shape (self : compose.OneOf G) :
  Forall (fun t => keeps_shape (op_call t)) (compose.transforms (compose.oneof_base self)) →
  keeps_shape (op_call (compose.OneOf_op self)).
Proof.
  intros Hall T V C kw kw' g g' Hshape Hrun. simpl in Hrun.
  unfold compose.OneOf_call in Hrun.
  apply bind_Ok in Hrun as (go & g1 & _ & Hrun). destruct go.
  - unfold compose.OneOf_effect in Hrun.
    apply bind_Ok in Hrun as (idx & g2 & _ & Hrun).
    apply bind_Ok in Hrun as (t & g3 & Ht & Hrun). apply lift_Ok in Ht as [Ht ->].
    apply py_index_elem in Ht.
    exact (call_forced_keeps_shape t (proj1 (Forall_forall _ _) Hall t Ht) T V C
             (plain (kw_data kw)) kw' _ _ Hshape Hrun).
  - apply ret_Ok in Hrun as [-> _]. exact Hshape.
Qed.

Lemma SomeOf_keeps_shape (self : compose.SomeOf G) :
  Forall (fun t => keeps_shape (op_call t)) (compose.transforms (compose.someof_base self)) →
  keeps_shape (op_call (compose.SomeOf_op self)).
Proof.
  intros Hall T V C kw kw' g g' Hshape Hrun. simpl in Hrun.
  unfold compose.SomeOf_call in Hrun.
  apply bind_Ok in Hrun as (go & g1 & _ & Hrun). destruct go.
  - unfold compose.SomeOf_effect in Hrun.
    apply bind_Ok in Hrun as (idx & g2 & _ & Hrun).
    exact (run_picked_keeps_shape _ idx Hall T V C (plain (kw_data kw)) kw' _ _
             Hshape Hrun).
  - apply ret_Ok in Hrun as [-> _]. exact Hshape.
Qed.

Lemma OneOrOther_keeps_shape (self : compose.BaseCompose G) :
  Forall (fun t => keeps_shape (op_call t)) (compose.transforms self) →
  keeps_shape (op_call (compose.OneOrOther_op self)).
Proof.
  intros Hall T V C kw kw' g g' Hshape Hrun. simpl in Hrun.
  unfold compose.OneOrOther_call in Hrun.
  apply bind_Ok in Hrun as (u & g1 & _ & Hrun).
  destruct (Qltb u (compose.p self));
    apply bind_Ok in Hrun as (t & g2 & Ht & Hrun); apply lift_Ok in Ht as [Ht ->];
    apply py_index_elem in Ht;
    exact (call_forced_keeps_shape t (proj1 (Forall_forall _ _) Hall t Ht) T V C
             (plain (kw_data kw)) kw' _ _ Hshape Hrun).
Qed.

Lemma Sequential_keeps_shape (self : compose.BaseCompose G) :
  Forall (fun t => keeps_shape (op_call t)) (compose.transforms self) →
  keeps_shape (op_call (compose.Sequential_op self)).
Proof.
  intros Hall T V C kw kw' g g' Hshape Hrun. simpl in Hrun.
  unfold compose.Sequential_call in Hrun.
  apply bind_Ok in Hrun as (u & g1 & _ & Hrun).
  destruct (Qltb u (compose.p self)).
  - exact (run_all_keeps_shape _ Hall T V C kw kw' _ _ Hshape Hrun).
  - apply ret_Ok in Hrun as [-> _]. exact Hshape.
Qed.

Lemma NoOp_keeps_shape (self : compose.BaseCompose G) :
  keeps_shape (op_call (compose.NoOp_op self)).
Proof.
  intros T V C kw kw' g g' Hshape Hrun. simpl in Hrun.
  apply ret_Ok in Hrun as [-> _]. exact Hshape.
Qed.

Variables cos sin : Q → Q.

Lemma system_transform_keeps_shape (t : transform.BaseTransform G) :
  system_transform cos sin t → effect_keeps_shape (transform.apply t).
Proof.
  intros Ht. destruct Ht; simpl.
  - apply HorizontalFlip_keeps_shape.
  - apply RandomOcclusion_keeps_shape.
  - apply WholeOcclusion_keeps_shape.
  - apply SpecificOcclusion_keeps_shape.
  - apply InterpolateOcclusions_keeps_shape.
  - apply Jittering_keeps_shape.
  - apply MovePerturbation_keeps_shape.
  - apply SwapPerturbation_keeps_shape.
  - apply MirrorPerturbation_keeps_shape.
Qed.

(** Induction over the operations of the library, the hypothesis being
    available for every child of a combinator. *)
Lemma system_operation_children_ind (P : Operation G → Prop) :
  (∀ t : transform.BaseTransform G,
     system_transform cos sin t → P (transform.as_operation t)) →
  (∀ s : select.BaseSelect G, P (select.as_operation s)) →
  (∀ c : compose.Compose G,
     Forall P (compose.transforms (compose.compose_base c)) → P (compose.Compose_op c)) →
  (∀ c : compose.OneOf G,
     Forall P (compose.transforms (compose.oneof_base c)) → P (compose.OneOf_op c)) →
  (∀ c : compose.SomeOf G,
     Forall P (compose.transforms (compose.someof_base c)) → P (compose.SomeOf_op c)) →
  (∀ c : compose.BaseCompose G,
     Forall P (compose.transforms c) → P (compose.OneOrOther_op c)) →
  (∀ c : compose.BaseCompose G,
     Forall P (compose.transforms c) → P (compose.Sequential_op c)) →
  (∀ c : compose.BaseCompose G, P (compose.NoOp_op c)) →
  ∀ op : Operation G, system_operation cos sin op → P op.
Proof.
  intros Htransform Hselect Hcompose Honeof Hsomeof Hother Hseq Hnoop.
  fix IH 2. intros op Hop.
  assert (Hchildren : ∀ ts, Forall (system_operation cos sin) ts → Forall P ts).
  { fix IHts 2. intros ts Hts. destruct Hts as [|t ts Ht Hts].
    - constructor.
    - constructor; [exact (IH t Ht)|exact (IHts ts Hts)]. }
  destruct Hop as [t Ht | s | c Hc | c Hc | c Hc | c Hc | c Hc | c].
  - apply Htransform. exact Ht.
  - apply Hselect.
  - apply Hcompose. exact (Hchildren _ Hc).
  - apply Honeof. exact (Hchildren _ Hc).
  - apply Hsomeof. exact (Hchildren _ Hc).
  - apply Hother. exact (Hchildren _ Hc).
  - apply Hseq. exact (Hchildren _ Hc).
  - apply Hnoop.
Qed.


End calls_keep_shape.


Lemma draw_distinct_one_joint (fuel : nat) (g : unit) :
  @perturbation.draw_distinct unit lowest.lowest_source fuel 1 g = Raise OutOfFuel.
Proof.
  induction fuel as [|fuel IH]; [reflexivity|].
  cbn [perturbation.draw_distinct]. unfold bind. destruct g. apply IH.
Qed.


(** The pipeline of the example returns coordinates of the shape (2, 2, 2)
    it received. *)
Example shape_pipeline_evaluated :
  (fun r => match r with
            | Ok (kw, _) => kw_data kw !! "keypoints"
            | Raise _ => None
            end)
    (op_call (compose.Compose_op examples.shape_pipeline) (plain examples.small_data)
       [0; 3 # 4; 0; 0; 0; 0; 0; 0; 1 # 2; 0; 1 # 2; 1 # 2; 0; 1 # 2]%Q)
  = Some (FloatArr [[[1; 1]; [4 # 4; 4 # 4]]; [[1; 1]; [4 # 4; 4 # 4]]]%Q).
Proof.
  vm_compute. reflexivity.
Qed.

(** * Further properties of the code *)

(** ** select.py: what a selection leaves alone *)

Lemma assign_rows_untouched {A : Type} (same : A → A → bool) :
  ∀ (writes : list (Z * A)) (l l' : list A),
    assign_rows same l writes = Ok l' →
    length l' = length l
    ∧ ∀ t : nat,
        (∀ w, w ∈ writes → normalize_index (length l) (fst w) ≠ Ok t) →
        l' !! t = l !! t.
Proof.
  induction writes as [|[i x] writes IH]; intros l l' Hrun; simpl in Hrun.
  - injection Hrun as <-. split; reflexivity.
  - apply rbind_Ok in Hrun as (j & Hj & Hrun).
    destruct (l !! j) as [old|] eqn:Hold; [|discriminate].
    destruct (same old x); [|discriminate].
    apply IH in Hrun as [Hlen Hkeep]. rewrite length_insert in Hlen, Hkeep.
    split; [exact Hlen|]. intros t Ht. rewrite Hkeep.
    + apply list_lookup_insert_ne. intros <-. apply (Ht (i, x)); [left|exact Hj].
    + intros w Hw. apply Ht. right. exact Hw.
Qed.

Lemma fancy_set_untouched {A : Type} (same : A → A → bool) (l l' : list A)
    (ids : list Z) (src : list A) :
  fancy_set same l ids src = Ok l' →
  ∀ t : nat, (∀ i, i ∈ ids → normalize_index (length l) i ≠ Ok t) → l' !! t = l !! t.
Proof.
  intros Hrun t Ht. unfold fancy_set in Hrun.
  destruct (bool_decide (length src = length ids)); [|discriminate].
  apply assign_rows_untouched in Hrun as [_ Hkeep]. apply Hkeep.
  intros [i x] Hw. simpl. apply Ht. apply elem_of_zip_l in Hw. exact Hw.
Qed.

Lemma setitem_ids_untouched (a a' src : ndarray) (ids : list Z) :
  setitem_ids a ids src = Ok a' →
  ∀ t : nat, (∀ i, i ∈ ids → normalize_index (len a) i ≠ Ok t) →
             frame_at a' t = frame_at a t.
Proof.
  intros Hrun t Ht.
  destruct a as [l|l], src as [s|s]; simpl in Hrun; try discriminate;
    apply rbind_Ok in Hrun as (r & Hset & Hret); injection Hret as <-; simpl;
    rewrite (fancy_set_untouched _ _ _ _ _ Hset t Ht); reflexivity.
Qed.

(** The last position at which an index occurs in a list of indices. *)
Lemma last_occurrence {A : Type} `{EqDecision A} (x : A) (l : list A) :
  x ∈ l → ∃ j : nat, l !! j = Some x ∧ ∀ j' : nat, (j < j')%nat → l !! j' ≠ Some x.
Proof.
  induction l as [|y l IH]; intros Hin; [inversion Hin|].
  destruct (decide (x ∈ l)) as [Hl|Hl].
  - destruct (IH Hl) as (j & Hj & Hlast). exists (S j). split; [exact Hj|].
    intros [|j'] Hlt; [lia|]. simpl. apply Hlast. lia.
  - apply elem_of_cons in Hin as [->|Hin]; [|contradiction].
    exists 0%nat. split; [reflexivity|].
    intros [|j'] Hlt Hj'; [lia|]. simpl in Hj'.
    apply Hl. eapply list_elem_of_lookup_2. exact Hj'.
Qed.

Lemma same_frames_same_array (a a' : ndarray) :
  shape a' = shape a → (∀ t, frame_at a' t = frame_at a t) → a' = a.
Proof.
  intros Hshape Hframes.
  destruct a as [l|l], a' as [l'|l']; simpl in Hshape; try discriminate; f_equal;
    apply list_eq; intros t; specialize (Hframes t); simpl in Hframes;
    destruct (l' !! t), (l !! t); simpl in Hframes; congruence.
Qed.

Lemma setitem_ids_of_picked (a : ndarray) (ids : list Z) :
  Forall (fun i => (0 ≤ i < Z.of_nat (len a))%Z) ids →
  setitem_ids a ids (pick_frames ids a) = Ok a.
Proof.
  intros Hrange.
  destruct (setitem_ids_spec a (pick_frames ids a) ids Hrange eq_refl)
    as (a' & Hrun & Hshape & Hother & Hlast).
  rewrite Hrun. f_equal. apply same_frames_same_array; [exact Hshape|].
  intros t. destruct (decide (Z.of_nat t ∈ ids)) as [Hin|Hout]; [|apply Hother; exact Hout].
  destruct (last_occurrence _ _ Hin) as (j & Hj & Hlater).
  pose proof (Hlast j (Z.of_nat t) Hj Hlater) as Hwritten.
  rewrite Nat2Z.id in Hwritten. rewrite Hwritten.
  destruct a as [l|l]; simpl in *;
    rewrite omap_total_lookup, Hj by (apply in_range_lookups; exact Hrange);
    simpl; rewrite Nat2Z.id; destruct (l !! t); reflexivity.
Qed.

Section selection_properties.
Context {G : Type} `{RandomSource G}.

(** Extracting the selected frames and writing them back unchanged gives
    the record back: a selection without children, whose indices lie
    within the sequence, returns the record it received. *)
Theorem selection_without_children_returns_record (self : select.BaseSelect G)
    (data : Arrays) (T : nat) (ids : list Z) (g g1 : G) :
  select.transforms self = [] →
  record_of_length T data →
  select.get_selection self data g = Ok (ids, g1) →
  Forall (fun i => (0 ≤ i < Z.of_nat T)%Z) ids →
  select.call self true data g = Ok (data, g1).
Proof.
  intros Hnone Hrecord Hids Hrange.
  unfold select.call, select.gate_fails. cbn [bind ret].
  unfold select.select_effect, bind. rewrite Hids.
  rewrite (extract_in_range data ids T Hrecord Hrange). cbn [lift].
  rewrite Hnone. cbn [run_all ret plain kw_data].
  assert (Hback : select.scatter_back data ids (pick_frames ids <$> data) = Ok data).
  { unfold select.scatter_back.
    rewrite (dict_mapM_fmap _ (fun a => a) data); [rewrite map_fmap_id; reflexivity|].
    intros key a Hk. unfold getitem. rewrite lookup_fmap, Hk. cbn [fmap option_fmap option_map rbind].
    apply setitem_ids_of_picked. destruct Hrecord as [_ Hlen].
    rewrite (Hlen _ _ Hk). exact Hrange. }
  rewrite Hback. reflexivity.
Qed.

(** Whatever the strategy and whatever the children do, a selection that
    returns has either returned the record as it was (the probability gate
    was closed) or kept every array, with its shape, and every frame that
    is not denoted by an index of the selection its strategy made on the
    record, with the generator the gate left. *)
Theorem selection_keeps_unselected_frames (self : select.BaseSelect G)
    (force_apply : bool) (data data' : Arrays) (g g' : G) :
  select.call self force_apply data g = Ok (data', g') →
  ∃ (skip : bool) (g0 : G),
    select.gate_fails (select.p self) force_apply g = Ok (skip, g0)
    ∧ if skip then data' = data ∧ g' = g0
      else ∃ (ids : list Z) (g1 : G),
          select.get_selection self data g0 = Ok (ids, g1)
          ∧ dom data' = dom data
          ∧ ∀ (key : string) (a : ndarray),
              data !! key = Some a →
              ∃ a' : ndarray,
                data' !! key = Some a'
                ∧ shape a' = shape a
                ∧ ∀ t : nat,
                    (∀ i, i ∈ ids → normalize_index (len a) i ≠ Ok t) →
                    frame_at a' t = frame_at a t.
Proof.
  intros Hrun. unfold select.call in Hrun.
  apply bind_Ok in Hrun as (skip & g0 & Hgate & Hrun).
  exists skip, g0. split; [exact Hgate|]. destruct skip.
  - apply ret_Ok in Hrun as [-> ->]. split; reflexivity.
  - unfold select.select_effect in Hrun.
    apply bind_Ok in Hrun as (ids & g1 & Hids & Hrun).
    apply bind_Ok in Hrun as (sd & g2 & _ & Hrun).
    apply bind_Ok in Hrun as (sd' & g3 & _ & Hrun).
    apply lift_Ok in Hrun as [Hscatter _].
    exists ids, g1. split; [exact Hids|].
    unfold select.scatter_back in Hscatter. apply dict_mapM_Ok in Hscatter.
    split.
    + apply set_eq. intros key. rewrite !elem_of_dom. specialize (Hscatter key).
      destruct (data !! key) as [a|].
      * destruct Hscatter as (b & _ & ->). split; intros _; eexists; reflexivity.
      * rewrite Hscatter. reflexivity.
    + intros key a Hk. specialize (Hscatter key). rewrite Hk in Hscatter.
      destruct Hscatter as (b & Hb & Hout). exists b. split; [exact Hout|].
      apply rbind_Ok in Hb as (src & _ & Hset). split.
      * exact (setitem_ids_shape a b src ids Hset).
      * exact (setitem_ids_untouched a b src ids Hset).
Qed.
(** A frame index outside [range(len(keypoints))], a negative one
    included, makes a fixed-frame-list selection fail its assertion before
    any frame is extracted or any child is run. *)
Theorem SelectFrames_rejects_out_of_range (transforms : list (Operation G))
    (frames : list Z) (p : Q) (data : Arrays) (a : ndarray) (f : Z) (g : G) :
  data !! "keypoints" = Some a →
  f ∈ frames → ¬ (0 ≤ f < Z.of_nat (len a))%Z →
  select.call (select.SelectFrames transforms frames p) true data g
  = Raise AssertionError.
Proof.
  intros Hk Hin Hout.
  unfold select.call, select.gate_fails. cbn [bind ret].
  unfold select.select_effect, bind. cbn [select.get_selection select.SelectFrames].
  unfold select.SelectFrames_get_selection, select.keypoints_len, getitem, lift.
  rewrite Hk. cbn [rbind].
  assert (Hall : forallb (select.in_range (len a)) frames = false).
  { apply not_true_is_false. intros Hall. rewrite forallb_forall in Hall.
    apply list_elem_of_In in Hin. specialize (Hall f Hin).
    unfold select.in_range in Hall. apply andb_true_iff in Hall as [H1 H2].
    apply Z.leb_le in H1. apply Z.ltb_lt in H2. apply Hout. lia. }
  rewrite Hall. reflexivity.
Qed.

End selection_properties.

(** ** select.py: indices beyond the sequence *)

Lemma rmapM_Raise {A B : Type} (f : A → Result B) (l : list A) (e : exn) :
  rmapM f l = Raise e → ∃ x, x ∈ l ∧ f x = Raise e.
Proof.
  induction l as [|x l IH]; simpl; [discriminate|].
  destruct (f x) as [y|e'] eqn:Hx; simpl.
  - destruct (rmapM f l) as [ys|e'']; simpl; [discriminate|].
    intros Heq. injection Heq as ->. destruct (IH eq_refl) as (x' & Hin & Hx').
    exists x'. split; [right; exact Hin|exact Hx'].
  - intros Heq. injection Heq as ->. exists x. split; [left|exact Hx].
Qed.

Lemma py_index_Raise {A : Type} (l : list A) (i : Z) (e : exn) :
  py_index l i = Raise e → e = IndexError.
Proof.
  unfold py_index, normalize_index.
  destruct ((0 <=? i) && (i <? Z.of_nat (length l)))%Z; simpl.
  - destruct (l !! Z.to_nat i); [discriminate|]. intros Heq. injection Heq as <-. reflexivity.
  - destruct ((- Z.of_nat (length l) <=? i) && (i <? 0))%Z; simpl.
    + destruct (l !! Z.to_nat (Z.of_nat (length l) + i)); [discriminate|].
      intros Heq. injection Heq as <-. reflexivity.
    + intros Heq. injection Heq as <-. reflexivity.
Qed.

Lemma py_index_beyond {A : Type} (l : list A) (i : Z) :
  (Z.of_nat (length l) ≤ i)%Z → py_index l i = Raise IndexError.
Proof.
  intros Hi. unfold py_index, normalize_index.
  destruct ((0 <=? i) && (i <? Z.of_nat (length l)))%Z eqn:Hin.
  - apply andb_true_iff in Hin as [_ Hlt]. apply Z.ltb_lt in Hlt. lia.
  - destruct ((- Z.of_nat (length l) <=? i) && (i <? 0))%Z eqn:Hneg; [|reflexivity].
    apply andb_true_iff in Hneg as [_ Hlt]. apply Z.ltb_lt in Hlt. lia.
Qed.

Lemma getitem_ids_Raise (a : ndarray) (ids : list Z) (e : exn) :
  getitem_ids a ids = Raise e → e = IndexError.
Proof.
  destruct a as [l|l]; simpl; unfold fancy_get;
    destruct (rmapM (py_index l) ids) as [r|e'] eqn:Hrun; simpl; try discriminate;
    intros Heq; injection Heq as <-;
    apply rmapM_Raise in Hrun as (i & _ & Hi); exact (py_index_Raise l i e' Hi).
Qed.

Lemma getitem_ids_beyond (a : ndarray) (ids : list Z) (i : Z) :
  i ∈ ids → (Z.of_nat (len a) ≤ i)%Z → getitem_ids a ids = Raise IndexError.
Proof.
  intros Hin Hi.
  destruct (getitem_ids a ids) as [r|e] eqn:Hrun.
  - exfalso. destruct a as [l|l]; simpl in Hrun, Hi;
      apply rbind_Ok in Hrun as (r' & Hget & _); unfold fancy_get in Hget;
      apply rmapM_Ok in Hget; apply list_elem_of_lookup in Hin as [j Hj];
      destruct (Forall2_lookup_l _ _ _ _ _ Hget Hj) as (y & _ & Hy);
      rewrite (py_index_beyond l i Hi) in Hy; discriminate.
  - f_equal. exact (getitem_ids_Raise a ids e Hrun).
Qed.

Lemma extract_beyond (data : Arrays) (a : ndarray) (ids : list Z) (i : Z) :
  data !! "keypoints" = Some a → i ∈ ids → (Z.of_nat (len a) ≤ i)%Z →
  select.extract data ids = Raise IndexError.
Proof.
  intros Hk Hin Hi. unfold select.extract.
  pose proof (dict_mapM_cases (fun _ d => getitem_ids d ids) data) as Hcases.
  destruct (dict_mapM (fun _ d => getitem_ids d ids) data) as [out|e].
  - specialize (Hcases "keypoints"). rewrite Hk in Hcases.
    destruct Hcases as (b & Hb & _).
    rewrite (getitem_ids_beyond a ids i Hin Hi) in Hb. discriminate.
  - destruct Hcases as (key & d & _ & Hd). f_equal.
    exact (getitem_ids_Raise d ids e Hd).
Qed.

Section oversized_window.
Context {G : Type} `{RandomSource G}.
Variable norm : list Q → Q.
Variable argsort : list Q → list Z.
Variable minus : Q → Q → Q.
Variable mean : list Q → Q.
Variable sum : list Q → Q.

(** A contiguous highest-movement selection whose drawn size exceeds the
    number of frames never enters its search loop and selects the indices
    0 .. size-1; the call then fails with an index error when it extracts
    the frames, before any child is run. *)
Theorem SelectHighMovement_longer_than_sequence (self : select.SelectHighMovement G)
    (data : Arrays) (kp : list kframe) (inv : list mframe) (T V s : nat) (g : G) :
  data !! "keypoints" = Some (FloatArr kp) →
  data !! "invalid" = Some (BoolArr inv) →
  length kp = T → length inv = T →
  Forall (fun f => length f = V) kp → Forall (fun r => length r = V) inv →
  select.contiguous self = true →
  select.size self = Z.of_nat s → (T < s)%nat →
  (∀ js, select.part_given (select.part self) = Some js →
         Forall (fun j => (0 ≤ j < Z.of_nat V)%Z) js) →
  select.SelectHighMovement_get_selection norm argsort minus mean sum self data g
  = Ok (map Z.of_nat (seq 0 s), g)
  ∧ select.call (select.SelectHighMovement_select norm argsort minus mean sum self) true data g
    = Raise IndexError.
Proof.
  intros Hkp_data Hinv_data HkpT HinvT Hkp Hinv Hcont Hsize Hs Hpart.
  assert (Hsel : select.SelectHighMovement_get_selection norm argsort minus mean sum self data g
                 = Ok (map Z.of_nat (seq 0 s), g)).
  { destruct (considered_rect (select.part self) kp V Hkp Hpart) as [Hlen_kp [Vk Hrect_kp]].
    destruct (considered_rect (select.part self) inv V Hinv Hpart) as [Hlen_inv [Vi Hrect_inv]].
    assert (HV : length (considered (select.part self) kp) = 0%nat ∨ Vk = Vi).
    { unfold considered in *. destruct (select.part_given (select.part self)) as [js|] eqn:Hg.
      - destruct (restrict_joints_rect kp js V Hkp (Hpart js eq_refl)) as [_ Hk].
        destruct (restrict_joints_rect inv js V Hinv (Hpart js eq_refl)) as [_ Hi].
        destruct (restrict_joints js kp) as [|f0 r0] eqn:Er; [left; reflexivity|right].
        destruct (restrict_joints js inv) as [|m0 r1] eqn:Ei.
        + simpl in Hlen_kp, Hlen_inv. lia.
        + apply Forall_cons in Hk as [Hk _], Hi as [Hi _].
          apply Forall_cons in Hrect_kp as [Hk' _], Hrect_inv as [Hi' _]. lia.
      - destruct kp as [|f0 r0]; [left; reflexivity|right].
        destruct inv as [|m0 r1]; [simpl in *; lia|].
        apply Forall_cons in Hkp as [Hk _], Hinv as [Hi _].
        apply Forall_cons in Hrect_kp as [Hk' _], Hrect_inv as [Hi' _]. lia. }
    assert (Hrect_inv' : Forall (fun r => length r = Vk) (considered (select.part self) inv)).
    { destruct HV as [Hempty| ->]; [|exact Hrect_inv].
      destruct (considered (select.part self) inv); [constructor|].
      simpl in *. lia. }
    destruct (movement_scores_spec norm minus mean (considered (select.part self) kp)
                (considered (select.part self) inv) T Vk)
      as (scores & Hscores & _ & _); try lia; try assumption.
    unfold select.SelectHighMovement_get_selection, lift, get_keypoints, get_invalid, getitem.
    rewrite Hkp_data, Hinv_data. cbn [rbind as_float as_bool].
    assert (Hconsidered :
              (match select.part_given (select.part self) with
               | Some js =>
                   let? kp0 := select.take_joints kp js in
                   let? inv0 := select.take_joints inv js in Ok (kp0, inv0)
               | None => Ok (kp, inv)
               end)
              = Ok (considered (select.part self) kp, considered (select.part self) inv)).
    { unfold considered. destruct (select.part_given (select.part self)) as [js|] eqn:Hg.
      - rewrite (take_joints_in_range kp js V Hkp (Hpart js eq_refl)).
        rewrite (take_joints_in_range inv js V Hinv (Hpart js eq_refl)). reflexivity.
      - reflexivity. }
    rewrite Hconsidered. cbn [rbind fst snd]. rewrite Hscores. cbn [rbind].
    rewrite Hcont, Hsize, HkpT. unfold select.best_window, py_range.
    replace (Z.to_nat (Z.of_nat T - Z.of_nat s)) with 0%nat by lia.
    cbn [seq fold_left snd]. rewrite (arange_nat 0 s). reflexivity. }
  split; [exact Hsel|].
  unfold select.call, select.gate_fails. cbn [bind ret].
  unfold select.select_effect, bind.
  cbn [select.get_selection select.SelectHighMovement_select]. rewrite Hsel.
  rewrite (extract_beyond data (FloatArr kp) (map Z.of_nat (seq 0 s)) (Z.of_nat T)).
  - reflexivity.
  - exact Hkp_data.
  - apply list_elem_of_fmap. exists T. split; [reflexivity|].
    apply elem_of_seq. lia.
  - simpl. lia.
Qed.

End oversized_window.

(** ** select.py: the inner frames of a selection with border *)

Lemma arange_in_range (start stop : Z) :
  Forall (fun i => (start ≤ i < stop)%Z) (arange start stop).
Proof.
  unfold arange. apply Forall_forall. intros i Hi.
  apply list_elem_of_fmap in Hi as (k & -> & Hk). apply elem_of_seq in Hk. lia.
Qed.

Section border_properties.
Context {G : Type} `{RandomSource G}.


End border_properties.

Section random_frames_properties.
Context {G : Type} `{RandomSource G}.

(** When the two draws of a contiguous random selection respect their
    ranges, the selection is [size] consecutive frames of the sequence,
    from the drawn start on, and the extraction of these frames
    succeeds. *)
Theorem SelectRandomFrames_selects_a_window (min_num max_num : Z) (data : Arrays)
    (T : nat) (size start : Z) (g g1 g2 : G) :
  record_of_length T data →
  randint min_num (max_num + 1) g = Ok (size, g1) →
  randint 0 (Z.of_nat T - size + 1) g1 = Ok (start, g2) →
  (0 ≤ size)%Z → (0 ≤ start ≤ Z.of_nat T - size)%Z →
  select.SelectRandomFrames_get_selection min_num max_num true data g
  = Ok (arange start (start + size), g2)
  ∧ length (arange start (start + size)) = Z.to_nat size
  ∧ select.extract data (arange start (start + size))
    = Ok (pick_frames (arange start (start + size)) <$> data).
Proof.
  intros Hrecord Hsize Hstart Hs Hrange. split; [|split].
  - destruct Hrecord as [[kp Hkp] Hlen].
    unfold select.SelectRandomFrames_get_selection, bind, lift, select.keypoints_len, getitem.
    rewrite Hkp. cbn [rbind]. rewrite (Hlen _ _ Hkp), Hsize, Hstart. reflexivity.
  - unfold arange. rewrite length_map, length_seq. f_equal. lia.
  - apply (extract_in_range data _ T Hrecord).
    eapply Forall_impl; [apply arange_in_range|]. intros i Hi. simpl in Hi. simpl. lia.
Qed.

End random_frames_properties.

(** ** compose.py: argument checks and the [force_apply] keyword *)

Section compose_more.
Context {G : Type} `{RandomSource G}.

Lemma zero_frames_all_valid (kp : list kframe) :
  zip_with compose.zero_frame kp (compose.full_false kp) = kp.
Proof.
  unfold compose.full_false. induction kp as [|f kp IH]; [reflexivity|].
  simpl. f_equal; [|exact IH].
  unfold compose.zero_frame. clear. induction f as [|c f IH]; [reflexivity|].
  simpl. f_equal. exact IH.
Qed.

Lemma full_false_shape (kp : list kframe) :
  map mframe_shape (compose.full_false kp) = compose.mask_shape_of kp.
Proof.
  unfold compose.full_false, compose.mask_shape_of. rewrite map_map.
  apply map_ext. intros f. unfold mframe_shape. apply length_map.
Qed.

Lemma finalize_all_valid (d : Arrays) (kp : list kframe) :
  d !! "keypoints" = Some (FloatArr kp) →
  d !! "invalid" = Some (BoolArr (compose.full_false kp)) →
  compose.finalize (plain d) = Ok (plain d).
Proof.
  intros Hk Hi. unfold compose.finalize, getitem, plain. cbn [kw_data kw_force].
  rewrite Hk, Hi. cbn [rbind compose.zero_invalid].
  rewrite bool_decide_eq_true_2 by apply full_false_shape.
  rewrite zero_frames_all_valid. cbn [rbind]. rewrite insert_id by exact Hk. reflexivity.
Qed.

(** Called with [keypoints] only, a root pipeline without children
    returns the coordinates as they were, together with an all-false
    [invalid] mask and an all-false [peturbation] mask of shape (T, V),
    whether or not invalid joints are to be zeroed. *)
Theorem Compose_supplies_missing_masks (c : compose.Compose G) (force_apply : bool)
    (data : Arrays) (kp : list kframe) (g : G) :
  data !! "keypoints" = Some (FloatArr kp) →
  data !! "invalid" = None → data !! "peturbation" = None →
  compose.transforms (compose.compose_base c) = [] →
  compose.Compose_call c [] force_apply data g
  = Ok (plain (<["peturbation" := BoolArr (compose.full_false kp)]>
                 (<["invalid" := BoolArr (compose.full_false kp)]> data)), g).
Proof.
  intros Hk Hi Hp Hnone.
  unfold compose.Compose_call, compose.check_args, compose.default_mask.
  rewrite Hk, Hi. cbn [rbind]. rewrite lookup_insert_ne by discriminate. rewrite Hp.
  cbn [lift bind]. rewrite Hnone. cbn [run_all]. unfold bind, ret, lift.
  destruct (compose.set_invalid_to_zero c); [|reflexivity].
  rewrite (finalize_all_valid _ kp); [reflexivity| |].
  - rewrite !lookup_insert_ne by discriminate. exact Hk.
  - rewrite lookup_insert_ne by discriminate. apply lookup_insert_eq.
Qed.

End compose_more.

Section force_apply_keyword.
Context {G : Type} `{RandomSource G}.

(** The keyword [force_apply] stays in the dictionary a [NoOp] returns.
    A multi weighted pick that runs a [NoOp] and then one more child
    therefore passes [force_apply] twice to that child: the call raises a
    type error. *)
Theorem SomeOf_raises_after_NoOp (self : compose.SomeOf G) (force_apply : bool)
    (data : Arrays) (g g0 g1 : G) (i j : Z) (rest : list Z)
    (noop : compose.BaseCompose G) (t : Operation G) :
  let children := compose.transforms (compose.someof_base self) in
  compose.pick_gate (compose.someof_ps self) (compose.p (compose.someof_base self))
    force_apply g = Ok (true, g0) →
  choice (length children) (compose.n self) (compose.replace self)
         (Some (compose.someof_ps self)) g0 = Ok (i :: j :: rest, g1) →
  py_index children i = Ok (compose.NoOp_op noop) →
  py_index children j = Ok t →
  compose.SomeOf_call self force_apply data g = Raise TypeError.
Proof.
  intros children Hgate Hchoice Hi Hj.
  unfold compose.SomeOf_call, bind. rewrite Hgate.
  unfold compose.SomeOf_effect, bind. fold children. rewrite Hchoice.
  cbn [compose.run_picked]. unfold bind, lift. rewrite Hi.
  cbn [call_forced plain kw_force op_call compose.NoOp_op compose.NoOp_call ret].
  rewrite Hj. reflexivity.
Qed.

(** The same keyword reaches the next child of the enclosing loop: after
    a single weighted pick has run a [NoOp], the transform that follows it
    in a [Compose] or [Sequential] runs its effect whatever its own [p],
    [always_apply] and draw are. *)
Theorem NoOp_pick_forces_next_child (o : compose.OneOf G) (noop : compose.BaseCompose G)
    (t : transform.BaseTransform G) (data : Arrays) (g g0 g1 : G) :
  compose.transforms (compose.oneof_base o) = [compose.NoOp_op noop] →
  compose.pick_gate (compose.oneof_ps o) (compose.p (compose.oneof_base o)) false g
  = Ok (true, g0) →
  choice1 1 (compose.oneof_ps o) g0 = Ok (0%Z, g1) →
  run_all [compose.OneOf_op o; transform.as_operation t] (plain data) g
  = bind (transform.apply t data) (fun d => ret (plain d)) (snd (py_random g1)).
Proof.
  intros Hchildren Hgate Hchoice.
  assert (Hpick : op_call (compose.OneOf_op o) (plain data) g
                  = Ok (mkKwargs (Some true) data, g1)).
  { cbn [op_call compose.OneOf_op plain force_of kw_force kw_data default].
    unfold compose.OneOf_call, bind. rewrite Hgate.
    unfold compose.OneOf_effect, bind. rewrite Hchildren. cbn [length]. rewrite Hchoice.
    reflexivity. }
  change (run_all [compose.OneOf_op o; transform.as_operation t] (plain data) g)
    with (bind (op_call (compose.OneOf_op o) (plain data))
               (fun kw => bind (op_call (transform.as_operation t) kw)
                               (fun kw' => ret kw')) g).
  unfold bind at 1. rewrite Hpick.
  cbn [op_call transform.as_operation force_of kw_force kw_data default].
  unfold transform.call, draw, bind, ret.
  destruct (py_random g1) as [u g2]. cbn [fst snd].
  rewrite !orb_true_r.
  destruct (transform.apply t data g2) as [[d g3]|e]; reflexivity.
Qed.

(** [OneOrOther] ignores [force_apply].  Built from [first] and
    [second], it runs [first] when its draw is below [p] and [second]
    otherwise, each with [force_apply=True]; built from a single operation
    it always runs that operation; built from an empty list every call
    raises an index error. *)
Theorem OneOrOther_runs_first_or_last (p : Q) (force_apply : bool) (data : Arrays)
    (g : G) :
  let u := fst (py_random g) in
  let g' := snd (py_random g) in
  let forced := mkKwargs (Some true) data in
  (∀ first second self,
     compose.OneOrOther_init (Some first) (Some second) None p = Ok self →
     compose.OneOrOther_call self force_apply data g
     = if Qltb u p then op_call first forced g' else op_call second forced g')
  ∧ (∀ only self,
       compose.OneOrOther_init None None (Some (compose.Single only)) p = Ok self →
       compose.OneOrOther_call self force_apply data g = op_call only forced g')
  ∧ (∀ self,
       compose.OneOrOther_init None None (Some (compose.Sequence [])) p = Ok self →
       compose.OneOrOther_call self force_apply data g = Raise IndexError).
Proof.
  intros u g' forced. unfold compose.OneOrOther_call, bind, draw. subst u g'.
  destruct (py_random g) as [u g']. cbn [fst snd].
  split; [|split].
  - intros first second self Hinit. injection Hinit as <-. cbn.
    destruct (Qltb u p); reflexivity.
  - intros only self Hinit. injection Hinit as <-. cbn.
    destruct (Qltb u p); reflexivity.
  - intros self Hinit. injection Hinit as <-. cbn.
    destruct (Qltb u p); reflexivity.
Qed.

Lemma check_args_lookup (data d0 : Arrays) (a : ndarray) (key : string) :
  compose.check_args data = Ok d0 → data !! key = Some a → d0 !! key = Some a.
Proof.
  intros Hrun Hk. unfold compose.check_args in Hrun.
  destruct (data !! "keypoints") as [[kp|m]|]; try discriminate.
  apply rbind_Ok in Hrun as (d1 & Hfirst & Hsecond).
  assert (Hstep : ∀ (k : string) (d d' : Arrays),
            compose.default_mask kp k d = Ok d' → d !! key = Some a → d' !! key = Some a).
  { intros k d d' Hd Hin. unfold compose.default_mask in Hd.
    destruct (d !! k) as [b|] eqn:Hb.
    - apply rbind_Ok in Hd as (u & _ & Hret). injection Hret as <-. exact Hin.
    - injection Hd as <-. rewrite lookup_insert_ne; [exact Hin|]. intros <-. congruence. }
  exact (Hstep _ _ _ Hsecond (Hstep _ _ _ Hfirst Hk)).
Qed.

Lemma zero_frames_all_invalid (kp : list kframe) (inv : list mframe) :
  map mframe_shape inv = compose.mask_shape_of kp →
  zip_with compose.zero_frame kp (map (map (fun _ => true)) inv)
  = map (map (map (fun _ => 0%Q))) kp.
Proof.
  unfold compose.mask_shape_of, mframe_shape. revert inv.
  induction kp as [|f kp IH]; intros [|m inv] Hshape; simpl in Hshape; try discriminate;
    [reflexivity|].
  injection Hshape as Hm Hrest. simpl. f_equal; [|apply IH; exact Hrest].
  unfold compose.zero_frame. clear -Hm. revert m Hm.
  induction f as [|c f IHf]; intros [|b m] Hm; simpl in Hm; try discriminate; [reflexivity|].
  simpl. f_equal. apply IHf. lia.
Qed.

(** A root pipeline that zeroes invalid joints and whose only child is
    [WholeOcclusion(always_apply=True)] returns, for every record with a
    fitting mask, every joint invalid and every coordinate zero. *)
Theorem occluded_pipeline_returns_zeros (c : compose.Compose G) (p : Q)
    (force_apply : bool) (data d0 : Arrays) (kp : list kframe) (inv : list mframe)
    (g : G) :
  compose.transforms (compose.compose_base c)
  = [transform.as_operation (occlusion.WholeOcclusion true p)] →
  compose.set_invalid_to_zero c = true →
  data !! "keypoints" = Some (FloatArr kp) →
  data !! "invalid" = Some (BoolArr inv) →
  compose.check_args data = Ok d0 →
  compose.Compose_call c [] force_apply data g
  = Ok (plain (<["keypoints" := FloatArr (map (map (map (fun _ => 0%Q))) kp)]>
                 (<["invalid" := BoolArr (map (map (fun _ => true)) inv)]> d0)),
        snd (py_random g)).
Proof.
  intros Hchildren Hzero Hk Hi Hcheck.
  assert (Hfits : map mframe_shape inv = compose.mask_shape_of kp).
  { unfold compose.check_args, compose.default_mask in Hcheck. rewrite Hk, Hi in Hcheck.
    cbn [compose.mask_matches] in Hcheck.
    destruct (bool_decide (map mframe_shape inv = compose.mask_shape_of kp)) eqn:Hb;
      [apply bool_decide_eq_true in Hb; exact Hb|discriminate]. }
  pose proof (check_args_lookup data d0 _ "keypoints" Hcheck Hk) as Hk0.
  pose proof (check_args_lookup data d0 _ "invalid" Hcheck Hi) as Hi0.
  unfold compose.Compose_call, bind, lift. rewrite Hcheck, Hchildren, Hzero.
  cbn [run_all call_star op_call transform.as_operation plain force_of kw_force kw_data
       default].
  unfold bind, ret, transform.call, draw, bind.
  destruct (py_random g) as [u g']. cbn [fst snd].
  cbn [transform.always_apply transform.apply occlusion.WholeOcclusion].
  rewrite orb_true_r. cbn [orb].
  unfold occlusion.WholeOcclusion_apply, bind, lift, ret, get_invalid, getitem.
  rewrite Hi0. cbn [rbind as_bool].
  unfold compose.finalize, getitem. cbn [kw_data kw_force plain].
  rewrite lookup_insert_ne by discriminate. rewrite Hk0. rewrite lookup_insert_eq.
  cbn [rbind compose.zero_invalid].
  rewrite bool_decide_eq_true_2.
  - rewrite (zero_frames_all_invalid kp inv Hfits). reflexivity.
  - rewrite <- Hfits. rewrite map_map. apply map_ext. intros m.
    unfold mframe_shape. apply length_map.
Qed.

End force_apply_keyword.

(** ** occlusion.py: which flags an occlusion sets *)

Lemma occlude_row_spec (joints : list Z) :
  ∀ row row' : mframe,
    occlusion.occlude_row row joints = Ok row' →
    length row' = length row
    ∧ ∀ (v : nat) (b : bool),
        row !! v = Some b →
        row' !! v = Some (b || denoted (length row) joints v).
Proof.
  induction joints as [|j joints IH]; intros row row' Hrun; simpl in Hrun.
  - injection Hrun as <-. split; [reflexivity|]. intros v b Hv. rewrite Hv.
    simpl. rewrite orb_false_r. reflexivity.
  - apply rbind_Ok in Hrun as (i & Hi & Hrun).
    apply IH in Hrun as [Hlen Hspec]. rewrite length_insert in Hlen, Hspec.
    split; [exact Hlen|]. intros v b Hv. cbn [denoted existsb]. rewrite Hi.
    fold (denoted (length row) joints v).
    destruct (Nat.eqb_spec i v) as [->|Hne].
    + rewrite (Hspec v true).
      * rewrite orb_true_r. reflexivity.
      * apply list_lookup_insert_eq. apply lookup_lt_Some in Hv. exact Hv.
    + rewrite (Hspec v b); [reflexivity|].
      rewrite list_lookup_insert_ne by exact Hne. exact Hv.
Qed.

Lemma occlude_row_total (joints : list Z) :
  ∀ row : mframe,
    Forall (fun j => (- Z.of_nat (length row) ≤ j < Z.of_nat (length row))%Z) joints →
    ∃ row', occlusion.occlude_row row joints = Ok row'.
Proof.
  induction joints as [|j joints IH]; intros row Hrange; simpl.
  - eexists. reflexivity.
  - apply Forall_cons in Hrange as [Hj Hrange].
    assert (Hi : ∃ i, normalize_index (length row) j = Ok i).
    { unfold normalize_index.
      destruct ((0 <=? j) && (j <? Z.of_nat (length row)))%Z eqn:Hpos; [eexists; reflexivity|].
      destruct ((- Z.of_nat (length row) <=? j) && (j <? 0))%Z eqn:Hneg; [eexists; reflexivity|].
      exfalso. apply andb_false_iff in Hpos, Hneg.
      destruct Hpos as [Hp|Hp], Hneg as [Hn|Hn];
        try apply Z.leb_gt in Hp; try apply Z.ltb_ge in Hp;
        try apply Z.leb_gt in Hn; try apply Z.ltb_ge in Hn; lia. }
    destruct Hi as [i Hi]. rewrite Hi. cbn [rbind]. apply IH.
    rewrite length_insert. exact Hrange.
Qed.

Lemma occlude_joints_spec (inv inv' : list mframe) (joints : list Z) :
  occlusion.occlude_joints inv joints = Ok inv' →
  length inv' = length inv
  ∧ ∀ (t v : nat) (row : mframe) (b : bool),
      inv !! t = Some row → row !! v = Some b →
      inv' !! t ≫= (.!! v) = Some (b || denoted (length row) joints v).
Proof.
  intros Hrun. unfold occlusion.occlude_joints in Hrun. apply rmapM_Ok in Hrun.
  split; [symmetry; exact (Forall2_length _ _ _ Hrun)|].
  intros t v row b Ht Hv.
  destruct (Forall2_lookup_l _ _ _ _ _ Hrun Ht) as (row' & Ht' & Hrow).
  rewrite Ht'. cbn [mbind option_bind].
  apply occlude_row_spec in Hrow as [_ Hspec]. exact (Hspec v b Hv).
Qed.

Section occlusion_more.
Context {G : Type} `{RandomSource G}.

(** [SpecificOcclusion] returns for every index list within the joints
    (negative indices counting from the last joint); it sets the flag of
    every joint the list denotes, in every frame, keeps every other flag
    and leaves every field but [invalid] alone. *)
Theorem SpecificOcclusion_sets_the_listed_joints (joints : list Z) (data : Arrays)
    (inv : list mframe) (V : nat) (g : G) :
  data !! "invalid" = Some (BoolArr inv) →
  Forall (fun row => length row = V) inv →
  Forall (fun j => (- Z.of_nat V ≤ j < Z.of_nat V)%Z) joints →
  ∃ inv' : list mframe,
    occlusion.SpecificOcclusion_apply joints data g
    = Ok (<["invalid" := BoolArr inv']> data, g)
    ∧ length inv' = length inv
    ∧ ∀ (t v : nat) (b : bool),
        inv !! t ≫= (.!! v) = Some b →
        inv' !! t ≫= (.!! v) = Some (b || denoted V joints v).
Proof.
  intros Hi Hrect Hrange.
  assert (Hrun : ∃ inv', occlusion.occlude_joints inv joints = Ok inv').
  { destruct (rmapM_total (fun row => occlusion.occlude_row row joints) inv) as (inv' & Hrun & _).
    - eapply Forall_impl; [exact Hrect|]. intros row Hrow. simpl in Hrow.
      apply occlude_row_total. rewrite Hrow. exact Hrange.
    - exists inv'. exact Hrun. }
  destruct Hrun as [inv' Hrun]. exists inv'.
  destruct (occlude_joints_spec inv inv' joints Hrun) as [Hlen Hspec].
  split; [|split; [exact Hlen|]].
  - unfold occlusion.SpecificOcclusion_apply, bind, lift, ret, get_invalid, getitem.
    rewrite Hi. cbn [rbind as_bool]. rewrite Hrun. reflexivity.
  - intros t v b Hb. destruct (inv !! t) as [row|] eqn:Ht; [|discriminate].
    cbn [mbind option_bind] in Hb.
    rewrite (Hspec t v row b Ht Hb).
    rewrite (proj1 (Forall_lookup _ _) Hrect t row Ht). reflexivity.
Qed.

Lemma draw_occluded_in_range (chance : Q + list Q) (joints : list nat) (V : nat) :
  Forall (fun i => (i < V)%nat) joints →
  ∀ (g g' : G) (occluded : list Z),
    occlusion.draw_occluded chance joints g = Ok (occluded, g') →
    Forall (fun j => (0 ≤ j < Z.of_nat V)%Z) occluded.
Proof.
  induction joints as [|i joints IH]; intros Hall g g' occluded Hrun; simpl in Hrun.
  - apply ret_Ok in Hrun as [-> _]. constructor.
  - apply Forall_cons in Hall as [Hi Hall].
    apply bind_Ok in Hrun as (c & g1 & _ & Hrun).
    apply bind_Ok in Hrun as (u & g2 & _ & Hrun).
    apply bind_Ok in Hrun as (rest & g3 & Hrest & Hret).
    apply ret_Ok in Hret as [-> _]. apply (IH Hall) in Hrest.
    destruct (Qltb u c); [constructor; [lia|exact Hrest]|exact Hrest].
Qed.

(** Whatever the chances and the draws, a [RandomOcclusion] that returns
    has done what [SpecificOcclusion] does for some list of joints of the
    skeleton: the same joints are occluded in every frame, no flag is
    cleared and no coordinate is touched. *)
Theorem RandomOcclusion_occludes_whole_joints (chance : Q + list Q) (data data' : Arrays)
    (inv : list mframe) (g g' : G) :
  data !! "invalid" = Some (BoolArr inv) →
  occlusion.RandomOcclusion_apply chance data g = Ok (data', g') →
  ∃ joints : list Z,
    Forall (fun j => (0 ≤ j < Z.of_nat (snd (shape2 inv)))%Z) joints
    ∧ occlusion.SpecificOcclusion_apply joints data g' = Ok (data', g').
Proof.
  intros Hi Hrun. unfold occlusion.RandomOcclusion_apply in Hrun.
  apply bind_Ok in Hrun as (inv0 & g1 & Hinv & Hrun). apply lift_Ok in Hinv as [Hinv ->].
  apply get_invalid_Ok in Hinv. rewrite Hi in Hinv. injection Hinv as <-.
  apply bind_Ok in Hrun as (joints & g2 & Hdraw & Hrun).
  apply bind_Ok in Hrun as (inv' & g3 & Hocc & Hret).
  apply lift_Ok in Hocc as [Hocc ->]. apply ret_Ok in Hret as [-> ->].
  exists joints. split.
  - apply (draw_occluded_in_range chance (seq 0 (snd (shape2 inv))) (snd (shape2 inv)))
      with (g := g) (g' := g2); [|exact Hdraw].
    apply Forall_forall. intros i Hin. apply elem_of_seq in Hin. lia.
  - unfold occlusion.SpecificOcclusion_apply, bind, lift, ret, get_invalid, getitem.
    rewrite Hi. cbn [rbind as_bool]. rewrite Hocc. reflexivity.
Qed.

(** A list of chances shorter than the number of joints makes
    [RandomOcclusion] raise an index error, whatever is drawn. *)
Theorem RandomOcclusion_needs_a_chance_per_joint (chances : list Q) (data : Arrays)
    (inv : list mframe) (g : G) :
  data !! "invalid" = Some (BoolArr inv) →
  (length chances < snd (shape2 inv))%nat →
  occlusion.RandomOcclusion_apply (inr chances) data g = Raise IndexError.
Proof.
  intros Hi Hshort.
  unfold occlusion.RandomOcclusion_apply, bind at 1, lift at 1, get_invalid, getitem.
  rewrite Hi. cbn [rbind as_bool].
  assert (Hdraw : ∀ (n o : nat) (g0 : G),
            (o <= length chances < o + n)%nat →
            occlusion.draw_occluded (inr chances) (seq o n) g0 = Raise IndexError).
  { induction n as [|n IH]; intros o g0 Hn; [lia|].
    cbn [seq occlusion.draw_occluded]. unfold bind, lift, draw.
    cbn [occlusion.chance_of].
    destruct (decide (o = length chances)) as [->|Hne].
    - rewrite py_index_beyond by lia. reflexivity.
    - destruct (py_index_in_range chances (Z.of_nat o)) as (c & _ & Hc); [lia|].
      rewrite Hc. destruct (uniform 0 1 g0) as [u g1].
      specialize (IH (S o) g1). unfold bind, lift, draw in IH. rewrite IH by lia.
      reflexivity. }
  unfold bind. rewrite Hdraw by lia. reflexivity.
Qed.

End occlusion_more.

(** ** occlusion.py: interpolating twice *)

Lemma lookups_equal {A : Type} (l l' : list A) :
  (∀ t, l' !! t = l !! t) → l' = l.
Proof. intros Hall. apply list_eq. exact Hall. Qed.

(** The flags of one joint hold no invalid frame between two valid
    ones. *)
Lemma no_gap_untouched (pos pos' : list (list Q)) (bad bad' : list bool) :
  joint_interpolated pos bad pos' bad' →
  (∀ a b t, valid_frame bad a → valid_frame bad b → (a < t < b)%nat →
            bad !! t ≠ Some true) →
  pos' = pos ∧ bad' = bad.
Proof.
  intros (_ & _ & Hfew & Hmany) Hnogap.
  assert (Hall : ∀ t, untouched pos bad pos' bad' t).
  { destruct (le_lt_dec 2 (length (compress (seq 0 (length bad)) (map negb bad))))
      as [Htwo|Hone].
    - destruct (valid_extremes bad Htwo) as (Hfirst & Hlast & Hlt).
      intros t. apply (Hmany _ _ Hfirst Hlast Hlt t).
      intros [Hbad Hbetween].
      exact (Hnogap _ _ t (proj1 Hfirst) (proj1 Hlast) Hbetween Hbad).
    - apply Hfew. intros a b Ha Hb. destruct (decide (a = b)) as [Heq|Hne]; [exact Heq|].
      exfalso. apply valid_ids_elem in Ha, Hb.
      pose proof (distinct_two _ a b Ha Hb Hne). lia. }
  split; apply lookups_equal; intros t; destruct (Hall t) as [Hp Hb]; assumption.
Qed.

Lemma interpolated_has_no_gap (pos pos' : list (list Q)) (bad bad' : list bool) :
  joint_interpolated pos bad pos' bad' →
  ∀ a b t, valid_frame bad' a → valid_frame bad' b → (a < t < b)%nat →
           bad' !! t ≠ Some true.
Proof.
  intros (_ & _ & Hfew & Hmany) a b t Ha Hb Hbetween.
  destruct (le_lt_dec 2 (length (compress (seq 0 (length bad)) (map negb bad))))
    as [Htwo|Hone].
  - destruct (valid_extremes bad Htwo) as (Hfirst & Hlast & Hlt).
    set (a0 := occlusion.index_min (compress (seq 0 (length bad)) (map negb bad))) in *.
    set (b0 := occlusion.index_max (compress (seq 0 (length bad)) (map negb bad))) in *.
    assert (Hspan : ∀ u, valid_frame bad' u → (a0 <= u <= b0)%nat).
    { intros u Hu. unfold valid_frame in Hu.
      destruct (Hmany _ _ Hfirst Hlast Hlt u) as [_ Hkeep].
      destruct (decide (a0 < u < b0)%nat) as [Hin|Hout]; [lia|].
      destruct (Hkeep (fun Hc => Hout (proj2 Hc))) as [_ Hsame].
      rewrite Hsame in Hu. destruct Hfirst as [_ Hbefore], Hlast as [_ Hafter].
      destruct (le_lt_dec a0 u) as [Hle|Hlt0]; [|exfalso; exact (Hbefore u Hlt0 Hu)].
      destruct (le_lt_dec u b0) as [Hle'|Hgt]; [lia|exfalso; exact (Hafter u Hgt Hu)]. }
    pose proof (Hspan a Ha). pose proof (Hspan b Hb).
    destruct (Hmany _ _ Hfirst Hlast Hlt t) as [Hfill Hkeep].
    destruct (bad !! t) as [[|]|] eqn:Ht.
    + destruct (Hfill eq_refl ltac:(lia)) as [Hvalid _]. rewrite Hvalid. discriminate.
    + destruct (Hkeep ltac:(intros [Hc _]; discriminate)) as [_ Hsame].
      rewrite Hsame, Ht. discriminate.
    + destruct (Hkeep ltac:(intros [Hc _]; discriminate)) as [_ Hsame].
      rewrite Hsame, Ht. discriminate.
  - assert (Hsame : ∀ u, bad' !! u = bad !! u) by (intros u; apply Hfew; intros a1 b1 Ha1 Hb1;
      destruct (decide (a1 = b1)) as [Heq|Hne]; [exact Heq|];
      exfalso; apply valid_ids_elem in Ha1, Hb1;
      pose proof (distinct_two _ a1 b1 Ha1 Hb1 Hne); lia).
    unfold valid_frame in Ha, Hb. rewrite Hsame in Ha, Hb.
    exfalso. apply valid_ids_elem in Ha, Hb.
    pose proof (distinct_two _ a b Ha Hb ltac:(lia)). lia.
Qed.

Lemma columns_equal {A : Type} (a a' : list (list A)) (V : nat) :
  length a' = length a →
  Forall (fun r => length r = V) a → Forall (fun r => length r = V) a' →
  (∀ k, (k < V)%nat → joint_column a' k = joint_column a k) →
  a' = a.
Proof.
  intros Hlen Hrect Hrect' Hcols. apply list_eq. intros t.
  destruct (a !! t) as [row|] eqn:Ht.
  - destruct (lookup_lt_is_Some_2 a' t) as [row' Ht'].
    { rewrite Hlen. apply lookup_lt_Some in Ht. exact Ht. }
    rewrite Ht'. f_equal. apply list_eq. intros k.
    pose proof (proj1 (Forall_lookup _ _) Hrect t row Ht) as Hrow.
    pose proof (proj1 (Forall_lookup _ _) Hrect' t row' Ht') as Hrow'. simpl in Hrow, Hrow'.
    destruct (le_lt_dec V k) as [Hge|Hlt].
    + rewrite !lookup_ge_None_2 by lia. reflexivity.
    + pose proof (Hcols k Hlt) as Hcol.
      assert (Hat : joint_column a' k !! t = joint_column a k !! t) by (rewrite Hcol; reflexivity).
      rewrite (joint_column_lookup a' k V t Hrect' Hlt) in Hat.
      rewrite (joint_column_lookup a k V t Hrect Hlt) in Hat.
      rewrite Ht, Ht' in Hat. exact Hat.
  - apply lookup_ge_None. rewrite Hlen. apply lookup_ge_None. exact Ht.
Qed.

Section interpolating_twice.
Context {G : Type} `{RandomSource G}.


End interpolating_twice.

(** ** perturbation.py: what the perturbations move *)

Lemma Qplus_zero (x : Q) : (x + 0)%Q = x.
Proof.
  destruct x as [n d]. unfold Qplus. simpl.
  rewrite Z.mul_1_r, Z.add_0_r, Pos.mul_1_r. reflexivity.
Qed.

Lemma add_zeros (c : coords) :
  ∀ dc : coords, length dc = length c →
    zip_with Qplus c (map (fun _ => 0%Q) dc) = c.
Proof.
  induction c as [|x c IH]; intros [|y dc] Hlen; simpl in Hlen; try discriminate;
    [reflexivity|].
  simpl. rewrite Qplus_zero. f_equal. apply IH. lia.
Qed.

Section move_properties.
Context {G : Type} `{RandomSource G}.

(** When no joint list is given (or an empty one, which the test
    [if self.joints] takes for none), [MovePerturbation] adds the drawn
    offsets to every joint except the invalid ones: a joint that is invalid
    in a frame keeps its coordinates exactly, and no field other than
    [keypoints] is touched. *)
Theorem MovePerturbation_leaves_invalid_joints (variance : Q) (joints : option (list Z))
    (data data' : Arrays) (kp : list kframe) (inv : list mframe) (g g' : G) :
  perturbation.joints_given joints = None →
  data !! "keypoints" = Some (FloatArr kp) →
  data !! "invalid" = Some (BoolArr inv) →
  perturbation.MovePerturbation_apply variance joints data g = Ok (data', g') →
  ∃ kp' : list kframe,
    data' = <["keypoints" := FloatArr kp']> data
    ∧ map kframe_shape kp' = map kframe_shape kp
    ∧ ∀ (t v : nat) (c : coords),
        inv !! t ≫= (.!! v) = Some true →
        kp !! t ≫= (.!! v) = Some c →
        kp' !! t ≫= (.!! v) = Some c.
Proof.
  intros Hnone Hk Hi Hrun. unfold perturbation.MovePerturbation_apply in Hrun.
  apply bind_Ok in Hrun as (kp0 & g1 & Hkp & Hrun). apply lift_Ok in Hkp as [Hkp ->].
  apply get_keypoints_Ok in Hkp. rewrite Hk in Hkp. injection Hkp as <-.
  destruct (shape3 kp) as [[T0 V0] C0]. rewrite Hnone in Hrun.
  apply bind_Ok in Hrun as (d & g2 & _ & Hrun).
  apply bind_Ok in Hrun as (inv0 & g3 & Hinv & Hrun). apply lift_Ok in Hinv as [Hinv ->].
  apply get_invalid_Ok in Hinv. rewrite Hi in Hinv. injection Hinv as <-.
  apply bind_Ok in Hrun as (d0 & g4 & Hzero & Hrun). apply lift_Ok in Hzero as [Hzero ->].
  apply bind_Ok in Hrun as (kp' & g5 & Hadd & Hret). apply lift_Ok in Hadd as [Hadd ->].
  apply ret_Ok in Hret as [-> ->].
  exists kp'. split; [reflexivity|]. split; [exact (add_arrays_shape kp d0 kp' Hadd)|].
  intros t v c Hbad Hc.
  unfold perturbation.zero_where in Hzero.
  destruct (bool_decide (map mframe_shape inv = map (@length coords) d)); [|discriminate].
  injection Hzero as <-.
  unfold perturbation.add_arrays in Hadd.
  destruct (bool_decide _) eqn:Hshape in Hadd; [|discriminate].
  apply bool_decide_eq_true in Hshape. injection Hadd as <-.
  destruct (kp !! t) as [f|] eqn:Hf; [|discriminate]. cbn [mbind option_bind] in Hc.
  destruct (inv !! t) as [m|] eqn:Hm; [|discriminate]. cbn [mbind option_bind] in Hbad.
  assert (Hrow : map kframe_shape kp !! t = Some (kframe_shape f)).
  { change (map kframe_shape kp) with (kframe_shape <$> kp).
    rewrite list_lookup_fmap, Hf. reflexivity. }
  rewrite Hshape in Hrow.
  change (map kframe_shape ?l) with (kframe_shape <$> l) in Hrow.
  rewrite list_lookup_fmap in Hrow.
  destruct (zip_with _ d inv !! t) as [f0|] eqn:Hf0; [|discriminate].
  injection Hrow as Hrow.
  apply lookup_zip_with_Some in Hf0 as (df & m' & -> & Hdf & Hm').
  rewrite Hm in Hm'. injection Hm' as <-.
  rewrite lookup_zip_with, Hf. cbn [mbind option_bind].
  rewrite lookup_zip_with, Hdf. cbn [mbind option_bind]. rewrite Hm. cbn [mbind option_bind].
  rewrite lookup_zip_with, Hc. cbn [mbind option_bind].
  assert (Hcol : kframe_shape (zip_with (fun (c0 : coords) (b : bool) =>
                    if b then map (fun _ => 0%Q) c0 else c0) df m) !! v
                 = Some (length c)).
  { rewrite Hrow. unfold kframe_shape.
    change (map (@length Q) f) with (@length Q <$> f).
    rewrite list_lookup_fmap, Hc. reflexivity. }
  unfold kframe_shape in Hcol.
  change (map (@length Q) ?l) with (@length Q <$> l) in Hcol.
  rewrite list_lookup_fmap in Hcol.
  destruct (zip_with _ df m !! v) as [c0|] eqn:Hc0; [|discriminate].
  injection Hcol as Hlen.
  apply lookup_zip_with_Some in Hc0 as (dc & b & -> & Hdc & Hb).
  rewrite Hbad in Hb. injection Hb as <-.
  cbn [mbind option_bind]. f_equal. apply add_zeros.
  rewrite length_map in Hlen. exact Hlen.
Qed.

End move_properties.

(** *** Exchanging two joints *)

Lemma swap_columns_rows (i1 i2 : Z) :
  ∀ a a' : list kframe,
    perturbation.swap_columns a i1 i2 = Ok a' →
    Forall2 (fun row row' => swapped i1 i2 row = Some row') a a'.
Proof.
  intros a a' Hrun. unfold perturbation.swap_columns in Hrun.
  apply rbind_Ok in Hrun as (temp & Htemp & Hrun).
  apply rbind_Ok in Hrun as (other & Hother & Hrun).
  apply rbind_Ok in Hrun as (a1 & Ha1 & Hrun).
  unfold column in Htemp, Hother. apply rmapM_Ok in Htemp, Hother.
  revert a' a1 temp other Htemp Hother Ha1 Hrun.
  induction a as [|row a IH]; intros a' a1 temp other Htemp Hother Ha1 Hrun.
  - inversion Htemp; subst. inversion Hother; subst. simpl in Ha1. injection Ha1 as <-.
    simpl in Hrun. injection Hrun as <-. constructor.
  - inversion Htemp as [|? x1 ? temp' Hx1 Htemp']; subst.
    inversion Hother as [|? x2 ? other' Hx2 Hother']; subst.
    simpl in Ha1. apply rbind_Ok in Ha1 as (j1 & Hj1 & Ha1).
    apply rbind_Ok in Ha1 as (rest1 & Hrest1 & Hret). injection Hret as <-.
    simpl in Hrun. rewrite length_insert in Hrun.
    apply rbind_Ok in Hrun as (j2 & Hj2 & Hrun).
    apply rbind_Ok in Hrun as (rest2 & Hrest2 & Hret). injection Hret as <-.
    constructor; [|exact (IH rest2 rest1 temp' other' Htemp' Hother' Hrest1 Hrest2)].
    unfold swapped. rewrite Hj1, Hj2.
    unfold py_index in Hx1, Hx2. rewrite Hj1 in Hx1. rewrite Hj2 in Hx2. cbn [rbind] in Hx1, Hx2.
    destruct (row !! j1) as [y1|]; [|discriminate]. injection Hx1 as <-.
    destruct (row !! j2) as [y2|]; [|discriminate]. injection Hx2 as <-.
    reflexivity.
Qed.

Lemma swap_columns_of_rows (i1 i2 : Z) :
  ∀ a a' : list kframe,
    Forall2 (fun row row' => swapped i1 i2 row = Some row') a a' →
    perturbation.swap_columns a i1 i2 = Ok a'.
Proof.
  intros a a' Hrows.
  assert (Hparts : ∃ temp other a1,
            column a i1 = Ok temp ∧ column a i2 = Ok other
            ∧ set_column a i1 other = Ok a1 ∧ set_column a1 i2 temp = Ok a').
  { induction Hrows as [|row row' a a' Hrow _ IH].
    - exists [], [], []. repeat split; reflexivity.
    - destruct IH as (temp & other & a1 & Htemp & Hother & Ha1 & Ha').
      unfold swapped in Hrow.
      destruct (normalize_index (length row) i1) as [j1|] eqn:Hj1; [|discriminate].
      destruct (normalize_index (length row) i2) as [j2|] eqn:Hj2; [|discriminate].
      destruct (row !! j1) as [x1|] eqn:Hx1; [|discriminate].
      destruct (row !! j2) as [x2|] eqn:Hx2; [|discriminate].
      injection Hrow as <-.
      exists (x1 :: temp), (x2 :: other), (<[j1 := x2]> row :: a1).
      unfold column in *. cbn [rmapM]. unfold py_index at 1 3.
      rewrite Hj1, Hj2. cbn [rbind]. rewrite Hx1, Hx2, Htemp, Hother. cbn [rbind].
      split; [reflexivity|]. split; [reflexivity|].
      cbn [set_column]. rewrite Hj1. cbn [rbind]. rewrite Ha1. cbn [rbind].
      split; [reflexivity|]. rewrite length_insert, Hj2. cbn [rbind]. rewrite Ha'.
      reflexivity. }
  destruct Hparts as (temp & other & a1 & Htemp & Hother & Ha1 & Ha').
  unfold perturbation.swap_columns. rewrite Htemp, Hother. cbn [rbind].
  rewrite Ha1. cbn [rbind]. exact Ha'.
Qed.

Lemma swapped_twice {A : Type} (i1 i2 : Z) (row row' : list A) :
  swapped i1 i2 row = Some row' → swapped i1 i2 row' = Some row.
Proof.
  unfold swapped.
  destruct (normalize_index (length row) i1) as [j1|] eqn:Hj1; [|discriminate].
  destruct (normalize_index (length row) i2) as [j2|] eqn:Hj2; [|discriminate].
  destruct (row !! j1) as [x1|] eqn:Hx1; [|discriminate].
  destruct (row !! j2) as [x2|] eqn:Hx2; [|discriminate].
  intros Heq. injection Heq as <-.
  pose proof (normalize_index_lt _ _ _ Hj1) as Hb1.
  pose proof (normalize_index_lt _ _ _ Hj2) as Hb2.
  rewrite !length_insert, Hj1, Hj2.
  assert (H2 : <[j2:=x1]> (<[j1:=x2]> row) !! j2 = Some x1).
  { apply list_lookup_insert_eq. rewrite length_insert. exact Hb2. }
  assert (H1 : <[j2:=x1]> (<[j1:=x2]> row) !! j1 = Some (if decide (j1 = j2) then x1 else x2)).
  { destruct (decide (j1 = j2)) as [->|Hne].
    - exact H2.
    - rewrite list_lookup_insert_ne by (intros Heq; apply Hne; symmetry; exact Heq).
      apply list_lookup_insert_eq. exact Hb1. }
  rewrite H1, H2. f_equal. apply list_eq. intros k.
  destruct (decide (k = j2)) as [->|Hk2].
  - rewrite list_lookup_insert_eq by (rewrite !length_insert; exact Hb2).
    destruct (decide (j1 = j2)) as [Heq|Hne]; [|symmetry; exact Hx2].
    subst j1. rewrite Hx1 in Hx2. injection Hx2 as ->. symmetry. exact Hx1.
  - rewrite list_lookup_insert_ne by (intros Heq; apply Hk2; symmetry; exact Heq).
    destruct (decide (k = j1)) as [->|Hk1].
    + rewrite list_lookup_insert_eq by (rewrite !length_insert; exact Hb1).
      symmetry. exact Hx1.
    + rewrite !list_lookup_insert_ne by congruence. reflexivity.
Qed.

Lemma swap_columns_twice (a a1 : list kframe) (i1 i2 : Z) :
  perturbation.swap_columns a i1 i2 = Ok a1 →
  perturbation.swap_columns a1 i1 i2 = Ok a.
Proof.
  intros Hrun. apply swap_columns_rows in Hrun. apply swap_columns_of_rows.
  induction Hrun as [|row row' a a1 Hrow _ IH]; constructor; [|exact IH].
  apply swapped_twice. exact Hrow.
Qed.

Lemma mirror_columns_app (ps qs : list (Z * Z)) :
  ∀ a : list kframe,
    perturbation.mirror_columns a (ps ++ qs)
    = rbind (perturbation.mirror_columns a ps)
            (fun a' => perturbation.mirror_columns a' qs).
Proof.
  induction ps as [|[p q] ps IH]; intros a; [reflexivity|].
  cbn [app perturbation.mirror_columns].
  destruct (perturbation.swap_columns a p q) as [a0|e]; [|reflexivity].
  cbn [rbind]. apply IH.
Qed.

Lemma mirror_columns_back (ps : list (Z * Z)) :
  ∀ a a1 : list kframe,
    perturbation.mirror_columns a ps = Ok a1 →
    perturbation.mirror_columns a1 (rev ps) = Ok a.
Proof.
  induction ps as [|[p q] ps IH]; intros a a1 Hrun; simpl in Hrun.
  - injection Hrun as <-. reflexivity.
  - apply rbind_Ok in Hrun as (a0 & Hswap & Hrest).
    cbn [rev]. rewrite mirror_columns_app, (IH a0 a1 Hrest). cbn [rbind].
    cbn [perturbation.mirror_columns]. rewrite (swap_columns_twice a a0 p q Hswap).
    reflexivity.
Qed.

Section swap_properties.
Context {G : Type} `{RandomSource G}.

Lemma draw_distinct_differ (length : nat) :
  ∀ (fuel : nat) (g g' : G) (i1 i2 : Z),
    perturbation.draw_distinct fuel length g = Ok ((i1, i2), g') → i1 ≠ i2.
Proof.
  induction fuel as [|fuel IH]; intros g g' i1 i2 Hrun; simpl in Hrun; [discriminate|].
  apply bind_Ok in Hrun as (pair & g1 & _ & Hrun).
  destruct pair as [|x [|y [|z pair]]]; try discriminate.
  destruct (x =? y)%Z eqn:Hxy.
  - exact (IH _ _ _ _ Hrun).
  - apply ret_Ok in Hrun as [Heq _]. injection Heq as -> ->.
    apply Z.eqb_neq. exact Hxy.
Qed.

(** A [SwapPerturbation] that returns has exchanged, in every frame, the
    coordinates of two joints drawn with different indices, and nothing
    else: every other joint and the [invalid] mask, which is not swapped
    along, are as before. *)
Theorem SwapPerturbation_exchanges_two_joints (fuel : nat) (data data' : Arrays)
    (kp : list kframe) (g g' : G) :
  data !! "keypoints" = Some (FloatArr kp) →
  perturbation.SwapPerturbation_apply fuel data g = Ok (data', g') →
  ∃ (i1 i2 : Z) (kp' : list kframe),
    i1 ≠ i2
    ∧ data' = <["keypoints" := FloatArr kp']> data
    ∧ Forall2 (fun row row' => swapped i1 i2 row = Some row') kp kp'.
Proof.
  intros Hk Hrun. unfold perturbation.SwapPerturbation_apply in Hrun.
  apply bind_Ok in Hrun as (kp0 & g1 & Hkp & Hrun). apply lift_Ok in Hkp as [Hkp ->].
  apply get_keypoints_Ok in Hkp. rewrite Hk in Hkp. injection Hkp as <-.
  destruct (shape3 kp) as [[T0 V0] C0].
  apply bind_Ok in Hrun as ([i1 i2] & g2 & Hdraw & Hrun).
  apply bind_Ok in Hrun as (kp' & g3 & Hswap & Hret).
  apply lift_Ok in Hswap as [Hswap ->]. apply ret_Ok in Hret as [-> ->].
  exists i1, i2, kp'. split; [exact (draw_distinct_differ _ _ _ _ _ _ Hdraw)|].
  split; [reflexivity|]. exact (swap_columns_rows i1 i2 kp kp' Hswap).
Qed.

(** On a skeleton with a single joint the two indices drawn are always
    equal, so the loop that waits for two different ones never ends: the
    model runs out of fuel however much it is given. *)
Theorem SwapPerturbation_hangs_on_one_joint (data : Arrays) (kp : list kframe) (g : G) :
  data !! "keypoints" = Some (FloatArr kp) →
  snd (fst (shape3 kp)) = 1%nat →
  (∀ g0 : G, ∃ g1 : G, randint_n 0 1 2 g0 = Ok ([0; 0]%Z, g1)) →
  ∀ fuel : nat, perturbation.SwapPerturbation_apply fuel data g = Raise OutOfFuel.
Proof.
  intros Hk HV Hdraw fuel.
  assert (Hloop : ∀ g0, perturbation.draw_distinct fuel 1 g0 = Raise OutOfFuel).
  { induction fuel as [|fuel IH]; intros g0; [reflexivity|].
    cbn [perturbation.draw_distinct]. unfold bind.
    destruct (Hdraw g0) as [g1 Hg1]. change (Z.of_nat 1) with 1%Z. rewrite Hg1.
    cbn [Z.eqb Pos.eqb]. apply IH. }
  unfold perturbation.SwapPerturbation_apply, bind, lift, get_keypoints, getitem.
  rewrite Hk. cbn [rbind as_float].
  destruct (shape3 kp) as [[T0 V0] C0]. cbn [fst snd] in HV. subst V0.
  rewrite Hloop. reflexivity.
Qed.

(** Mirroring with the pairs in reverse order undoes a mirroring: the
    record comes back as it was. *)
Theorem MirrorPerturbation_undone_by_reversed_pairs (opposite_points : list (Z * Z))
    (data d1 : Arrays) (kp : list kframe) (g g1 : G) :
  data !! "keypoints" = Some (FloatArr kp) →
  perturbation.MirrorPerturbation_apply opposite_points data g = Ok (d1, g1) →
  perturbation.MirrorPerturbation_apply (rev opposite_points) d1 g1 = Ok (data, g1).
Proof.
  intros Hk Hrun. unfold perturbation.MirrorPerturbation_apply in Hrun.
  destruct opposite_points as [|pq rest] eqn:Hps.
  - apply ret_Ok in Hrun as [-> ->]. reflexivity.
  - rewrite <- Hps in *.
    apply bind_Ok in Hrun as (kp0 & g2 & Hkp & Hrun). apply lift_Ok in Hkp as [Hkp ->].
    apply get_keypoints_Ok in Hkp. rewrite Hk in Hkp. injection Hkp as <-.
    apply bind_Ok in Hrun as (kp1 & g3 & Hmirror & Hret).
    apply lift_Ok in Hmirror as [Hmirror ->]. apply ret_Ok in Hret as [-> ->].
    apply mirror_columns_back in Hmirror.
    unfold perturbation.MirrorPerturbation_apply.
    destruct (rev opposite_points) as [|pq' rest'] eqn:Hrev.
    + exfalso. apply (f_equal (@length (Z * Z))) in Hrev.
      rewrite length_rev, Hps in Hrev. discriminate.
    + unfold bind, lift, ret, get_keypoints, getitem. rewrite lookup_insert_eq.
      cbn [rbind as_float]. rewrite Hmirror. rewrite insert_insert_eq.
      rewrite insert_id by exact Hk. reflexivity.
Qed.

End swap_properties.

(** *** The joint a jittering moves *)

Lemma setitem2_Ok {A : Type} (a a' : list (list A)) (t : nat) (k : Z) (x : A) :
  setitem2 a t k x = Ok a' →
  ∃ (row : list A) (j : nat),
    a !! t = Some row ∧ normalize_index (length row) k = Ok j
    ∧ a' = <[t := <[j := x]> row]> a.
Proof.
  unfold setitem2. destruct (a !! t) as [row|]; [|discriminate].
  intros Hrun. apply rbind_Ok in Hrun as (j & Hj & Hret). injection Hret as <-.
  exists row, j. repeat split. exact Hj.
Qed.

Section jittering_properties.
Context {G : Type} `{RandomSource G}.
Variables cos sin : Q → Q.

Lemma jitter_frame_spec (self : perturbation.Jittering) (num_joints : nat)
    (inv : list mframe) (bottom_left_bb top_right_bb : list coords)
    (kps kps' : list kframe) (i : nat) (g g' : G) :
  perturbation.jitter_frame cos sin self num_joints inv bottom_left_bb top_right_bb
    kps i g = Ok (kps', g') →
  length kps' = length kps
  ∧ (∀ t, t ≠ i → kps' !! t = kps !! t)
  ∧ (∀ row, kps !! i = Some row →
            jittered (perturbation.keypoint self) inv i row (kps' !! i)).
Proof.
  intros Hrun. unfold perturbation.jitter_frame in Hrun.
  apply bind_Ok in Hrun as (id & g1 & Hid & Hrun).
  assert (Hfixed : ∀ k, perturbation.keypoint_given (perturbation.keypoint self) = Some k →
                        id = k).
  { intros k Hk. rewrite Hk in Hid. apply ret_Ok in Hid as [-> _]. reflexivity. }
  apply bind_Ok in Hrun as (skip & g2 & Hskip & Hrun). apply lift_Ok in Hskip as [Hskip _].
  destruct skip.
  - apply ret_Ok in Hrun as [-> _]. split; [reflexivity|]. split; [reflexivity|].
    intros row Hrow. exists row. split; [exact Hrow|]. split; [reflexivity|].
    split; [left; reflexivity|]. intros k _ _. reflexivity.
  - apply bind_Ok in Hrun as (keypoint & g3 & _ & Hrun).
    apply bind_Ok in Hrun as (direction & g4 & _ & Hrun).
    apply bind_Ok in Hrun as (distance & g5 & _ & Hrun).
    apply lift_Ok in Hrun as [Hset _].
    apply setitem2_Ok in Hset as (row0 & j & Hrow0 & Hj & ->).
    split; [apply length_insert|]. split.
    + intros t Ht. apply list_lookup_insert_ne. congruence.
    + intros row Hrow. rewrite Hrow0 in Hrow. injection Hrow as <-.
      eexists. split.
      { apply list_lookup_insert_eq. apply lookup_lt_Some in Hrow0. exact Hrow0. }
      split; [apply length_insert|]. split.
      * right. exists id, j. split; [exact Hfixed|]. split; [exact Hskip|].
        split; [exact Hj|]. intros v Hv. apply list_lookup_insert_ne. congruence.
      * intros k Hk Hbad. rewrite <- (Hfixed k Hk) in Hbad. rewrite Hbad in Hskip.
        discriminate.
Qed.

Lemma jitter_frames_spec (self : perturbation.Jittering) (num_joints : nat)
    (inv : list mframe) (bottom_left_bb top_right_bb : list coords) (frames : list nat) :
  NoDup frames →
  ∀ (kps kps' : list kframe) (g g' : G),
    perturbation.jitter_frames cos sin self num_joints inv bottom_left_bb top_right_bb
      kps frames g = Ok (kps', g') →
    length kps' = length kps
    ∧ (∀ t, t ∉ frames → kps' !! t = kps !! t)
    ∧ (∀ t row, t ∈ frames → kps !! t = Some row →
                jittered (perturbation.keypoint self) inv t row (kps' !! t)).
Proof.
  induction 1 as [|i frames Hfresh _ IH]; intros kps kps' g g' Hrun; simpl in Hrun.
  - apply ret_Ok in Hrun as [-> _]. split; [reflexivity|]. split; [reflexivity|].
    intros t row Hin. inversion Hin.
  - apply bind_Ok in Hrun as (kps1 & g1 & Hframe & Hrun).
    apply jitter_frame_spec in Hframe as (Hlen1 & Hother1 & Hat1).
    apply IH in Hrun as (Hlen & Hother & Hat).
    split; [lia|]. split.
    + intros t Ht. rewrite Hother, Hother1; [reflexivity| |]; intros Hc; apply Ht;
        [subst; left|right; exact Hc].
    + intros t row Hin Hrow. apply elem_of_cons in Hin as [->|Hin].
      * rewrite (Hother i Hfresh). apply Hat1. exact Hrow.
      * apply Hat; [exact Hin|]. rewrite Hother1; [exact Hrow|].
        intros ->. contradiction.
Qed.

(** A jittering that returns has moved at most one joint in each frame,
    whether a joint is configured or drawn frame by frame: a joint of the
    frame that is valid in it, the configured one when a joint other than 0
    is configured.  A frame in which the configured joint is invalid is left
    as it was, and neither the mask nor any other field is touched. *)
Theorem Jittering_moves_one_joint_per_frame (self : perturbation.Jittering)
    (data data' : Arrays) (kp : list kframe) (inv : list mframe) (g g' : G) :
  data !! "keypoints" = Some (FloatArr kp) →
  data !! "invalid" = Some (BoolArr inv) →
  perturbation.Jittering_apply cos sin self data g = Ok (data', g') →
  ∃ kp' : list kframe,
    data' = <["keypoints" := FloatArr kp']> data
    ∧ length kp' = length kp
    ∧ ∀ (t : nat) (row : kframe),
        kp !! t = Some row →
        jittered (perturbation.keypoint self) inv t row (kp' !! t).
Proof.
  intros Hk Hi Hrun. unfold perturbation.Jittering_apply in Hrun.
  apply bind_Ok in Hrun as (kp0 & g1 & Hkp & Hrun). apply lift_Ok in Hkp as [Hkp ->].
  apply get_keypoints_Ok in Hkp. rewrite Hk in Hkp. injection Hkp as <-.
  apply bind_Ok in Hrun as (u & g2 & _ & Hrun).
  apply bind_Ok in Hrun as (inv0 & g3 & Hinv & Hrun). apply lift_Ok in Hinv as [Hinv _].
  apply get_invalid_Ok in Hinv. rewrite Hi in Hinv. injection Hinv as <-.
  apply bind_Ok in Hrun as (u' & g4 & _ & Hrun).
  unfold shape3 in Hrun.
  apply bind_Ok in Hrun as (kp' & g5 & Hjit & Hret). apply ret_Ok in Hret as [-> _].
  apply jitter_frames_spec in Hjit as (Hlen & _ & Hat); [|apply NoDup_seq].
  exists kp'. split; [reflexivity|]. split; [exact Hlen|].
  intros t row Hrow. apply Hat; [|exact Hrow].
  apply elem_of_seq. apply lookup_lt_Some in Hrow. lia.
Qed.

Lemma jitter_frames_same_target (self self' : perturbation.Jittering) (num_joints : nat)
    (inv : list mframe) (bottom_left_bb top_right_bb : list coords) (frames : list nat) :
  perturbation.radians self' = perturbation.radians self →
  perturbation.distance self' = perturbation.distance self →
  perturbation.keypoint_given (perturbation.keypoint self')
  = perturbation.keypoint_given (perturbation.keypoint self) →
  ∀ (kps : list kframe) (g : G),
    perturbation.jitter_frames cos sin self' num_joints inv bottom_left_bb top_right_bb
      kps frames g
    = perturbation.jitter_frames cos sin self num_joints inv bottom_left_bb top_right_bb
        kps frames g.
Proof.
  intros Hr Hd Hk. induction frames as [|i frames IH]; intros kps g; [reflexivity|].
  cbn [perturbation.jitter_frames]. unfold bind.
  assert (Hframe : perturbation.jitter_frame cos sin self' num_joints inv bottom_left_bb
                     top_right_bb kps i g
                   = perturbation.jitter_frame cos sin self num_joints inv bottom_left_bb
                       top_right_bb kps i g).
  { unfold perturbation.jitter_frame, perturbation._get_random_direction,
      perturbation._get_random_distance. rewrite Hr, Hd, Hk. reflexivity. }
  rewrite Hframe.
  destruct (perturbation.jitter_frame cos sin self num_joints inv bottom_left_bb
              top_right_bb kps i g) as [[kps1 g1]|e]; [apply IH|reflexivity].
Qed.

(** Joint 0 cannot be configured: [keypoint=0] is taken for no
    configuration by the test [if self.keypoint], so a jittering built with
    it draws a random joint in every frame, exactly as one built with
    [keypoint=None]. *)
Theorem Jittering_cannot_target_joint_0 (deg2rad : Q → Q) (angles distance : Q * Q)
    (always_apply : bool) (p : Q) (data : Arrays) (g : G) :
  ∀ zero none : perturbation.Jittering,
    perturbation.Jittering_init deg2rad angles distance (Some 0%Z) always_apply p = Ok zero →
    perturbation.Jittering_init deg2rad angles distance None always_apply p = Ok none →
    perturbation.Jittering_apply cos sin zero data g
    = perturbation.Jittering_apply cos sin none data g.
Proof.
  intros zero none Hzero Hnone. unfold perturbation.Jittering_init in Hzero, Hnone.
  destruct (negb (Qle_bool (fst angles) (snd angles))); [discriminate|].
  destruct (negb (Qle_bool (fst distance) (snd distance))); [discriminate|].
  injection Hzero as <-. injection Hnone as <-.
  unfold perturbation.Jittering_apply, bind.
  destruct (lift (get_keypoints data) g) as [[kp g1]|e]; [|reflexivity].
  destruct (lift (py_assert (perturbation.two_dimensional kp)) g1) as [[u g2]|e];
    [|reflexivity].
  destruct (lift (get_invalid data) g2) as [[inv g3]|e]; [|reflexivity].
  destruct (lift _ g3) as [[u' g4]|e]; [|reflexivity].
  destruct (shape3 kp) as [[T V] C].
  rewrite (jitter_frames_same_target
             (perturbation.mkJittering (deg2rad (fst angles), deg2rad (snd angles))
                distance None always_apply p)
             (perturbation.mkJittering (deg2rad (fst angles), deg2rad (snd angles))
                distance (Some 0%Z) always_apply p)); reflexivity.
Qed.

End jittering_properties.

(** ** Worked examples for the further properties *)

Lemma selection_without_children_returns_record_witness :
  select.call (select.SelectFrames [] [1; 0]%Z 1) true examples.small_data ([] : list Q)
  = Ok (examples.small_data, []).
Proof.
  apply (selection_without_children_returns_record
           (select.SelectFrames [] [1; 0]%Z 1) examples.small_data 2 [1; 0]%Z).
  - reflexivity.
  - exact (record_of_length_record (examples.ones 2 2 2) (examples.all_valid 2 2) eq_refl).
  - reflexivity.
  - repeat constructor; lia.
Defined.

Lemma selection_keeps_unselected_frames_witness :
  select.call (select.SelectFrames [examples.whole_occlusion] [1%Z] 1) true
    examples.small_data ([] : list Q)
  = Ok (examples.record (examples.ones 2 2 2) [[false; false]; [true; true]], [])
  ∧ select.get_selection (select.SelectFrames [examples.whole_occlusion] [1%Z] 1)
      examples.small_data ([] : list Q) = Ok ([1%Z], [])
  ∧ ∀ (key : string) (a : ndarray),
      examples.small_data !! key = Some a →
      ∃ a' : ndarray,
        examples.record (examples.ones 2 2 2) [[false; false]; [true; true]] !! key
        = Some a'
        ∧ shape a' = shape a
        ∧ frame_at a' 0 = frame_at a 0.
Proof.
  assert (Hcall : select.call (select.SelectFrames [examples.whole_occlusion] [1%Z] 1) true
                    examples.small_data ([] : list Q)
                  = Ok (examples.record (examples.ones 2 2 2)
                          [[false; false]; [true; true]], []))
    by (vm_compute; reflexivity).
  split; [exact Hcall|].
  destruct (selection_keeps_unselected_frames
              (select.SelectFrames [examples.whole_occlusion] [1%Z] 1) true
              examples.small_data _ ([] : list Q) ([] : list Q) Hcall)
    as (skip & g0 & Hgate & Hcase).
  injection Hgate as <- <-.
  destruct Hcase as (ids & g1 & Hids & _ & Hframes).
  assert (Hsel : select.get_selection
                   (select.SelectFrames [examples.whole_occlusion] [1%Z] 1)
                   examples.small_data ([] : list Q) = Ok ([1%Z], []))
    by (vm_compute; reflexivity).
  split; [exact Hsel|].
  rewrite Hsel in Hids. injection Hids as <- <-.
  intros key a Hk. destruct (Hframes key a Hk) as (a' & Hout & Hshape & Hkept).
  exists a'. split; [exact Hout|]. split; [exact Hshape|].
  apply Hkept. intros i Hi. apply list_elem_of_singleton in Hi. subst i.
  unfold normalize_index. change (1 <? 0)%Z with false. rewrite andb_false_r.
  destruct ((0 <=? 1)%Z && (1 <? Z.of_nat (len a))%Z); discriminate.
Defined.

Lemma SelectFrames_rejects_out_of_range_witness :
  select.call (select.SelectFrames [examples.whole_occlusion] [(-1)%Z] 1) true
    examples.small_data ([] : list Q)
  = Raise AssertionError.
Proof.
  apply (SelectFrames_rejects_out_of_range [examples.whole_occlusion] [(-1)%Z] 1
           examples.small_data (FloatArr (examples.ones 2 2 2)) (-1)%Z).
  - reflexivity.
  - left.
  - simpl. lia.
Defined.

Lemma SelectHighMovement_longer_than_sequence_witness :
  select.SelectHighMovement_get_selection examples.abs_norm examples.identity_argsort
    Qminus Qmean Qsum examples.long_window examples.spike_data ([] : list Q)
  = Ok (map Z.of_nat (seq 0 7), [])
  ∧ select.call
      (select.SelectHighMovement_select examples.abs_norm examples.identity_argsort
         Qminus Qmean Qsum examples.long_window)
      true examples.spike_data ([] : list Q)
    = Raise IndexError.
Proof.
  apply (SelectHighMovement_longer_than_sequence examples.abs_norm
           examples.identity_argsort Qminus Qmean Qsum examples.long_window
           examples.spike_data
           examples.spike_keypoints (examples.all_valid 5 1) 5 1 7).
  - reflexivity.
  - reflexivity.
  - reflexivity.
  - reflexivity.
  - repeat constructor.
  - repeat constructor.
  - reflexivity.
  - reflexivity.
  - lia.
  - intros js Hjs. discriminate.
Defined.

Lemma Compose_supplies_missing_masks_witness :
  compose.Compose_call examples.empty_pipeline [] false examples.keypoints_only ([] : list Q)
  = Ok (plain (<["peturbation" := BoolArr (compose.full_false (examples.ones 2 2 2))]>
                 (<["invalid" := BoolArr (compose.full_false (examples.ones 2 2 2))]>
                    examples.keypoints_only)), []).
Proof.
  apply (Compose_supplies_missing_masks examples.empty_pipeline false
           examples.keypoints_only (examples.ones 2 2 2)); reflexivity.
Defined.

Lemma SomeOf_raises_after_NoOp_witness :
  compose.SomeOf_call examples.two_noops false examples.small_data ([] : list Q)
  = Raise TypeError.
Proof.
  apply (SomeOf_raises_after_NoOp examples.two_noops false examples.small_data
           ([] : list Q) [] [] 0%Z 0%Z [] (compose.NoOp_init 1) examples.noop);
    vm_compute; reflexivity.
Defined.

Lemma NoOp_pick_forces_next_child_witness :
  run_all [compose.OneOf_op examples.noop_choice;
           transform.as_operation examples.never_occlude]
          (plain examples.small_data) ([] : list Q)
  = bind (transform.apply examples.never_occlude examples.small_data)
         (fun d => ret (plain d)) (snd (py_random ([] : list Q))).
Proof.
  apply (NoOp_pick_forces_next_child examples.noop_choice (compose.NoOp_init 1)
           examples.never_occlude examples.small_data ([] : list Q) [] []);
    vm_compute; reflexivity.
Defined.

Lemma occluded_pipeline_returns_zeros_witness :
  compose.Compose_call examples.occluding_pipeline [] false examples.small_data
    ([] : list Q)
  = Ok (plain (<["keypoints" :=
                   FloatArr (map (map (map (fun _ => 0%Q))) (examples.ones 2 2 2))]>
                 (<["invalid" :=
                      BoolArr (map (map (fun _ => true)) (examples.all_valid 2 2))]>
                    examples.small_checked)),
        snd (py_random ([] : list Q))).
Proof.
  apply (occluded_pipeline_returns_zeros examples.occluding_pipeline 0 false
           examples.small_data examples.small_checked (examples.ones 2 2 2)
           (examples.all_valid 2 2)); reflexivity.
Defined.

Lemma SpecificOcclusion_sets_the_listed_joints_witness :
  ∃ inv' : list mframe,
    occlusion.SpecificOcclusion_apply [(-1)%Z] examples.small_data ([] : list Q)
    = Ok (<["invalid" := BoolArr inv']> examples.small_data, [])
    ∧ length inv' = length (examples.all_valid 2 2)
    ∧ ∀ (t v : nat) (b : bool),
        examples.all_valid 2 2 !! t ≫= (.!! v) = Some b →
        inv' !! t ≫= (.!! v) = Some (b || denoted 2 [(-1)%Z] v).
Proof.
  apply (SpecificOcclusion_sets_the_listed_joints [(-1)%Z] examples.small_data
           (examples.all_valid 2 2) 2 ([] : list Q)).
  - reflexivity.
  - repeat constructor.
  - repeat constructor; lia.
Defined.

Lemma RandomOcclusion_occludes_whole_joints_witness :
  ∃ (data' : Arrays) (joints : list Z),
    occlusion.RandomOcclusion_apply (inl 1%Q) examples.small_data ([] : list Q)
    = Ok (data', [])
    ∧ Forall (fun j => (0 ≤ j < 2)%Z) joints
    ∧ occlusion.SpecificOcclusion_apply joints examples.small_data ([] : list Q)
      = Ok (data', []).
Proof.
  destruct (RandomOcclusion_occludes_whole_joints (inl 1%Q) examples.small_data
              (examples.record (examples.ones 2 2 2) [[true; true]; [true; true]])
              (examples.all_valid 2 2) ([] : list Q) [])
    as (joints & Hrange & Hsame).
  - reflexivity.
  - vm_compute. reflexivity.
  - eexists _, joints. split; [vm_compute; reflexivity|]. split; [exact Hrange|exact Hsame].
Defined.

Lemma RandomOcclusion_needs_a_chance_per_joint_witness :
  occlusion.RandomOcclusion_apply (inr [1%Q]) examples.small_data ([] : list Q)
  = Raise IndexError.
Proof.
  apply (RandomOcclusion_needs_a_chance_per_joint [1%Q] examples.small_data
           (examples.all_valid 2 2)).
  - reflexivity.
  - simpl. lia.
Defined.


Lemma MovePerturbation_leaves_invalid_joints_witness :
  ∃ kp' : list kframe,
    examples.half_data = <["keypoints" := FloatArr kp']> examples.half_data
    ∧ map kframe_shape kp' = map kframe_shape (examples.ones 2 2 2)
    ∧ ∀ (t v : nat) (c : coords),
        [[true; false]; [false; false]] !! t ≫= (.!! v) = Some true →
        examples.ones 2 2 2 !! t ≫= (.!! v) = Some c →
        kp' !! t ≫= (.!! v) = Some c.
Proof.
  apply (MovePerturbation_leaves_invalid_joints 1 (Some []) examples.half_data
           examples.half_data (examples.ones 2 2 2) [[true; false]; [false; false]]
           ([] : list Q) []).
  - reflexivity.
  - reflexivity.
  - reflexivity.
  - vm_compute. reflexivity.
Defined.

Lemma SwapPerturbation_exchanges_two_joints_witness :
  ∃ (i1 i2 : Z) (kp' : list kframe),
    i1 ≠ i2
    ∧ examples.corner_swapped = <["keypoints" := FloatArr kp']> examples.corner_data
    ∧ Forall2 (fun row row' => swapped i1 i2 row = Some row') [examples.corner_frame] kp'.
Proof.
  apply (SwapPerturbation_exchanges_two_joints 3 examples.corner_data
           examples.corner_swapped [examples.corner_frame] [0; 1 # 2]%Q []).
  - reflexivity.
  - vm_compute. reflexivity.
Defined.

Lemma SwapPerturbation_hangs_on_one_joint_witness :
  @perturbation.SwapPerturbation_apply unit lowest.lowest_source 5 examples.gap_data tt
  = Raise OutOfFuel.
Proof.
  apply (@SwapPerturbation_hangs_on_one_joint unit lowest.lowest_source examples.gap_data
           examples.gap_keypoints tt).
  - reflexivity.
  - reflexivity.
  - intros []. exists tt. reflexivity.
Defined.

Lemma MirrorPerturbation_undone_by_reversed_pairs_witness :
  perturbation.MirrorPerturbation_apply (rev [(0, 1)%Z]) examples.corner_swapped
    ([] : list Q)
  = Ok (examples.corner_data, []).
Proof.
  apply (MirrorPerturbation_undone_by_reversed_pairs [(0, 1)%Z] examples.corner_data
           examples.corner_swapped [examples.corner_frame] ([] : list Q) []).
  - reflexivity.
  - vm_compute. reflexivity.
Defined.

Lemma Jittering_moves_one_joint_per_frame_witness :
  (∃ kp' : list kframe,
     examples.record [[[0; 0]; [3 # 2; 2 # 2]; [2; 0]]]%Q (examples.all_valid 1 3)
     = <["keypoints" := FloatArr kp']> examples.three_joints_data
     ∧ length kp' = length [[[0; 0]; [1; 1]; [2; 0]]]%Q
     ∧ ∀ (t : nat) (row : kframe),
         [[[0; 0]; [1; 1]; [2; 0]]]%Q !! t = Some row →
         jittered None (examples.all_valid 1 3) t row (kp' !! t))
  ∧ ∃ kp' : list kframe,
      examples.record [[[0; 0]; [-1; 1]]]%Q (examples.all_valid 1 2)
      = <["keypoints" := FloatArr kp']> examples.corner_data
      ∧ length kp' = length [examples.corner_frame]
      ∧ ∀ (t : nat) (row : kframe),
          [examples.corner_frame] !! t = Some row →
          jittered (Some 1%Z) (examples.all_valid 1 2) t row (kp' !! t).
Proof.
  split.
  - apply (Jittering_moves_one_joint_per_frame examples.cos_poly examples.sin_poly
             examples.drawn_jittering examples.three_joints_data _
             [[[0; 0]; [1; 1]; [2; 0]]]%Q (examples.all_valid 1 3)
             [1 # 2; 1 # 2; 1 # 2]%Q []).
    + reflexivity.
    + reflexivity.
    + vm_compute. reflexivity.
  - apply (Jittering_moves_one_joint_per_frame examples.cos_poly examples.sin_poly
             examples.backward_jittering examples.corner_data _ [examples.corner_frame]
             (examples.all_valid 1 2) ([] : list Q) []).
    + reflexivity.
    + reflexivity.
    + vm_compute. reflexivity.
Defined.

Lemma Jittering_cannot_target_joint_0_witness :
  perturbation.Jittering_apply examples.cos_poly examples.sin_poly
    (perturbation.mkJittering (examples.deg2rad 0, examples.deg2rad 0) (0, 1)%Q
       (Some 0%Z) false 1)
    examples.corner_data ([] : list Q)
  = perturbation.Jittering_apply examples.cos_poly examples.sin_poly
      (perturbation.mkJittering (examples.deg2rad 0, examples.deg2rad 0) (0, 1)%Q
         None false 1)
      examples.corner_data ([] : list Q).
Proof.
  apply (Jittering_cannot_target_joint_0 examples.cos_poly examples.sin_poly
           examples.deg2rad (0, 0)%Q (0, 1)%Q false 1 examples.corner_data ([] : list Q));
    reflexivity.
Defined.


Lemma SelectRandomFrames_selects_a_window_witness :
  select.SelectRandomFrames_get_selection 2 2 true examples.small_data ([] : list Q)
  = Ok (arange 0 (0 + 2), [])
  ∧ length (arange 0 (0 + 2)) = Z.to_nat 2
  ∧ select.extract examples.small_data (arange 0 (0 + 2))
    = Ok (pick_frames (arange 0 (0 + 2)) <$> examples.small_data).
Proof.
  apply (SelectRandomFrames_selects_a_window 2 2 examples.small_data 2 2 0
           ([] : list Q) [] []).
  - exact (record_of_length_record (examples.ones 2 2 2) (examples.all_valid 2 2) eq_refl).
  - reflexivity.
  - reflexivity.
  - lia.
  - simpl. lia.
Defined.
